(** * png_parser.c: a shallow embedding of the PNG chunk reader and scanline
    defilterer, and the properties of its specification.

    Conventions of the embedding.
    - A byte ([uint8_t], [char]) is a [Z] in [0, 256); a buffer is a [list Z]
      and a pointer into it is an offset ([Z]).
    - [size_t] is the 64-bit unsigned type of an LP64 platform (the program
      prints a [size_t] with [%lu]); [uint32_t] is 32 bits wide.  Every
      addition and multiplication carries the wrap-around of the C type it
      is computed in.
    - [int] computations of the filters stay far below 2^31 and are exact.
    - A function returning [0] / [1] with an out-parameter returns a
      [fetch_result]; the state it mutates is returned next to it, also on
      failure. *)

From Stdlib Require Import ZArith Lia.
From stdpp Require Import base numbers list.

Local Open Scope Z_scope.

(** ** Machine integers *)

Definition size_t (z : Z) : Z := z mod 2 ^ 64.
Definition uint32_t (z : Z) : Z := z mod 2 ^ 32.
Definition uint8_t (z : Z) : Z := z mod 256.

(** Largest size of one object ([PTRDIFF_MAX]): a mapped file or an
    allocated buffer never has more bytes. *)
Definition PTRDIFF_MAX : Z := 2 ^ 63 - 1.

Definition is_byte (b : Z) : Prop := 0 <= b < 256.

(** ** Memory *)

(** [*(m + p)] for a byte pointer.  An access outside the buffer is
    undefined in C: here [load] reads 0 and [store] changes nothing.  No
    meaning is attached to these two values: every property of the loop
    of [main] is stated for a buffer that holds all the rows, where every
    access lies inside. *)
Definition load (m : list Z) (p : Z) : Z := default 0 (m !! Z.to_nat p).

(** [*(m + p) = v]. *)
Definition store (m : list Z) (p : Z) (v : Z) : list Z := <[Z.to_nat p := v]> m.

(** The [n] bytes at [m + p]: what [memcpy(out, m + p, n)] copies. *)
Definition bytes_at (m : list Z) (p n : Z) : list Z :=
  take (Z.to_nat n) (drop (Z.to_nat p) m).

(** [strncmp(s1, s2, n)]: bytes are compared as [unsigned char]; the
    comparison ends at the first difference, at a NUL found in both, or
    after [n] bytes.  The end of a list reads as the terminating NUL of a
    string literal. *)
Fixpoint strncmp (s1 s2 : list Z) (n : nat) : Z :=
  match n with
  | O => 0
  | S n' =>
      let c1 := hd 0 s1 in
      let c2 := hd 0 s2 in
      if c1 =? c2
      then (if c1 =? 0 then 0 else strncmp (tl s1) (tl s2) n')
      else c1 - c2
  end.

(** ** The cursor: [struct png_state] and [struct png_chunk] *)

Record png_state : Type := mk_state {
  ptr : list Z;   (* the mapped file *)
  size : Z;       (* its size *)
  index : Z       (* the read position *)
}.

Definition set_index (st : png_state) (i : Z) : png_state :=
  {| ptr := ptr st; size := size st; index := i |}.

Record png_chunk : Type := mk_chunk {
  c_size : Z;         (* uint32_t size *)
  c_type : list Z;    (* char type[4] *)
  c_data : Z          (* void *data: an offset into the mapped file *)
}.

(** The payload a chunk is a view of. *)
Definition chunk_payload (file : list Z) (c : png_chunk) : list Z :=
  bytes_at file (c_data c) (c_size c).

(** Result of a cursor function: [Fetched v] is [return 0] with [v] stored
    through the out-parameter, [TruncatedInput] is [return 1]. *)
Inductive fetch_result (A : Type) : Type :=
| Fetched (v : A)
| TruncatedInput.
Arguments Fetched {A} v.
Arguments TruncatedInput {A}.

(** [be_host32]: [buf] is the object representation of the argument, that
    is the four bytes as they were copied from the file.  The shifts are
    [int] shifts; the value is reduced to 32 bits when it is stored in
    [out]. *)
Definition be_host32 (buf : list Z) : Z :=
  let out := 0 in
  let out := Z.lor out (buf !!! 3%nat) in
  let out := Z.lor out (Z.shiftl (buf !!! 2%nat) 8) in
  let out := Z.lor out (Z.shiftl (buf !!! 1%nat) 16) in
  let out := Z.lor out (Z.shiftl (buf !!! 0%nat) 24) in
  uint32_t out.

Definition png_fetchN (st : png_state) (count : Z)
  : fetch_result (list Z) * png_state :=
  if size_t (index st + count) >? size st then (TruncatedInput, st)
  else (Fetched (bytes_at (ptr st) (index st) count),
        set_index st (size_t (index st + count))).

Definition png_fetch8 (st : png_state) := png_fetchN st 1.
Definition png_fetch16 (st : png_state) := png_fetchN st 2.
Definition png_fetch32 (st : png_state) := png_fetchN st 4.

Definition png_fetch_next_chunk (st : png_state)
  : fetch_result png_chunk * png_state :=
  match png_fetch32 st with
  | (TruncatedInput, st1) => (TruncatedInput, st1)
  | (Fetched raw, st1) =>
      let sz := be_host32 raw in
      match png_fetchN st1 4 with
      | (TruncatedInput, st2) => (TruncatedInput, st2)
      | (Fetched ty, st2) =>
          if size_t (size_t (index st2 + sz) + 4) >? size st2
          then (TruncatedInput, st2)
          else (Fetched {| c_size := sz; c_type := ty; c_data := index st2 |},
                (* out->size + 4 is computed in uint32_t *)
                set_index st2 (size_t (index st2 + uint32_t (sz + 4))))
      end
  end.

Definition png_magic : list Z := [137; 80; 78; 71; 13; 10; 26; 10].

(** [png_check] returns an [int]: [1] for a short buffer, otherwise what
    [strncmp] returns. *)
Definition png_check (st : png_state) : Z * png_state :=
  if size st <? 8 then (1, st)
  else
    let st1 := set_index st (size_t (index st + 8)) in
    (strncmp (drop (Z.to_nat (size_t (index st1 - 8))) (ptr st1)) png_magic 8, st1).

(** ** Gathering the IDAT chunks: [png_decompress_idat] *)

Definition tag_IDAT : list Z := [73; 68; 65; 84].
Definition tag_IHDR : list Z := [73; 72; 68; 82].

(** The [while] loop that gathers the scattered IDAT payloads, run on the
    copy of the state.  [input] is the buffer grown by [realloc] and
    [memcpy].  The loop ends when [png_fetch_next_chunk] fails; [None] is
    only returned when [fuel] iterations were not enough to get there. *)
Fixpoint gather_idat (fuel : nat) (st : png_state) (input : list Z)
  : option (list Z) :=
  match fuel with
  | O => None
  | S fuel' =>
      match png_fetch_next_chunk st with
      | (TruncatedInput, _) => Some input
      | (Fetched c, st') =>
          if strncmp tag_IDAT (c_type c) 4 =? 0
          then gather_idat fuel' st' (input ++ chunk_payload (ptr st') c)
          else gather_idat fuel' st' input
      end
  end.

(** Every successful fetch consumes at least the 8 bytes of length and
    type, so [size / 8 + 1] iterations reach the end of the file. *)
Definition gather_fuel (st : png_state) : nat := S (Z.to_nat (size st / 8)).

(** zlib status codes. *)
Definition Z_OK : Z := 0.
Definition Z_DATA_ERROR : Z := -3.
Definition Z_MEM_ERROR : Z := -4.
Definition Z_BUF_ERROR : Z := -5.

(** How [main] can end before the image is written.  A failed [assert]
    aborts the process; the constructors carry the names the specification
    gives to the rejected conditions. *)
Inductive png_error : Type :=
| BadSignature          (* png_check returned non-zero: "not a png file" *)
| NoFirstChunk          (* the first png_fetch_next_chunk returned 1 *)
| MissingHeader         (* assert on the "IHDR" tag, assert(c.size == 13) *)
| UnsupportedFeature    (* assert on colour type, on filter, on interlace *)
| OutOfMemory           (* uncompress: Z_MEM_ERROR *)
| OutputBufferTooSmall  (* uncompress: Z_BUF_ERROR *)
| CorruptData           (* uncompress: Z_DATA_ERROR *)
| CodecAssertion        (* assert(status == Z_OK), assert(out_size == buf_size) *)
| InvalidFilterType     (* named by the specification; no statement of main produces it *)
| LoopFuelExhausted.    (* artefact of [gather_idat]'s fuel, see [gather_idat_terminates] *)

(** ** The header fields read by [main] *)

Record ihdr : Type := mk_ihdr {
  width : Z;
  height : Z;
  bit_depth : Z;
  color_type : Z;
  compression : Z;
  filter : Z;
  interlace : Z
}.

Definition read_ihdr (file : list Z) (c : png_chunk) : ihdr :=
  {| width := be_host32 (bytes_at file (c_data c + 0) 4);
     height := be_host32 (bytes_at file (c_data c + 4) 4);
     bit_depth := load file (c_data c + 8);
     color_type := load file (c_data c + 9);
     compression := load file (c_data c + 10);
     filter := load file (c_data c + 11);
     interlace := load file (c_data c + 12) |}.

Definition is_truecolor (h : ihdr) : Z := Z.land (color_type h) 2.
Definition has_palette (h : ihdr) : Z := Z.land (color_type h) 1.
Definition has_alpha (h : ihdr) : Z := Z.land (color_type h) 4.
Definition is_grayscale (h : ihdr) : Z := if is_truecolor h =? 0 then 1 else 0.

Definition pixel_size (h : ihdr) : Z :=
  size_t ((if has_alpha h =? 0 then 3 else 4) * Z.quot (bit_depth h) 8).

(** The three assertions of [main] on the header fields, in program
    order; on success the pixel size computed between them. *)
Definition check_ihdr (h : ihdr) : png_error + Z :=
  if negb ((negb (is_truecolor h =? 0)) && (has_palette h =? 0))
  then inl UnsupportedFeature
  else
    let pixel_size := pixel_size h in
    if negb (filter h =? 0) then inl UnsupportedFeature
    else if negb (interlace h =? 0) then inl UnsupportedFeature
    else inr pixel_size.

(** ** The reconstruction filters *)

Definition png_sub_filter (m : list Z) (line pixel_size x i : Z) : Z :=
  if x =? 0 then load m (line + size_t (size_t (pixel_size * x) + i))
  else uint8_t (load m (line + size_t (size_t (pixel_size * x) + i))
                + load m (line + size_t (size_t (pixel_size * size_t (x - 1)) + i))).

Definition png_up_filter (m : list Z) (line : Z) (prev_line : option Z)
    (pixel_size x i : Z) : Z :=
  match prev_line with
  | None => load m (line + size_t (size_t (pixel_size * x) + i))
  | Some prev =>
      uint8_t (load m (line + size_t (size_t (pixel_size * x) + i))
               + load m (prev + size_t (size_t (pixel_size * x) + i)))
  end.

Definition png_avg_filter (m : list Z) (line : Z) (prev_line : option Z)
    (pixel_size x i : Z) : Z :=
  let left := 0 in
  let top := 0 in
  let left :=
    if x =? 0 then left
    else load m (line + size_t (size_t (pixel_size * size_t (x - 1)) + i)) in
  let top :=
    match prev_line with
    | None => top
    | Some prev => load m (prev + size_t (size_t (pixel_size * x) + i))
    end in
  uint8_t (Z.quot (left + top) 2
           + load m (line + size_t (size_t (pixel_size * x) + i))).

Definition png_abs (x : Z) : Z := if x <? 0 then - x else x.

Definition png_paeth_filter (m : list Z) (line : Z) (prev_line : option Z)
    (pixel_size x i : Z) : Z :=
  let d := load m (line + size_t (size_t (pixel_size * x) + i)) in
  let a :=
    if x =? 0 then 0
    else load m (line + size_t (size_t (pixel_size * size_t (x - 1)) + i)) in
  let b :=
    match prev_line with
    | None => 0
    | Some prev => load m (prev + size_t (size_t (pixel_size * x) + i))
    end in
  let c :=
    match prev_line with
    | None => 0
    | Some prev =>
        if x =? 0 then 0
        else load m (prev + size_t (size_t (pixel_size * size_t (x - 1)) + i))
    end in
  let p := a + b - c in
  let pa := png_abs (p - a) in
  let pb := png_abs (p - b) in
  let pc := png_abs (p - c) in
  if (pa <=? pb) && (pa <=? pc) then uint8_t (d + a)
  else if pb <=? pc then uint8_t (d + b)
  else uint8_t (d + c).

(** ** The defiltering loop of [main] *)

(** One item of the text written to [foo.ppm]. *)
Inductive ppm_item : Type :=
| PpmHeader (width height : Z)   (* "P3 %u %u 255\n" *)
| PpmSample (v : Z)              (* "%u " *)
| PpmNewline.                    (* "\n" *)

(** The five entries of the table [filter_methods], as indices of names. *)
Inductive filter_name : Type :=
| name_none | name_sub | name_up | name_average | name_paeth.

Definition filter_methods : list filter_name :=
  [name_none; name_sub; name_up; name_average; name_paeth].

(** What the loop acts on: the decompressed buffer [buf], the PPM text, the
    filter names printed on stdout and the filter bytes reported on stderr
    as invalid.  The program does not guard the read of [filter_methods]:
    with an index of 5 or more it reads past the end of the table, which
    is undefined in C.  [None] marks such a read, and what is recorded
    behind it has no counterpart in the program. *)
Record out_state : Type := mk_out {
  mem : list Z;
  ppm : list ppm_item;
  names : list (option filter_name);
  invalid : list Z
}.

(** [for (size_t k = 0; k < hi; k++) body]: [for_loop n k] runs the [n]
    iterations that start at [k]. *)
Fixpoint for_loop {S : Type} (n : nat) (k : Z) (body : Z -> S -> S) (s : S) : S :=
  match n with
  | O => s
  | S n' => for_loop n' (k + 1) body (body k s)
  end.

Definition for_range {S : Type} (hi : Z) (body : Z -> S -> S) (s : S) : S :=
  for_loop (Z.to_nat hi) 0 body s.

(** The [switch] on the filter method: the reconstructed byte, and whether
    the [default] branch was taken. *)
Definition switch_filter (m : list Z) (filter_method line : Z)
    (prev_line : option Z) (pixel_size x i : Z) : Z * bool :=
  if filter_method =? 0
  then (load m (line + size_t (size_t (x * pixel_size) + i)), false)
  else if filter_method =? 1
  then (png_sub_filter m line pixel_size x i, false)
  else if filter_method =? 2
  then (png_up_filter m line prev_line pixel_size x i, false)
  else if filter_method =? 3
  then (png_avg_filter m line prev_line pixel_size x i, false)
  else if filter_method =? 4
  then (png_paeth_filter m line prev_line pixel_size x i, false)
  else (255, true).

(** Body of the loop on [i]. *)
Definition byte_step (filter_method line : Z) (prev_line : option Z)
    (pixel_size x i : Z) (s : out_state) : out_state :=
  let '(actual_value, bad) :=
    switch_filter (mem s) filter_method line prev_line pixel_size x i in
  {| mem := store (mem s) (line + size_t (size_t (x * pixel_size) + i)) actual_value;
     ppm := if i <? 3 then ppm s ++ [PpmSample actual_value] else ppm s;
     names := names s;
     invalid := if bad then invalid s ++ [filter_method] else invalid s |}.


(** Body of the loop on [y]: the filter method is read (line 318), its
    name is looked up and printed (line 319), then come the loops on [x]
    and [i] and the newline. *)
Definition row_step (width pixel_size y : Z) (s : out_state) : out_state :=
  let stride := size_t (size_t (width * pixel_size) + 1) in
  let filter_method := load (mem s) (size_t (y * stride)) in
  let s := {| mem := mem s; ppm := ppm s;
              names := names s ++ [filter_methods !! Z.to_nat filter_method];
              invalid := invalid s |} in
  let prev_line :=
    if y =? 0 then None else Some (size_t (size_t (y - 1) * stride) + 1) in
  let line := size_t (y * stride) + 1 in
  let s :=
    for_range width (fun x =>
      for_range pixel_size (fun i =>
        byte_step filter_method line prev_line pixel_size x i)) s in
  {| mem := mem s; ppm := ppm s ++ [PpmNewline];
     names := names s; invalid := invalid s |}.

(** Lines 304-359: the PPM header and the loop on the rows. *)
Definition write_ppm (width height pixel_size : Z) (raw_data : list Z) : out_state :=
  for_range height (row_step width pixel_size)
    {| mem := raw_data; ppm := [PpmHeader width height]; names := []; invalid := [] |}.

(** ** [png_decompress_idat] and [main] *)

Inductive main_result : Type :=
| Failed (e : png_error)
| Written (s : out_state).

(** Lines 154-172: what [png_decompress_idat] makes of the status and of
    the bytes stored by [uncompress]. *)
Definition uncompress_status (r : Z * list Z) (buf_size : Z) : png_error + list Z :=
  let '(status, out_data) := r in
  if status =? Z_MEM_ERROR then inl OutOfMemory
  else if status =? Z_BUF_ERROR then inl OutputBufferTooSmall
  else if status =? Z_DATA_ERROR then inl CorruptData
  else if negb (status =? Z_OK) then inl CodecAssertion
  else if negb (Z.of_nat (length out_data) =? buf_size) then inl CodecAssertion
  else inr out_data.

Section Program.

(** zlib's [uncompress], given the input and the capacity of the output
    buffer: its status and the bytes it stored. *)
Variable uncompress : list Z -> Z -> Z * list Z.

Definition png_decompress_idat (st : png_state) (buf_size : Z)
  : png_error + list Z :=
  let state_copy := st in
  match gather_idat (gather_fuel state_copy) state_copy [] with
  | None => inl LoopFuelExhausted
  | Some input => uncompress_status (uncompress input buf_size) buf_size
  end.

(** Lines 280-281: the values [main] prints on stdout once the header is
    read, in the order of the format string. *)
Definition header_line (h : ihdr) : list Z :=
  [width h; height h; bit_depth h; color_type h; compression h; filter h;
   interlace h].

(** [main] from line 258 on, on the bytes of the file that [map_file] has
    mapped.  [map_file] ends the program when the file cannot be opened or
    mapped, and a file without bytes cannot be mapped: [file] stands for a
    file of at least one byte.  Of what the program prints, the result
    holds the PPM text and the two diagnostics of the loop; the line of
    header values is [header_line]. *)
Definition png_main (file : list Z) : main_result :=
  let state := {| ptr := file; size := Z.of_nat (length file); index := 0 |} in
  let '(rc, state) := png_check state in
  if negb (rc =? 0) then Failed BadSignature
  else
    match png_fetch_next_chunk state with
    | (TruncatedInput, _) => Failed NoFirstChunk
    | (Fetched c, state) =>
        if negb (strncmp tag_IHDR (c_type c) 4 =? 0) then Failed MissingHeader
        else if negb (c_size c =? 13) then Failed MissingHeader
        else
          let h := read_ihdr file c in
          match check_ihdr h with
          | inl e => Failed e
          | inr pixel_size =>
              let raw_size :=
                size_t (size_t (uint32_t (width h * height h) * pixel_size)
                        + height h) in
              match png_decompress_idat state raw_size with
              | inl e => Failed e
              | inr raw_data =>
                  Written (write_ppm (width h) (height h) pixel_size raw_data)
              end
          end
    end.

End Program.

(** ** Vocabulary of the specification *)

(** A state as [main] builds it: the cursor lies inside the mapped file,
    whose size fits one object. *)
Definition state_ok (st : png_state) : Prop :=
  size st = Z.of_nat (length (ptr st)) /\ size st <= PTRDIFF_MAX /\
  0 <= index st <= size st.

(** Layout of the scanline buffer: [stride] bytes a row, the filter-type
    byte first; [pix] is the position of channel byte [i] of pixel [x] of
    row [y]. *)
Definition stride (width pixel_size : Z) : Z := width * pixel_size + 1.

Definition row_start (width pixel_size y : Z) : Z := y * stride width pixel_size.

Definition pix (width pixel_size y x i : Z) : Z :=
  row_start width pixel_size y + 1 + (x * pixel_size + i).

(** The reconstructed neighbours of a byte, 0 where the neighbour is absent. *)
Definition left_of (m : list Z) (width pixel_size y x i : Z) : Z :=
  if x =? 0 then 0 else load m (pix width pixel_size y (x - 1) i).

Definition up_of (m : list Z) (width pixel_size y x i : Z) : Z :=
  if y =? 0 then 0 else load m (pix width pixel_size (y - 1) x i).

Definition upleft_of (m : list Z) (width pixel_size y x i : Z) : Z :=
  if (x =? 0) || (y =? 0) then 0 else load m (pix width pixel_size (y - 1) (x - 1) i).

(** The Paeth choice in the words of the specification. *)
Definition paeth_choice (a b c : Z) : Z :=
  let predictor := a + b - c in
  let pa := Z.abs (predictor - a) in
  let pb := Z.abs (predictor - b) in
  let pc := Z.abs (predictor - c) in
  if decide (pa <= pb /\ pa <= pc) then a
  else if decide (pb <= pc) then b
  else c.

(** The Average reconstruction read with every operation, the sum of the
    two neighbours included, wrapped to 8 bits. *)
Definition average_all_mod256 (raw left up : Z) : Z :=
  (raw + ((left + up) mod 256) / 2) mod 256.

(** The Average reconstruction with the neighbours summed exactly and only
    the final addition wrapped. *)
Definition average_exact_sum (raw left up : Z) : Z :=
  (raw + (left + up) / 2) mod 256.

(** The predictor of each filter type, from the neighbours [a] (left),
    [b] (up) and [c] (up-left). *)
Definition predictor (t a b c : Z) : Z :=
  if t =? 1 then a
  else if t =? 2 then b
  else if t =? 3 then (a + b) / 2
  else if t =? 4 then paeth_choice a b c
  else 0.

(** The reconstruction of one byte in the words of the specification,
    from the filter type [t], the filtered byte [raw] and the neighbours;
    255 is what the program stores for any other type. *)
Definition reconstruct (t raw a b c : Z) : Z :=
  if t =? 0 then raw
  else if (1 <=? t) && (t <=? 4) then (raw + predictor t a b c) mod 256
  else 255.

(** The neighbours as the filter functions address them, from the
    pointers [line] and [prev_line]. *)
Definition nb_left (m : list Z) (line pixel_size x i : Z) : Z :=
  if x =? 0 then 0 else load m (line + ((x - 1) * pixel_size + i)).

Definition nb_up (m : list Z) (prev_line : option Z) (pixel_size x i : Z) : Z :=
  match prev_line with
  | None => 0
  | Some prev => load m (prev + (x * pixel_size + i))
  end.

Definition nb_upleft (m : list Z) (prev_line : option Z) (pixel_size x i : Z) : Z :=
  match prev_line with
  | None => 0
  | Some prev => if x =? 0 then 0 else load m (prev + ((x - 1) * pixel_size + i))
  end.

(** A step that rewrites the segment [lo, hi) of a buffer of [N] bytes:
    nothing else changes, and [Q] relates the buffer before and after. *)
Definition segment_spec (N lo hi : Z) (Q : list Z -> list Z -> Prop)
    (m m' : list Z) : Prop :=
  Forall is_byte m -> Z.of_nat (length m) = N ->
  length m' = length m /\
  Forall is_byte m' /\
  (forall q, 0 <= q -> q < lo \/ hi <= q -> load m' q = load m q) /\
  Q m m'.

(** [Q] looks at the buffer before only from [lo] on, and at the buffer
    after only below [hi]. *)
Definition stable (lo hi : Z) (Q : list Z -> list Z -> Prop) : Prop :=
  forall m1 m1' m2 m2',
    Q m1 m1' ->
    (forall q, lo <= q -> load m2 q = load m1 q) ->
    (forall q, 0 <= q < hi -> load m2' q = load m1' q) ->
    Q m2 m2'.

(** One byte of the buffer after, [m'], is the reconstruction of the
    byte of the buffer before, [m], from the neighbours as they are in [m']. *)
Definition byte_rel (filter_method line : Z) (prev_line : option Z)
    (pixel_size x i : Z) (m m' : list Z) : Prop :=
  load m' (line + (x * pixel_size + i)) =
    reconstruct filter_method
      (load m (line + (x * pixel_size + i)))
      (nb_left m' line pixel_size x i)
      (nb_up m' prev_line pixel_size x i)
      (nb_upleft m' prev_line pixel_size x i).

(** Row [y] of the buffer after is the reconstruction of row [y] of the
    buffer before, under the filter type in front of that row. *)
Definition row_rel (width pixel_size y : Z) (m m' : list Z) : Prop :=
  load m' (row_start width pixel_size y) = load m (row_start width pixel_size y) /\
  forall x i, 0 <= x < width -> 0 <= i < pixel_size ->
    load m' (pix width pixel_size y x i) =
      reconstruct (load m (row_start width pixel_size y))
        (load m (pix width pixel_size y x i))
        (left_of m' width pixel_size y x i)
        (up_of m' width pixel_size y x i)
        (upleft_of m' width pixel_size y x i).

(** Modelled from the spec: the PNG per-row filter encoder, which the
    repository (a decoder) does not contain.  The buffer [img] has the
    layout of the scanline buffer: every row starts with the filter type to
    apply and continues with the true bytes.  The encoder keeps the type
    byte and replaces every other byte by its difference, modulo 256, to the
    predictor of that type computed from the true neighbours. *)
Definition png_filter_byte (width pixel_size : Z) (img : list Z) (q : Z) : Z :=
  let y := q / stride width pixel_size in
  let r := q mod stride width pixel_size in
  if r =? 0 then load img q
  else
    let k := r - 1 in
    let t := load img (row_start width pixel_size y) in
    let a := if k <? pixel_size then 0 else load img (q - pixel_size) in
    let b := if y =? 0 then 0 else load img (q - stride width pixel_size) in
    let c := if (k <? pixel_size) || (y =? 0) then 0
             else load img (q - stride width pixel_size - pixel_size) in
    (load img q - predictor t a b c) mod 256.

(** Modelled from the spec: the same encoder applied to every position of
    the buffer. *)
Definition png_filter (width pixel_size : Z) (img : list Z) : list Z :=
  map (fun q => png_filter_byte width pixel_size img (Z.of_nat q))
      (seq 0 (length img)).

(** Rows of true bytes laid out as a scanline buffer with filter type [t]
    in front of each. *)
Definition scanlines (t : Z) (rows : list (list Z)) : list Z :=
  concat (map (fun row => t :: row) rows).

(** A chunk as it lies in a file: tag, payload and the four checksum
    bytes; [chunk_bytes] is its byte sequence, the length first, most
    significant byte first. *)
Record file_chunk : Type := mk_file_chunk {
  fc_type : list Z;
  fc_data : list Z;
  fc_crc : list Z
}.

Definition be32_bytes (n : Z) : list Z :=
  [n / 2 ^ 24 mod 256; n / 2 ^ 16 mod 256; n / 2 ^ 8 mod 256; n mod 256].

Definition chunk_bytes (c : file_chunk) : list Z :=
  be32_bytes (Z.of_nat (length (fc_data c))) ++ fc_type c ++ fc_data c ++ fc_crc c.

Definition chunk_ok (c : file_chunk) : Prop :=
  length (fc_type c) = 4%nat /\ length (fc_crc c) = 4%nat /\
  Z.of_nat (length (fc_data c)) + 4 < 2 ^ 32.

Definition is_idat (c : file_chunk) : bool :=
  bool_decide (fc_type c = tag_IDAT).

(** The payloads of the IDAT chunks of a chunk list, in list order. *)
Definition idat_payloads (cs : list file_chunk) : list Z :=
  concat (map fc_data (List.filter is_idat cs)).

(** A file of 4 GiB + 16 bytes: the signature, then a chunk that declares
    a payload of 2^32 - 4 bytes, its payload and checksum (all zero). *)
Definition huge_chunk_file : list Z :=
  png_magic ++ [255; 255; 255; 252; 73; 68; 65; 84]
  ++ replicate (Z.to_nat (2 ^ 32)) 0.

Definition huge_chunk_state : png_state :=
  {| ptr := huge_chunk_file; size := 2 ^ 32 + 16; index := 8 |}.

(** [main] gets as far as reading the header fields [h] from [file]: the
    signature check returns 0 and the first chunk is fetched, is tagged
    IHDR and has 13 bytes; [st] is the state left for
    [png_decompress_idat]. *)
Definition reads_header (file : list Z) (h : ihdr) (st : png_state) : Prop :=
  exists st1 c,
    png_check {| ptr := file; size := Z.of_nat (length file); index := 0 |} = (0, st1) /\
    png_fetch_next_chunk st1 = (Fetched c, st) /\
    strncmp tag_IHDR (c_type c) 4 = 0 /\
    c_size c = 13 /\
    read_ihdr file c = h.

(** [raw_size] as [main] computes it: [width * height] is a product of
    two [uint32_t]. *)
Definition raw_size_of (h : ihdr) (pixel_size : Z) : Z :=
  size_t (size_t (uint32_t (width h * height h) * pixel_size) + height h).

(** A header chunk with the given fields, and a minimal file around it:
    one IDAT chunk with payload [idat] and the IEND chunk. *)
Definition ihdr_chunk (w h bd ct cm fm im : Z) : file_chunk :=
  {| fc_type := tag_IHDR;
     fc_data := be32_bytes w ++ be32_bytes h ++ [bd; ct; cm; fm; im];
     fc_crc := [0; 0; 0; 0] |}.

Definition png_file (hdr : file_chunk) (idat : list Z) : list Z :=
  png_magic ++ chunk_bytes hdr
  ++ chunk_bytes {| fc_type := tag_IDAT; fc_data := idat; fc_crc := [0; 0; 0; 0] |}
  ++ chunk_bytes {| fc_type := [73; 69; 78; 68]; fc_data := []; fc_crc := [174; 66; 96; 130] |}.

(** Three concrete files: a palette image, a grayscale-with-alpha image
    and a truecolor image declared with bit depth 4, each of one pixel.
    The IDAT payload is the zlib stream of a single zero byte. *)
Definition zlib_one_zero : list Z := [120; 156; 99; 0; 0; 0; 1; 0; 1].

Definition palette_file : list Z := png_file (ihdr_chunk 1 1 8 3 0 0 0) zlib_one_zero.
Definition gray_alpha_file : list Z := png_file (ihdr_chunk 1 1 8 4 0 0 0) zlib_one_zero.
Definition depth4_file : list Z := png_file (ihdr_chunk 1 1 4 2 0 0 0) zlib_one_zero.

(** The state [main] has after the 8 signature bytes and the 25 bytes of
    the header chunk of [file]. *)
Definition after_header (file : list Z) : png_state :=
  {| ptr := file; size := Z.of_nat (length file); index := 33 |}.


Definition average_image : list Z :=
  [0; 10; 20; 30; 200; 0; 0;
   3; 100; 0; 0; 0; 0; 0].

Definition paeth_image : list Z :=
  [0; 50; 1; 2; 50; 3; 4;
   4; 0; 0; 0; 7; 0; 0].

(** ** Vocabulary of the further properties *)

(** What is left of a file after its last whole chunk does not hold a
    whole chunk: fewer than the 8 bytes of length and tag, or a declared
    length that, with the 4 checksum bytes, runs past the end. *)
Definition truncated_tail (tail : list Z) : Prop :=
  Z.of_nat (length tail) < 8 \/
  8 + be_host32 (take 4 tail) + 4 > Z.of_nat (length tail).

(** The bytes a failed [png_fetch_next_chunk] has consumed, by the bytes
    that were left: nothing of a truncated length, the length before a
    truncated tag, length and tag otherwise. *)
Definition consumed_on_failure (left : Z) : Z :=
  if left <? 4 then 0 else if left <? 8 then 4 else 8.

(** The values a [for] loop of [n] iterations gives its counter, from [k]. *)
Fixpoint counter_values (n : nat) (k : Z) : list Z :=
  match n with
  | O => []
  | S n' => k :: counter_values n' (k + 1)
  end.

(** The PPM text of a buffer [m] of reconstructed rows: of every pixel
    the bytes [i < 3], a newline after each row. *)
Definition ppm_byte (m : list Z) (width pixel_size y x i : Z) : list ppm_item :=
  if i <? 3 then [PpmSample (load m (pix width pixel_size y x i))] else [].

Definition ppm_pixel (m : list Z) (width pixel_size y x : Z) : list ppm_item :=
  concat (map (ppm_byte m width pixel_size y x)
              (counter_values (Z.to_nat pixel_size) 0)).

Definition ppm_row (m : list Z) (width pixel_size y : Z) : list ppm_item :=
  concat (map (ppm_pixel m width pixel_size y)
              (counter_values (Z.to_nat width) 0))
  ++ [PpmNewline].

Definition ppm_rows (m : list Z) (width pixel_size height : Z) : list ppm_item :=
  concat (map (ppm_row m width pixel_size)
              (counter_values (Z.to_nat height) 0)).

(** The same text by the pointer [line] of a row, as the loops on [x]
    and [i] produce it. *)
Definition text_byte (m : list Z) (line pixel_size x i : Z) : list ppm_item :=
  if i <? 3 then [PpmSample (load m (line + (x * pixel_size + i)))] else [].

Definition text_pixel (m : list Z) (line pixel_size x : Z) : list ppm_item :=
  concat (map (text_byte m line pixel_size x)
              (counter_values (Z.to_nat pixel_size) 0)).

(** What a row contributes to the two diagnostics: the entry of
    [filter_methods] printed for the row, and the reports of an invalid
    filter, one for each byte of the row. *)
Definition valid_filter (t : Z) : bool := (0 <=? t) && (t <=? 4).

Definition names_row (m : list Z) (width pixel_size y : Z)
  : list (option filter_name) :=
  [filter_methods !! Z.to_nat (load m (row_start width pixel_size y))].

Definition invalid_row (m : list Z) (width pixel_size y : Z) : list Z :=
  let t := load m (row_start width pixel_size y) in
  if valid_filter t then [] else replicate (Z.to_nat (width * pixel_size)) t.

(** Every row of the buffer starts with one of the five filter types:
    the rows for which the read of [filter_methods] stays inside the
    table. *)
Definition filter_types_valid (width pixel_size height : Z) (m : list Z) : Prop :=
  forall y, 0 <= y < height -> 0 <= load m (row_start width pixel_size y) <= 4.

(** Two more decompressed buffers of 3-byte pixels: one row of two
    pixels under Sub, two rows of one pixel with the second under Up. *)
Definition sub_image : list Z := [1; 100; 0; 0; 200; 0; 0].

Definition up_image : list Z := [0; 250; 1; 2; 2; 10; 0; 0].

(** * Properties *)

(** ** Machine integers and memory *)

Lemma size_t_small (z : Z) : 0 <= z < 2 ^ 64 -> size_t z = z.
Proof. intros H. unfold size_t. apply Z.mod_small. exact H. Qed.

Lemma uint32_t_small (z : Z) : 0 <= z < 2 ^ 32 -> uint32_t z = z.
Proof. intros H. unfold uint32_t. apply Z.mod_small. exact H. Qed.

Lemma uint8_t_byte (z : Z) : is_byte (uint8_t z).
Proof. unfold is_byte, uint8_t. apply Z.mod_pos_bound. lia. Qed.

Lemma load_store_eq (m : list Z) (p v : Z) :
  0 <= p < Z.of_nat (length m) -> load (store m p v) p = v.
Proof.
  intros H. unfold load, store.
  rewrite list_lookup_insert_eq by lia. reflexivity.
Qed.

Lemma load_store_ne (m : list Z) (p q v : Z) :
  0 <= p -> 0 <= q -> p <> q -> load (store m p v) q = load m q.
Proof.
  intros Hp Hq Hne. unfold load, store.
  rewrite list_lookup_insert_ne by lia. reflexivity.
Qed.

Lemma length_store (m : list Z) (p v : Z) : length (store m p v) = length m.
Proof. unfold store. apply length_insert. Qed.

Lemma load_is_byte (m : list Z) (p : Z) : Forall is_byte m -> is_byte (load m p).
Proof.
  intros H. unfold load.
  destruct (m !! Z.to_nat p) as [b|] eqn:E; simpl.
  - eapply Forall_lookup_1; eauto.
  - unfold is_byte. lia.
Qed.

Lemma store_is_byte (m : list Z) (p v : Z) :
  Forall is_byte m -> is_byte v -> Forall is_byte (store m p v).
Proof. intros Hm Hv. unfold store. apply Forall_insert; assumption. Qed.

Lemma length_bytes_at (m : list Z) (p n : Z) :
  0 <= p -> 0 <= n -> p + n <= Z.of_nat (length m) ->
  Z.of_nat (length (bytes_at m p n)) = n.
Proof.
  intros Hp Hn H. unfold bytes_at.
  rewrite length_take, length_drop. lia.
Qed.

Lemma bytes_at_app (pre bs rest : list Z) :
  bytes_at (pre ++ bs ++ rest) (Z.of_nat (length pre)) (Z.of_nat (length bs)) = bs.
Proof.
  unfold bytes_at. rewrite !Nat2Z.id.
  rewrite drop_app_length. apply take_app_length.
Qed.

(** [strncmp] against a pattern without NUL is 0 exactly on equal bytes. *)
Lemma strncmp_pattern_l (p l : list Z) :
  Forall (fun c => c <> 0) p ->
  strncmp p l (length p) = 0 <-> take (length p) l = p.
Proof.
  intros Hp. revert l. induction Hp as [|c p Hc Hp IH]; intros l.
  - simpl. rewrite take_0. tauto.
  - simpl strncmp. destruct (Z.eqb_spec c (hd 0 l)) as [E|E].
    + destruct (Z.eqb_spec c 0) as [E0|_]; [contradiction|].
      destruct l as [|c2 l]; simpl in E; [contradiction|]. subst c2.
      simpl. rewrite IH. split; [intros ->; reflexivity|].
      intros H; injection H; auto.
    + split; [lia|]. intros H. destruct l as [|c2 l]; simpl in *; congruence.
Qed.

Lemma strncmp_pattern_r (p l : list Z) :
  Forall (fun c => c <> 0) p ->
  strncmp l p (length p) = 0 <-> take (length p) l = p.
Proof.
  intros Hp. revert l. induction Hp as [|c p Hc Hp IH]; intros l.
  - simpl. rewrite take_0. tauto.
  - simpl strncmp. destruct (Z.eqb_spec (hd 0 l) c) as [E|E].
    + destruct l as [|c2 l]; simpl in E; [congruence|]. subst c2. simpl.
      destruct (Z.eqb_spec c 0) as [E0|_]; [contradiction|].
      rewrite IH. split; [intros ->; reflexivity|].
      intros H; injection H; auto.
    + split; [lia|]. intros H. destruct l as [|c2 l]; simpl in *; congruence.
Qed.

(** ** The byte cursor *)

Lemma size_t_index_add (st : png_state) (n : Z) :
  state_ok st -> 0 <= n <= PTRDIFF_MAX ->
  size_t (index st + n) = index st + n.
Proof.
  intros (Hsz & Hmax & Hlo & Hhi) Hn. unfold PTRDIFF_MAX in *.
  apply size_t_small. lia.
Qed.

Lemma png_fetchN_ok (st : png_state) (n : Z) :
  state_ok st -> 0 <= n <= PTRDIFF_MAX -> index st + n <= size st ->
  png_fetchN st n = (Fetched (bytes_at (ptr st) (index st) n),
                     set_index st (index st + n)).
Proof.
  intros Hok Hn Hle. unfold png_fetchN.
  rewrite (size_t_index_add st n Hok Hn).
  destruct (Z.gtb_spec (index st + n) (size st)) as [Hgt|_]; [lia|].
  reflexivity.
Qed.

Lemma png_fetchN_fail (st : png_state) (n : Z) :
  state_ok st -> 0 <= n <= PTRDIFF_MAX -> index st + n > size st ->
  png_fetchN st n = (TruncatedInput, st).
Proof.
  intros Hok Hn Hgt. unfold png_fetchN.
  rewrite (size_t_index_add st n Hok Hn).
  destruct (Z.gtb_spec (index st + n) (size st)) as [_|Hle]; [|lia].
  reflexivity.
Qed.

Lemma state_ok_set_index (st : png_state) (i : Z) :
  state_ok st -> 0 <= i <= size st -> state_ok (set_index st i).
Proof. unfold state_ok. simpl. tauto. Qed.

(** C6 (amended).  A read of [n] bytes from a cursor inside its buffer,
    where [index + n] stays in the range of [size_t]: when [index + n]
    exceeds the size the read fails with [TruncatedInput] and the state,
    the position included, is as it was; otherwise it delivers the [n]
    bytes at the cursor, the position is advanced by exactly [n] and
    buffer and size are untouched.  Either way the position stays within
    the buffer. *)
Theorem png_fetchN_contract (st : png_state) (n : Z) :
  state_ok st -> 0 <= n -> index st + n < 2 ^ 64 ->
  let r := png_fetchN st n in
  (index st + n > size st ->
     fst r = TruncatedInput /\ snd r = st /\ index (snd r) = index st) /\
  (index st + n <= size st ->
     fst r = Fetched (bytes_at (ptr st) (index st) n) /\
     Z.of_nat (length (bytes_at (ptr st) (index st) n)) = n /\
     index (snd r) = index st + n /\
     ptr (snd r) = ptr st /\ size (snd r) = size st) /\
  state_ok (snd r) /\ 0 <= index (snd r) <= size (snd r).
Proof.
  intros Hok Hn Hfit r. pose proof Hok as (Hsz & Hmax & Hlo & Hhi).
  assert (Hsum : size_t (index st + n) = index st + n)
    by (apply size_t_small; lia).
  subst r. unfold png_fetchN. rewrite Hsum.
  destruct (Z.gtb_spec (index st + n) (size st)) as [Hgt|Hle].
  - cbn [fst snd]. split; [intros _; repeat split|].
    split; [intros Hle; lia|]. split; [exact Hok|lia].
  - cbn [fst snd set_index index ptr size].
    split; [intros Hgt; lia|]. split.
    + intros _. split; [reflexivity|].
      split; [apply length_bytes_at; lia|]. repeat split.
    + split; [|lia]. apply state_ok_set_index; [exact Hok|lia].
Qed.

Lemma png_fetchN_contract_witness :
  let st := {| ptr := [1; 2; 3]; size := 3; index := 1 |} in
  (state_ok st /\ 0 <= 2 /\ index st + 3 < 2 ^ 64) /\
  (fst (png_fetchN st 2) = Fetched [2; 3] /\ index (snd (png_fetchN st 2)) = 3) /\
  (fst (png_fetchN st 3) = TruncatedInput /\ index (snd (png_fetchN st 3)) = 1).
Proof.
  intros st.
  assert (Hok : state_ok st) by (unfold state_ok, PTRDIFF_MAX; simpl; lia).
  assert (H2 : index st + 2 < 2 ^ 64) by (simpl; lia).
  assert (H3 : index st + 3 < 2 ^ 64) by (simpl; lia).
  split; [split; [exact Hok|split; [lia|exact H3]]|]. split.
  - destruct (png_fetchN_contract st 2 Hok ltac:(lia) H2) as (_ & Hs & _).
    destruct Hs as (Hv & _ & Hi & _); [simpl; lia|].
    split; [exact Hv|exact Hi].
  - destruct (png_fetchN_contract st 3 Hok ltac:(lia) H3) as (Hf & _).
    destruct Hf as (Hv & _ & Hi); [simpl; lia|].
    split; [exact Hv|exact Hi].
Defined.

(** C6 (counterexample).  The sum [index + count] is formed in [size_t]
    and not checked for wrap-around.  With 8 of 16 bytes read, a read of
    2^64 - 4 bytes asks for more than the buffer holds, yet the sum wraps
    to 4 and the test of the first line does not fail. *)
Lemma png_fetchN_sum_wraps :
  let st := {| ptr := replicate 16 0; size := 16; index := 8 |} in
  let n := 2 ^ 64 - 4 in
  state_ok st /\ 0 <= n < 2 ^ 64 /\ index st + n > size st /\
  size_t (index st + n) = 4 /\
  fst (png_fetchN st n) <> TruncatedInput.
Proof.
  intros st n.
  assert (Hsum : size_t (index st + n) = 4) by (vm_compute; reflexivity).
  split; [unfold state_ok, PTRDIFF_MAX; simpl; lia|].
  split; [subst n; lia|].
  split; [subst n; simpl; lia|].
  split; [exact Hsum|].
  unfold png_fetchN. rewrite Hsum.
  change (4 >? size st) with false. cbv iota. cbn [fst]. discriminate.
Qed.

(** C9.  On the state [main] starts from, a buffer of at least 8 bytes
    leaves [png_check] with the position at 8 whatever the comparison
    yields, and the result is 0 exactly when the first 8 bytes are the PNG
    magic; a shorter buffer makes it return 1 with the position still 0. *)
Theorem png_check_position (file : list Z) :
  let st0 := {| ptr := file; size := Z.of_nat (length file); index := 0 |} in
  (8 <= Z.of_nat (length file) ->
     index (snd (png_check st0)) = 8 /\
     (fst (png_check st0) = 0 <-> take 8 file = png_magic)) /\
  (Z.of_nat (length file) < 8 -> png_check st0 = (1, st0)).
Proof.
  intros st0. unfold png_check. simpl size. split; intros Hlen.
  - destruct (Z.ltb_spec (Z.of_nat (length file)) 8) as [Hlt|_]; [lia|].
    cbn [snd fst set_index index ptr].
    change (size_t (0 + 8)) with 8. change (Z.to_nat (size_t (8 - 8))) with 0%nat.
    rewrite drop_0. split; [reflexivity|].
    apply (strncmp_pattern_r png_magic file).
    unfold png_magic. repeat constructor; lia.
  - destruct (Z.ltb_spec (Z.of_nat (length file)) 8) as [_|Hge]; [|lia].
    reflexivity.
Qed.

Lemma png_check_position_witness :
  let bad := [78; 79; 84; 80; 78; 71; 13; 10; 0] in
  let st0 := {| ptr := bad; size := 9; index := 0 |} in
  8 <= Z.of_nat (length bad) /\
  index (snd (png_check st0)) = 8 /\ fst (png_check st0) <> 0.
Proof.
  intros bad st0.
  assert (Hlen : 8 <= Z.of_nat (length bad)) by (simpl; lia).
  split; [exact Hlen|].
  destruct (png_check_position bad) as [Hlong _].
  destruct (Hlong Hlen) as [Hidx Hrc].
  split; [exact Hidx|].
  intros H0. apply Hrc in H0. discriminate H0.
Defined.

(** ** Chunks *)

Lemma lor_shiftl_add (lo hi k : Z) :
  0 <= k -> 0 <= lo < 2 ^ k -> Z.lor lo (Z.shiftl hi k) = lo + hi * 2 ^ k.
Proof.
  intros Hk Hlo.
  assert (Hland : Z.land lo (Z.shiftl hi k) = 0).
  { apply Z.bits_inj'. intros n Hn.
    rewrite Z.land_spec, Z.bits_0.
    destruct (Z.lt_ge_cases n k) as [Hlt|Hge].
    - rewrite (Z.shiftl_spec_low hi k n Hlt). apply andb_false_r.
    - rewrite <- (Z.mod_small lo (2 ^ k)) by exact Hlo.
      rewrite Z.mod_pow2_bits_high by lia. reflexivity. }
  pose proof (Z.add_lor_land lo (Z.shiftl hi k)) as Hadd.
  rewrite Hland in Hadd. rewrite (Z.shiftl_mul_pow2 hi k Hk) in *. lia.
Qed.

(** [be_host32] reads its four bytes most significant first. *)
Lemma be_host32_bytes (b0 b1 b2 b3 : Z) :
  is_byte b0 -> is_byte b1 -> is_byte b2 -> is_byte b3 ->
  be_host32 [b0; b1; b2; b3] = b0 * 2 ^ 24 + b1 * 2 ^ 16 + b2 * 2 ^ 8 + b3.
Proof.
  unfold is_byte. intros H0 H1 H2 H3. unfold be_host32.
  change ([b0; b1; b2; b3] !!! 3%nat) with b3.
  change ([b0; b1; b2; b3] !!! 2%nat) with b2.
  change ([b0; b1; b2; b3] !!! 1%nat) with b1.
  change ([b0; b1; b2; b3] !!! 0%nat) with b0.
  rewrite Z.lor_0_l.
  rewrite (lor_shiftl_add b3 b2 8) by lia.
  rewrite (lor_shiftl_add _ b1 16) by lia.
  rewrite (lor_shiftl_add _ b0 24) by lia.
  rewrite uint32_t_small; lia.
Qed.

Lemma be_host32_range (buf : list Z) : 0 <= be_host32 buf < 2 ^ 32.
Proof. unfold be_host32, uint32_t. apply Z.mod_pos_bound. lia. Qed.

Lemma be_host32_be32_bytes (n : Z) :
  0 <= n < 2 ^ 32 -> be_host32 (be32_bytes n) = n.
Proof.
  intros Hn. unfold be32_bytes.
  rewrite be_host32_bytes;
    try (unfold is_byte; apply Z.mod_pos_bound; lia).
  change (2 ^ 24) with 16777216. change (2 ^ 16) with 65536.
  change (2 ^ 8) with 256. change (2 ^ 32) with 4294967296 in Hn.
  Z.div_mod_to_equations. lia.
Qed.

(** The three ways [png_fetch_next_chunk] goes, by the bytes left in the
    file and the declared length [len]. *)
Lemma png_fetch_next_chunk_cases (st : png_state) :
  state_ok st ->
  let len := be_host32 (bytes_at (ptr st) (index st) 4) in
  (index st + 8 > size st ->
     exists st', png_fetch_next_chunk st = (TruncatedInput, st') /\ state_ok st') /\
  (index st + 8 <= size st -> index st + 8 + len + 4 > size st ->
     png_fetch_next_chunk st = (TruncatedInput, set_index st (index st + 8))) /\
  (index st + 8 <= size st -> index st + 8 + len + 4 <= size st ->
     png_fetch_next_chunk st =
       (Fetched {| c_size := len;
                   c_type := bytes_at (ptr st) (index st + 4) 4;
                   c_data := index st + 8 |},
        set_index st (index st + 8 + uint32_t (len + 4)))).
Proof.
  intros Hok len.
  pose proof Hok as (Hsz & Hmax & Hlo & Hhi). unfold PTRDIFF_MAX in Hmax.
  assert (H4 : 0 <= 4 <= PTRDIFF_MAX) by (unfold PTRDIFF_MAX; lia).
  pose proof (be_host32_range (bytes_at (ptr st) (index st) 4)) as Hlen.
  fold len in Hlen. change (2 ^ 32) with 4294967296 in Hlen.
  change (2 ^ 63) with 9223372036854775808 in Hmax.
  assert (Hu : 0 <= uint32_t (len + 4) < 4294967296)
    by (unfold uint32_t; apply Z.mod_pos_bound; lia).
  unfold png_fetch_next_chunk, png_fetch32.
  destruct (Z_le_gt_dec (index st + 4) (size st)) as [Hle4|Hgt4].
  - rewrite (png_fetchN_ok st 4 Hok H4 Hle4). fold len.
    assert (Hok1 : state_ok (set_index st (index st + 4)))
      by (apply state_ok_set_index; [exact Hok|lia]).
    destruct (Z_le_gt_dec (index st + 8) (size st)) as [Hle8|Hgt8].
    + rewrite (png_fetchN_ok _ 4 Hok1 H4) by (simpl; lia).
      simpl index. simpl size. simpl ptr.
      replace (index st + 4 + 4) with (index st + 8) by lia.
      rewrite (size_t_small (index st + 8 + len)) by lia.
      rewrite (size_t_small (index st + 8 + len + 4)) by lia.
      rewrite (size_t_small (index st + 8 + uint32_t (len + 4))) by lia.
      split; [intros; lia|]. split; intros _ Hc.
      * destruct (Z.gtb_spec (index st + 8 + len + 4) (size st)); [|lia].
        reflexivity.
      * destruct (Z.gtb_spec (index st + 8 + len + 4) (size st)); [lia|].
        reflexivity.
    + rewrite (png_fetchN_fail _ 4 Hok1 H4) by (simpl; lia).
      split; [|split; intros; lia].
      intros _. eexists. split; [reflexivity|exact Hok1].
  - rewrite (png_fetchN_fail st 4 Hok H4 Hgt4).
    split; [|split; intros; lia].
    intros _. eexists. split; [reflexivity|exact Hok].
Qed.

Lemma huge_chunk_state_ok : state_ok huge_chunk_state.
Proof.
  unfold state_ok, huge_chunk_state, huge_chunk_file, PTRDIFF_MAX.
  cbn [ptr size index].
  rewrite !length_app, length_replicate.
  change (length png_magic) with 8%nat.
  change (length [255; 255; 255; 252; 73; 68; 65; 84]) with 8%nat.
  rewrite !Nat2Z.inj_add, Z2Nat.id by lia.
  change (2 ^ 32) with 4294967296. change (2 ^ 63) with 9223372036854775808.
  lia.
Qed.

(** C5 (defect).  In a file of 4 GiB + 16 bytes whose first chunk declares
    2^32 - 4 payload bytes, the bounds check passes and the chunk is
    returned, but the cursor stays at the first payload byte (16) instead
    of moving past payload and checksum (to 2^32 + 16): [out->size + 4] is
    added after wrapping to 32 bits. *)
Theorem png_fetch_next_chunk_length_wraps :
  state_ok huge_chunk_state /\
  png_fetch_next_chunk huge_chunk_state =
    (Fetched {| c_size := 2 ^ 32 - 4; c_type := tag_IDAT; c_data := 16 |},
     set_index huge_chunk_state 16) /\
  16 + (2 ^ 32 - 4) + 4 = size huge_chunk_state /\
  index (snd (png_fetch_next_chunk huge_chunk_state)) <> 16 + (2 ^ 32 - 4) + 4.
Proof.
  assert (Hlen : bytes_at (ptr huge_chunk_state) (index huge_chunk_state) 4
                 = [255; 255; 255; 252]) by reflexivity.
  assert (Hty : bytes_at (ptr huge_chunk_state) (index huge_chunk_state + 4) 4
                = tag_IDAT) by reflexivity.
  assert (Hbe : be_host32 [255; 255; 255; 252] = 2 ^ 32 - 4).
  { rewrite be_host32_bytes by (unfold is_byte; lia). reflexivity. }
  destruct (png_fetch_next_chunk_cases huge_chunk_state huge_chunk_state_ok)
    as (_ & _ & Hgo).
  rewrite Hlen, Hty, Hbe in Hgo.
  assert (Heq : png_fetch_next_chunk huge_chunk_state =
    (Fetched {| c_size := 2 ^ 32 - 4; c_type := tag_IDAT; c_data := 16 |},
     set_index huge_chunk_state 16)).
  { rewrite Hgo.
    - reflexivity.
    - cbn [index size huge_chunk_state]. change (2 ^ 32) with 4294967296. lia.
    - cbn [index size huge_chunk_state]. change (2 ^ 32) with 4294967296. lia. }
  split; [exact huge_chunk_state_ok|].
  split; [exact Heq|]. split.
  - reflexivity.
  - rewrite Heq. cbn [snd set_index index]. change (2 ^ 32) with 4294967296. lia.
Qed.

(** ** Gathering the IDAT payloads *)

Lemma bytes_at_app_at (pre bs rest : list Z) (p n : Z) :
  p = Z.of_nat (length pre) -> n = Z.of_nat (length bs) ->
  bytes_at (pre ++ bs ++ rest) p n = bs.
Proof. intros -> ->. apply bytes_at_app. Qed.

Lemma length_be32_bytes (n : Z) : length (be32_bytes n) = 4%nat.
Proof. reflexivity. Qed.

Lemma length_chunk_bytes (c : file_chunk) :
  chunk_ok c ->
  Z.of_nat (length (chunk_bytes c)) = 8 + Z.of_nat (length (fc_data c)) + 4.
Proof.
  intros (Hty & Hcrc & _). unfold chunk_bytes.
  rewrite !length_app, length_be32_bytes, Hty, Hcrc. lia.
Qed.

(** Fetching where a well-formed chunk lies yields that chunk as a view
    and leaves the cursor behind its checksum. *)
Lemma png_fetch_next_chunk_at (pre rest : list Z) (c : file_chunk) :
  let file := pre ++ chunk_bytes c ++ rest in
  chunk_ok c -> Z.of_nat (length file) <= PTRDIFF_MAX ->
  png_fetch_next_chunk
    {| ptr := file; size := Z.of_nat (length file); index := Z.of_nat (length pre) |}
  = (Fetched {| c_size := Z.of_nat (length (fc_data c));
                c_type := fc_type c;
                c_data := Z.of_nat (length pre) + 8 |},
     {| ptr := file; size := Z.of_nat (length file);
        index := Z.of_nat (length (pre ++ chunk_bytes c)) |}) /\
  bytes_at file (Z.of_nat (length pre) + 8) (Z.of_nat (length (fc_data c)))
  = fc_data c.
Proof.
  intros file Hc Hmax.
  pose proof (length_chunk_bytes c Hc) as Hcb.
  destruct Hc as (Hty & Hcrc & Hlen).
  assert (Hfile : Z.of_nat (length file) =
                  Z.of_nat (length pre) + Z.of_nat (length (chunk_bytes c))
                  + Z.of_nat (length rest)).
  { unfold file. rewrite !length_app. lia. }
  set (st := {| ptr := file; size := Z.of_nat (length file);
                index := Z.of_nat (length pre) |}).
  assert (Hok : state_ok st) by (unfold state_ok, st; simpl; lia).
  assert (Hsz : bytes_at file (Z.of_nat (length pre)) 4
                = be32_bytes (Z.of_nat (length (fc_data c)))).
  { unfold file, chunk_bytes. rewrite <- !app_assoc.
    apply bytes_at_app_at; reflexivity. }
  assert (Htag : bytes_at file (Z.of_nat (length pre) + 4) 4 = fc_type c).
  { unfold file, chunk_bytes. rewrite <- !app_assoc.
    rewrite (app_assoc pre (be32_bytes _)).
    apply bytes_at_app_at; [rewrite length_app, length_be32_bytes; lia | lia]. }
  assert (Hdata : bytes_at file (Z.of_nat (length pre) + 8)
                    (Z.of_nat (length (fc_data c))) = fc_data c).
  { unfold file, chunk_bytes. rewrite <- !app_assoc.
    rewrite (app_assoc pre (be32_bytes _)).
    rewrite (app_assoc (pre ++ be32_bytes _) (fc_type c)).
    apply bytes_at_app_at; [|reflexivity].
    rewrite !length_app, length_be32_bytes, Hty. lia. }
  split; [|exact Hdata].
  destruct (png_fetch_next_chunk_cases st Hok) as (_ & _ & Hgo).
  change (ptr st) with file in Hgo.
  change (index st) with (Z.of_nat (length pre)) in Hgo.
  change (size st) with (Z.of_nat (length file)) in Hgo.
  rewrite Hsz, Htag in Hgo.
  rewrite be_host32_be32_bytes in Hgo by lia.
  rewrite Hgo by lia.
  rewrite uint32_t_small by lia.
  f_equal. unfold set_index, st. cbn [ptr size index]. f_equal.
  rewrite length_app. lia.
Qed.

Lemma is_idat_strncmp (c : file_chunk) :
  length (fc_type c) = 4%nat ->
  (strncmp tag_IDAT (fc_type c) 4 =? 0) = is_idat c.
Proof.
  intros Hty. unfold is_idat.
  assert (Hp : Forall (fun b => b <> 0) tag_IDAT)
    by (unfold tag_IDAT; repeat constructor; lia).
  pose proof (strncmp_pattern_l tag_IDAT (fc_type c) Hp) as H.
  change (length tag_IDAT) with 4%nat in H.
  rewrite <- Hty in H at 2. rewrite firstn_all in H.
  destruct (Z.eqb_spec (strncmp tag_IDAT (fc_type c) 4) 0) as [E|E];
    symmetry.
  - apply bool_decide_eq_true. apply H. exact E.
  - apply bool_decide_eq_false. intros Heq. apply E, H. exact Heq.
Qed.

(** The loop of [png_decompress_idat] over a sequence of well-formed
    chunks appends the payloads of the IDAT chunks in file order. *)
Lemma gather_idat_chunks (cs : list file_chunk) :
  forall (pre acc : list Z) (fuel : nat),
  let file := pre ++ concat (map chunk_bytes cs) in
  Forall chunk_ok cs -> Z.of_nat (length file) <= PTRDIFF_MAX ->
  (length cs < fuel)%nat ->
  gather_idat fuel
    {| ptr := file; size := Z.of_nat (length file); index := Z.of_nat (length pre) |}
    acc
  = Some (acc ++ idat_payloads cs).
Proof.
  induction cs as [|c cs IH]; intros pre acc fuel file Hcs Hmax Hfuel.
  - destruct fuel as [|fuel]; [simpl in Hfuel; lia|].
    unfold file in *. simpl concat in *. rewrite app_nil_r in *.
    set (st := {| ptr := pre; size := Z.of_nat (length pre);
                  index := Z.of_nat (length pre) |}).
    assert (Hok : state_ok st) by (unfold state_ok, st; simpl; lia).
    destruct (png_fetch_next_chunk_cases st Hok) as (Hend & _).
    destruct Hend as (st' & Hst' & _); [unfold st; simpl; lia|].
    cbn [gather_idat]. rewrite Hst'.
    unfold idat_payloads. simpl. rewrite app_nil_r. reflexivity.
  - destruct fuel as [|fuel]; [simpl in Hfuel; lia|].
    apply Forall_cons in Hcs. destruct Hcs as [Hc Hcs].
    assert (Hfile : file = pre ++ chunk_bytes c ++ concat (map chunk_bytes cs))
      by reflexivity.
    assert (Hfile' : file = (pre ++ chunk_bytes c) ++ concat (map chunk_bytes cs))
      by (rewrite Hfile, app_assoc; reflexivity).
    cbn [gather_idat].
    destruct (png_fetch_next_chunk_at pre (concat (map chunk_bytes cs)) c Hc)
      as [Hfetch Hdata]; [rewrite <- Hfile; exact Hmax|].
    rewrite <- Hfile in Hfetch, Hdata. rewrite Hfetch.
    cbn [c_type]. rewrite (is_idat_strncmp c) by apply Hc.
    unfold chunk_payload. cbn [ptr c_data c_size]. rewrite Hdata.
    unfold idat_payloads. cbn [map List.filter].
    specialize (IH (pre ++ chunk_bytes c)).
    cbv zeta in IH. rewrite <- Hfile' in IH.
    destruct (is_idat c).
    + rewrite IH; [|exact Hcs|exact Hmax|simpl in Hfuel; lia].
      cbn [map concat]. rewrite app_assoc. reflexivity.
    + rewrite IH; [|exact Hcs|exact Hmax|simpl in Hfuel; lia].
      reflexivity.
Qed.

Lemma length_concat_chunk_bytes (cs : list file_chunk) :
  Forall chunk_ok cs ->
  12 * Z.of_nat (length cs) <= Z.of_nat (length (concat (map chunk_bytes cs))).
Proof.
  induction 1 as [|c cs Hc Hcs IH]; [simpl; lia|].
  cbn [map concat length]. rewrite length_app.
  pose proof (length_chunk_bytes c Hc). lia.
Qed.

(** A successful fetch keeps the state well formed and moves the cursor
    by at least the 8 bytes of length and tag. *)
Lemma png_fetch_next_chunk_progress (st st' : png_state) (c : png_chunk) :
  state_ok st -> png_fetch_next_chunk st = (Fetched c, st') ->
  state_ok st' /\ index st + 8 <= index st' /\ size st' = size st.
Proof.
  intros Hok Hf.
  pose proof Hok as (Hsz & Hmax & Hlo & Hhi).
  destruct (png_fetch_next_chunk_cases st Hok) as (H1 & H2 & H3).
  set (len := be_host32 (bytes_at (ptr st) (index st) 4)) in *.
  pose proof (be_host32_range (bytes_at (ptr st) (index st) 4)) as Hlen.
  fold len in Hlen.
  assert (Hu : 0 <= uint32_t (len + 4) <= len + 4).
  { unfold uint32_t. split; [apply Z.mod_pos_bound; lia|].
    apply Z.mod_le; lia. }
  destruct (Z_le_gt_dec (index st + 8) (size st)) as [Hle|Hgt].
  - destruct (Z_le_gt_dec (index st + 8 + len + 4) (size st)) as [Hle2|Hgt2].
    + rewrite (H3 Hle Hle2) in Hf. injection Hf as _ <-.
      split; [|simpl; lia]. apply state_ok_set_index; [exact Hok|lia].
    + rewrite (H2 Hle Hgt2) in Hf. discriminate Hf.
  - destruct (H1 Hgt) as (st1 & Hst1 & _). rewrite Hst1 in Hf. discriminate Hf.
Qed.

Lemma gather_idat_fuel (fuel : nat) :
  forall (st : png_state) (acc : list Z),
  state_ok st -> size st - index st < 8 * Z.of_nat fuel ->
  exists input, gather_idat fuel st acc = Some input.
Proof.
  induction fuel as [|fuel IH]; intros st acc Hok Hfuel.
  - destruct Hok as (_ & _ & _ & Hhi). lia.
  - cbn [gather_idat].
    destruct (png_fetch_next_chunk st) as [[c|] st'] eqn:Hf.
    + destruct (png_fetch_next_chunk_progress st st' c Hok Hf) as (Hok' & Hadv & Hsz).
      destruct (strncmp tag_IDAT (c_type c) 4 =? 0); apply IH; try exact Hok'; lia.
    + eexists; reflexivity.
Qed.

(** The gathering loop terminates on every well-formed state: the fuel
    [gather_fuel] always suffices. *)
Lemma gather_idat_terminates (st : png_state) :
  state_ok st -> exists input, gather_idat (gather_fuel st) st [] = Some input.
Proof.
  intros Hok. apply gather_idat_fuel; [exact Hok|].
  destruct Hok as (_ & _ & Hlo & Hhi). unfold gather_fuel.
  rewrite Nat2Z.inj_succ, Z2Nat.id by (apply Z.div_pos; lia).
  pose proof (Z.mul_succ_div_gt (size st) 8). lia.
Qed.

(** C7.  In a file that continues, from the cursor on, with a sequence of
    well-formed chunks, the loop of [png_decompress_idat] gathers exactly
    the payloads of the chunks tagged IDAT, concatenated in file order, and
    that buffer is what [uncompress] is given. *)
Theorem png_decompress_idat_order (uncompress : list Z -> Z -> Z * list Z)
    (pre : list Z) (cs : list file_chunk) (buf_size : Z) :
  let file := pre ++ concat (map chunk_bytes cs) in
  let st := {| ptr := file; size := Z.of_nat (length file);
               index := Z.of_nat (length pre) |} in
  Forall chunk_ok cs -> Z.of_nat (length file) <= PTRDIFF_MAX ->
  gather_idat (gather_fuel st) st [] = Some (idat_payloads cs) /\
  png_decompress_idat uncompress st buf_size =
    uncompress_status (uncompress (idat_payloads cs) buf_size) buf_size.
Proof.
  intros file st Hcs Hmax.
  assert (Hg : gather_idat (gather_fuel st) st [] = Some (idat_payloads cs)).
  { unfold st. rewrite (gather_idat_chunks cs pre [] _ Hcs Hmax); [reflexivity|].
    unfold gather_fuel. cbn [size]. fold file.
    pose proof (length_concat_chunk_bytes cs Hcs) as H12.
    assert (Hlen : 12 * Z.of_nat (length cs) <= Z.of_nat (length file))
      by (unfold file; rewrite length_app; lia).
    assert (Z.of_nat (length cs) <= Z.of_nat (length file) / 8).
    { apply Z.div_le_lower_bound; lia. }
    lia. }
  split; [exact Hg|].
  unfold png_decompress_idat. rewrite Hg. reflexivity.
Qed.

Lemma png_decompress_idat_order_witness :
  let cs := [ {| fc_type := tag_IDAT; fc_data := [65; 66]; fc_crc := [0; 0; 0; 0] |};
              {| fc_type := [116; 69; 88; 116]; fc_data := [120]; fc_crc := [1; 2; 3; 4] |};
              {| fc_type := tag_IDAT; fc_data := [67; 68]; fc_crc := [0; 0; 0; 0] |};
              {| fc_type := [73; 69; 78; 68]; fc_data := []; fc_crc := [174; 66; 96; 130] |} ] in
  let file := png_magic ++ concat (map chunk_bytes cs) in
  let st := {| ptr := file; size := Z.of_nat (length file); index := 8 |} in
  (Forall chunk_ok cs /\ Z.of_nat (length file) <= PTRDIFF_MAX) /\
  gather_idat (gather_fuel st) st [] = Some [65; 66; 67; 68].
Proof.
  intros cs file st.
  assert (Hcs : Forall chunk_ok cs).
  { unfold cs, chunk_ok, tag_IDAT.
    repeat (apply Forall_cons; split); try (apply Forall_nil; exact I);
      cbn [fc_type fc_data fc_crc length]; repeat split; lia. }
  assert (Hmax : Z.of_nat (length file) <= PTRDIFF_MAX)
    by (unfold PTRDIFF_MAX; cbn; lia).
  split; [split; assumption|].
  exact (proj1 (png_decompress_idat_order (fun input _ => (Z_OK, input))
                  png_magic cs 0 Hcs Hmax)).
Defined.

(** ** The header *)

Lemma land_single_bit (a k : Z) :
  0 <= k -> Z.land a (2 ^ k) = if Z.testbit a k then 2 ^ k else 0.
Proof.
  intros Hk. apply Z.bits_inj'. intros n Hn.
  rewrite Z.land_spec, Z.pow2_bits_eqb by exact Hk.
  destruct (Z.eqb_spec k n) as [->|Hne].
  - destruct (Z.testbit a n); [|rewrite Z.bits_0; reflexivity].
    rewrite Z.pow2_bits_true by exact Hn. reflexivity.
  - rewrite andb_false_r.
    destruct (Z.testbit a k); [|rewrite Z.bits_0; reflexivity].
    rewrite Z.pow2_bits_false by lia. reflexivity.
Qed.

Lemma is_truecolor_bit (h : ihdr) :
  (is_truecolor h =? 0) = negb (Z.testbit (color_type h) 1).
Proof.
  unfold is_truecolor.
  change (Z.land (color_type h) 2) with (Z.land (color_type h) (2 ^ 1)).
  rewrite (land_single_bit (color_type h) 1) by lia.
  destruct (Z.testbit (color_type h) 1); reflexivity.
Qed.

Lemma has_palette_bit (h : ihdr) :
  (has_palette h =? 0) = negb (Z.testbit (color_type h) 0).
Proof.
  unfold has_palette.
  change (Z.land (color_type h) 1) with (Z.land (color_type h) (2 ^ 0)).
  rewrite (land_single_bit (color_type h) 0) by lia.
  destruct (Z.testbit (color_type h) 0); reflexivity.
Qed.

(** What [check_ihdr] decides, bit by bit. *)
Lemma check_ihdr_cases (h : ihdr) :
  check_ihdr h =
    if Z.testbit (color_type h) 1 && negb (Z.testbit (color_type h) 0)
       && (filter h =? 0) && (interlace h =? 0)
    then inr (pixel_size h) else inl UnsupportedFeature.
Proof.
  unfold check_ihdr. rewrite is_truecolor_bit, has_palette_bit.
  destruct (Z.testbit (color_type h) 1), (Z.testbit (color_type h) 0),
    (filter h =? 0), (interlace h =? 0); reflexivity.
Qed.

(** Once the header is read, [main] ends by what [check_ihdr] says, and
    only an accepted header lets it reach [png_decompress_idat]. *)
Lemma png_main_after_header (uncompress : list Z -> Z -> Z * list Z)
    (file : list Z) (h : ihdr) (st : png_state) :
  reads_header file h st ->
  png_main uncompress file =
    match check_ihdr h with
    | inl e => Failed e
    | inr pixel_size =>
        match png_decompress_idat uncompress st (raw_size_of h pixel_size) with
        | inl e => Failed e
        | inr raw_data => Written (write_ppm (width h) (height h) pixel_size raw_data)
        end
    end.
Proof.
  intros (st1 & c & Hcheck & Hfetch & Htag & Hsize & Hh).
  unfold png_main. rewrite Hcheck. cbn [negb Z.eqb].
  rewrite Hfetch, Htag, Hsize. cbn [negb Z.eqb Pos.eqb]. rewrite Hh.
  reflexivity.
Qed.

Lemma uncompress_status_error (r : Z * list Z) (buf_size : Z) (e : png_error) :
  uncompress_status r buf_size = inl e ->
  e = OutOfMemory \/ e = OutputBufferTooSmall \/ e = CorruptData \/
  e = CodecAssertion.
Proof.
  unfold uncompress_status. destruct r as [status out_data].
  repeat match goal with
         | |- context [if ?b then _ else _] => destruct b
         end; intros H; inversion H; tauto.
Qed.

Lemma png_decompress_idat_error (uncompress : list Z -> Z -> Z * list Z)
    (st : png_state) (buf_size : Z) (e : png_error) :
  png_decompress_idat uncompress st buf_size = inl e ->
  e = OutOfMemory \/ e = OutputBufferTooSmall \/ e = CorruptData \/
  e = CodecAssertion \/ e = LoopFuelExhausted.
Proof.
  unfold png_decompress_idat.
  destruct (gather_idat _ _ _) as [input|].
  - intros H. apply uncompress_status_error in H. tauto.
  - intros [= <-]. tauto.
Qed.

(** C2 (amended).  When [main] has read the header, validation fails with
    [UnsupportedFeature] exactly when the truecolor bit of the colour type
    is clear, its palette bit is set, the filter method is not 0 or the
    interlace method is not 0, and then [main] ends so whatever the codec
    would do, that is before the IDAT chunks are looked at.  The bit depth
    takes no part in the verdict: otherwise the header is accepted, with
    the pixel size 3 or 4 times [bit_depth / 8], and [main] goes on without
    this error. *)
Theorem check_ihdr_unsupported (uncompress : list Z -> Z -> Z * list Z)
    (file : list Z) (h : ihdr) (st : png_state) :
  reads_header file h st ->
  let unsupported :=
    Z.testbit (color_type h) 1 = false \/ Z.testbit (color_type h) 0 = true \/
    filter h <> 0 \/ interlace h <> 0 in
  (unsupported ->
     check_ihdr h = inl UnsupportedFeature /\
     png_main uncompress file = Failed UnsupportedFeature) /\
  (~ unsupported ->
     check_ihdr h = inr (pixel_size h) /\
     pixel_size h =
       size_t ((if Z.testbit (color_type h) 2 then 4 else 3)
               * Z.quot (bit_depth h) 8) /\
     png_main uncompress file <> Failed UnsupportedFeature).
Proof.
  intros Hread unsupported.
  rewrite (png_main_after_header uncompress file h st Hread).
  rewrite check_ihdr_cases.
  set (ok := Z.testbit (color_type h) 1 && negb (Z.testbit (color_type h) 0)
             && (filter h =? 0) && (interlace h =? 0)).
  assert (Hok : ok = false <-> unsupported).
  { subst ok unsupported.
    destruct (Z.testbit (color_type h) 1), (Z.testbit (color_type h) 0),
      (Z.eqb_spec (filter h) 0), (Z.eqb_spec (interlace h) 0);
      cbn [andb negb]; split; intros H; try reflexivity; try discriminate H;
      try tauto.
    destruct H as [H | [H | [H | H]]]; try discriminate H; contradiction. }
  destruct ok.
  - split; [intros Hu; apply Hok in Hu; discriminate Hu|]. intros _.
    split; [reflexivity|]. split.
    + unfold pixel_size, has_alpha.
      change (Z.land (color_type h) 4) with (Z.land (color_type h) (2 ^ 2)).
      rewrite (land_single_bit (color_type h) 2) by lia.
      destruct (Z.testbit (color_type h) 2); reflexivity.
    + destruct (png_decompress_idat uncompress st _) as [e|raw] eqn:Hd;
        [|discriminate].
      intros [= ->].
      destruct (png_decompress_idat_error _ _ _ _ Hd)
        as [H1 | [H1 | [H1 | [H1 | H1]]]]; discriminate H1.
  - split; [intros _; split; reflexivity|].
    intros Hn. exfalso. apply Hn, Hok. reflexivity.
Qed.

Lemma palette_file_header :
  reads_header palette_file (mk_ihdr 1 1 8 3 0 0 0) (after_header palette_file).
Proof.
  unfold reads_header. eexists _, _.
  split; [vm_compute; reflexivity|].
  split; [vm_compute; reflexivity|].
  repeat split; vm_compute; reflexivity.
Qed.

Lemma check_ihdr_unsupported_witness :
  reads_header palette_file (mk_ihdr 1 1 8 3 0 0 0) (after_header palette_file) /\
  png_main (fun input _ => (Z_OK, input)) palette_file = Failed UnsupportedFeature.
Proof.
  split; [exact palette_file_header|].
  apply (check_ihdr_unsupported (fun input _ => (Z_OK, input)) palette_file
           (mk_ihdr 1 1 8 3 0 0 0) (after_header palette_file) palette_file_header).
  right. left. reflexivity.
Defined.

Lemma depth4_file_header :
  reads_header depth4_file (mk_ihdr 1 1 4 2 0 0 0) (after_header depth4_file).
Proof.
  unfold reads_header. eexists _, _.
  split; [vm_compute; reflexivity|].
  split; [vm_compute; reflexivity|].
  repeat split; vm_compute; reflexivity.
Qed.

(** C2 (counterexample).  A truecolor header that declares bit depth 4
    passes validation with pixel size 0, and [main] goes on to the IDAT
    chunks: the codec is run on the gathered payload with an output
    buffer of [raw_size] = 1 byte, and its verdict decides how [main] ends. *)
Lemma check_ihdr_accepts_bit_depth_4 :
  let h := mk_ihdr 1 1 4 2 0 0 0 in
  bit_depth h <> 8 /\
  reads_header depth4_file h (after_header depth4_file) /\
  check_ihdr h = inr 0 /\
  forall uncompress : list Z -> Z -> Z * list Z,
    png_main uncompress depth4_file =
      match uncompress_status (uncompress zlib_one_zero 1) 1 with
      | inl e => Failed e
      | inr raw_data => Written (write_ppm 1 1 0 raw_data)
      end.
Proof.
  intros h.
  split; [cbn; lia|]. split; [exact depth4_file_header|].
  split; [reflexivity|].
  intros uncompress.
  rewrite (png_main_after_header uncompress depth4_file h
             (after_header depth4_file) depth4_file_header).
  change (check_ihdr h) with (@inr png_error Z 0).
  change (raw_size_of h 0) with 1.
  unfold png_decompress_idat.
  assert (Hg : gather_idat (gather_fuel (after_header depth4_file))
                 (after_header depth4_file) [] = Some zlib_one_zero)
    by (vm_compute; reflexivity).
  rewrite Hg. reflexivity.
Qed.

(** C10.  When [main] has read the header, the colour type is accepted
    only with its truecolor bit (0b010) set and its palette bit (0b001)
    clear; a colour type with the truecolor bit clear, grayscale with or
    without alpha, is rejected with [UnsupportedFeature] whatever the bit
    depth and whatever the codec would do. *)
Theorem check_ihdr_color_type (uncompress : list Z -> Z -> Z * list Z)
    (file : list Z) (h : ihdr) (st : png_state) :
  reads_header file h st ->
  (forall pixel_size, check_ihdr h = inr pixel_size ->
     Z.testbit (color_type h) 1 = true /\ Z.testbit (color_type h) 0 = false) /\
  (Z.testbit (color_type h) 1 = false ->
     check_ihdr h = inl UnsupportedFeature /\
     png_main uncompress file = Failed UnsupportedFeature).
Proof.
  intros Hread. split.
  - intros ps. rewrite check_ihdr_cases.
    destruct (Z.testbit (color_type h) 1), (Z.testbit (color_type h) 0);
      cbn [andb negb]; intros H; try discriminate H. split; reflexivity.
  - intros Hgray.
    assert (Hfail : check_ihdr h = inl UnsupportedFeature)
      by (rewrite check_ihdr_cases, Hgray; reflexivity).
    split; [exact Hfail|].
    rewrite (png_main_after_header uncompress file h st Hread), Hfail.
    reflexivity.
Qed.

Lemma gray_alpha_file_header :
  reads_header gray_alpha_file (mk_ihdr 1 1 8 4 0 0 0) (after_header gray_alpha_file).
Proof.
  unfold reads_header. eexists _, _.
  split; [vm_compute; reflexivity|].
  split; [vm_compute; reflexivity|].
  repeat split; vm_compute; reflexivity.
Qed.

Lemma check_ihdr_color_type_witness :
  reads_header gray_alpha_file (mk_ihdr 1 1 8 4 0 0 0) (after_header gray_alpha_file) /\
  bit_depth (mk_ihdr 1 1 8 4 0 0 0) = 8 /\
  png_main (fun input _ => (Z_OK, input)) gray_alpha_file = Failed UnsupportedFeature.
Proof.
  split; [exact gray_alpha_file_header|]. split; [reflexivity|].
  apply (check_ihdr_color_type (fun input _ => (Z_OK, input)) gray_alpha_file
           (mk_ihdr 1 1 8 4 0 0 0) (after_header gray_alpha_file)
           gray_alpha_file_header).
  reflexivity.
Defined.

(** ** The reconstruction filters *)

Lemma png_abs_abs (x : Z) : png_abs x = Z.abs x.
Proof. unfold png_abs. destruct (Z.ltb_spec x 0); lia. Qed.

(** The three-way test of [png_paeth_filter] picks the neighbour the
    specification names. *)
Lemma paeth_branches (d a b c : Z) :
  (let p := a + b - c in
   let pa := png_abs (p - a) in
   let pb := png_abs (p - b) in
   let pc := png_abs (p - c) in
   if (pa <=? pb) && (pa <=? pc) then uint8_t (d + a)
   else if pb <=? pc then uint8_t (d + b)
   else uint8_t (d + c))
  = (d + paeth_choice a b c) mod 256.
Proof.
  cbv zeta. rewrite !png_abs_abs. unfold paeth_choice, uint8_t.
  destruct (Z.leb_spec (Z.abs (a + b - c - a)) (Z.abs (a + b - c - b)));
    destruct (Z.leb_spec (Z.abs (a + b - c - a)) (Z.abs (a + b - c - c)));
    destruct (Z.leb_spec (Z.abs (a + b - c - b)) (Z.abs (a + b - c - c)));
    cbn [andb]; repeat case_decide; try reflexivity; lia.
Qed.

Section Addressing.

Variables (pixel_size x i : Z).
Hypothesis Hps : 0 <= pixel_size.
Hypothesis Hx : 0 <= x.
Hypothesis Hi : 0 <= i.
Hypothesis Hfit : x * pixel_size + i < 2 ^ 64.

Lemma index_here : size_t (size_t (pixel_size * x) + i) = x * pixel_size + i.
Proof.
  assert (0 <= pixel_size * x) by (apply Z.mul_nonneg_nonneg; assumption).
  rewrite (size_t_small (pixel_size * x)) by lia.
  rewrite size_t_small by lia. lia.
Qed.

Lemma index_here_main : size_t (size_t (x * pixel_size) + i) = x * pixel_size + i.
Proof.
  assert (0 <= x * pixel_size) by (apply Z.mul_nonneg_nonneg; assumption).
  rewrite (size_t_small (x * pixel_size)) by lia.
  apply size_t_small. lia.
Qed.

Lemma index_left :
  x <> 0 ->
  size_t (size_t (pixel_size * size_t (x - 1)) + i) = (x - 1) * pixel_size + i.
Proof.
  intros Hx0.
  assert (0 <= pixel_size * (x - 1)) by (apply Z.mul_nonneg_nonneg; lia).
  assert (pixel_size * (x - 1) <= x * pixel_size) by nia.
  assert (x < 2 ^ 64 \/ pixel_size = 0) by nia.
  destruct (Z.eq_dec pixel_size 0) as [->|Hne].
  - rewrite Z.mul_0_l, Z.mul_0_r. rewrite (size_t_small 0) by lia.
    apply size_t_small. lia.
  - rewrite (size_t_small (x - 1)) by lia.
    rewrite (size_t_small (pixel_size * (x - 1))) by lia.
    rewrite size_t_small by lia. lia.
Qed.

(** The [switch] computes the reconstruction of the specification from
    the bytes it reads. *)
Lemma switch_filter_value (m : list Z) (filter_method line : Z)
    (prev_line : option Z) :
  Forall is_byte m ->
  fst (switch_filter m filter_method line prev_line pixel_size x i) =
    reconstruct filter_method
      (load m (line + (x * pixel_size + i)))
      (nb_left m line pixel_size x i)
      (nb_up m prev_line pixel_size x i)
      (nb_upleft m prev_line pixel_size x i).
Proof.
  intros Hm.
  pose proof (load_is_byte m (line + (x * pixel_size + i)) Hm) as Hraw.
  unfold is_byte in Hraw.
  unfold switch_filter, reconstruct, predictor.
  destruct (Z.eqb_spec filter_method 0) as [->|H0].
  { cbn [fst]. rewrite index_here_main. reflexivity. }
  destruct (Z.eqb_spec filter_method 1) as [->|H1].
  { cbn [fst andb Z.leb Z.compare Pos.compare].
    unfold png_sub_filter, nb_left. rewrite index_here.
    destruct (Z.eqb_spec x 0) as [Hx0|Hx0].
    - rewrite Z.add_0_r, Z.mod_small by lia. reflexivity.
    - rewrite index_left by exact Hx0. reflexivity. }
  destruct (Z.eqb_spec filter_method 2) as [->|H2].
  { cbn [fst andb Z.leb Z.compare Pos.compare].
    unfold png_up_filter, nb_up. rewrite index_here.
    destruct prev_line as [prev|]; [reflexivity|].
    rewrite Z.add_0_r, Z.mod_small by lia. reflexivity. }
  destruct (Z.eqb_spec filter_method 3) as [->|H3].
  { cbn [fst andb Z.leb Z.compare Pos.compare].
    unfold png_avg_filter, nb_left, nb_up. cbv zeta. rewrite index_here.
    assert (Hl : is_byte (if x =? 0 then 0
              else load m (line + size_t (size_t (pixel_size * size_t (x - 1)) + i)))).
    { destruct (x =? 0); [unfold is_byte; lia|apply load_is_byte, Hm]. }
    assert (Ht : is_byte (match prev_line with
              | None => 0
              | Some prev => load m (prev + (x * pixel_size + i)) end)).
    { destruct prev_line; [apply load_is_byte, Hm|unfold is_byte; lia]. }
    unfold is_byte in Hl, Ht.
    rewrite Z.quot_div_nonneg by lia. unfold uint8_t.
    destruct (Z.eqb_spec x 0) as [Hx0|Hx0].
    - f_equal. lia.
    - rewrite index_left by exact Hx0. f_equal. lia. }
  destruct (Z.eqb_spec filter_method 4) as [->|H4].
  { cbn [fst andb Z.leb Z.compare Pos.compare].
    unfold png_paeth_filter. rewrite paeth_branches, index_here.
    unfold nb_left, nb_up, nb_upleft.
    destruct (Z.eqb_spec x 0) as [Hx0|Hx0].
    - destruct prev_line; reflexivity.
    - rewrite index_left by exact Hx0. destruct prev_line; reflexivity. }
  cbn [fst].
  destruct (Z.leb_spec 1 filter_method), (Z.leb_spec filter_method 4);
    cbn [andb]; try reflexivity; lia.
Qed.

End Addressing.

(** ** Loops that rewrite a buffer segment by segment *)

Lemma lo_chain (lo : Z -> Z) (n : nat) :
  forall k0,
  (forall k, k0 <= k < k0 + Z.of_nat n -> lo k <= lo (k + 1)) ->
  lo k0 <= lo (k0 + Z.of_nat n).
Proof.
  induction n as [|n IH]; intros k0 Hmono.
  - rewrite Z.add_0_r. lia.
  - replace (k0 + Z.of_nat (S n)) with (k0 + 1 + Z.of_nat n) by lia.
    transitivity (lo (k0 + 1)).
    + apply Hmono. lia.
    + apply IH. intros k Hk. apply Hmono. lia.
Qed.

(** A loop whose iteration [k] rewrites the segment [lo k, lo (k+1))
    rewrites the union of the segments, and every iteration's relation
    holds between the buffer before the loop and the buffer after it. *)
Lemma for_loop_segments (N : Z) (body : Z -> out_state -> out_state)
    (lo : Z -> Z) (Q : Z -> list Z -> list Z -> Prop) (n : nat) :
  forall (k0 : Z) (s : out_state),
  0 <= lo k0 ->
  (forall k, k0 <= k < k0 + Z.of_nat n -> lo k <= lo (k + 1)) ->
  (forall k s, k0 <= k < k0 + Z.of_nat n ->
     segment_spec N (lo k) (lo (k + 1)) (Q k) (mem s) (mem (body k s))) ->
  (forall k, k0 <= k < k0 + Z.of_nat n -> stable (lo k) (lo (k + 1)) (Q k)) ->
  segment_spec N (lo k0) (lo (k0 + Z.of_nat n))
    (fun m m' => forall k, k0 <= k < k0 + Z.of_nat n -> Q k m m')
    (mem s) (mem (for_loop n k0 body s)).
Proof.
  induction n as [|n IH]; intros k0 s Hlo Hmono Hbody Hstab Hm HN.
  - cbn [for_loop]. repeat split; try assumption. intros k Hk. lia.
  - cbn [for_loop].
    assert (Hstep : lo k0 <= lo (k0 + 1)) by (apply Hmono; lia).
    assert (Hrest : lo (k0 + 1) <= lo (k0 + 1 + Z.of_nat n)).
    { apply lo_chain. intros k Hk. apply Hmono. lia. }
    destruct (Hbody k0 s ltac:(lia) Hm HN) as (Hlen1 & Hb1 & Hfr1 & HQ1).
    destruct (IH (k0 + 1) (body k0 s)) as (Hlen2 & Hb2 & Hfr2 & HQ2).
    { lia. }
    { intros k Hk. apply Hmono. lia. }
    { intros k s' Hk. apply Hbody. lia. }
    { intros k Hk. apply Hstab. lia. }
    { exact Hb1. }
    { rewrite Hlen1. exact HN. }
    replace (k0 + Z.of_nat (S n)) with (k0 + 1 + Z.of_nat n) by lia.
    split; [congruence|]. split; [exact Hb2|]. split.
    + intros q Hq Hout. rewrite Hfr2 by lia. apply Hfr1; lia.
    + intros k Hk. destruct (Z.eq_dec k k0) as [->|Hne].
      * apply (Hstab k0 ltac:(lia) _ _ _ _ HQ1).
        -- reflexivity.
        -- intros q Hq. apply Hfr2; lia.
      * assert (Hk' : k0 + 1 <= k < k0 + 1 + Z.of_nat n) by lia.
        assert (Hlok : lo (k0 + 1) <= lo k).
        { replace k with (k0 + 1 + Z.of_nat (Z.to_nat (k - (k0 + 1)))) by lia.
          apply lo_chain. intros j Hj. apply Hmono. lia. }
        apply (Hstab k ltac:(lia) _ _ _ _ (HQ2 k Hk')).
        -- intros q Hq. symmetry. apply Hfr1; lia.
        -- reflexivity.
Qed.

Lemma segment_spec_weaken (N lo hi lo' hi' : Z) (Q Q' : list Z -> list Z -> Prop)
    (m m' : list Z) :
  lo' <= lo -> hi <= hi' ->
  (forall m m', Q m m' -> Q' m m') ->
  segment_spec N lo hi Q m m' -> segment_spec N lo' hi' Q' m m'.
Proof.
  intros Hlo Hhi HQ H Hm HN.
  destruct (H Hm HN) as (Hlen & Hb & Hfr & Hq).
  repeat split; try assumption.
  - intros q Hq0 Hout. apply Hfr; lia.
  - apply HQ, Hq.
Qed.

Lemma stable_weaken (lo hi lo' hi' : Z) (Q : list Z -> list Z -> Prop) :
  lo' <= lo -> hi <= hi' -> stable lo hi Q -> stable lo' hi' Q.
Proof.
  intros Hlo Hhi H m1 m1' m2 m2' HQ Hfrom Hbelow.
  apply (H m1 m1' m2 m2' HQ).
  - intros q Hq. apply Hfrom. lia.
  - intros q Hq. apply Hbelow. lia.
Qed.

Lemma reconstruct_is_byte (t raw a b c : Z) :
  is_byte raw -> is_byte (reconstruct t raw a b c).
Proof.
  intros Hraw. unfold reconstruct.
  destruct (t =? 0); [exact Hraw|].
  destruct ((1 <=? t) && (t <=? 4)).
  - unfold is_byte. apply Z.mod_pos_bound. lia.
  - unfold is_byte. lia.
Qed.

Lemma mem_byte_step (filter_method line : Z) (prev_line : option Z)
    (pixel_size x i : Z) (s : out_state) :
  mem (byte_step filter_method line prev_line pixel_size x i s) =
    store (mem s) (line + size_t (size_t (x * pixel_size) + i))
      (fst (switch_filter (mem s) filter_method line prev_line pixel_size x i)).
Proof.
  unfold byte_step.
  destruct (switch_filter (mem s) filter_method line prev_line pixel_size x i).
  reflexivity.
Qed.

(** ** One row *)

Section Row.

Variables (N filter_method line : Z) (prev_line : option Z).
Variables (width pixel_size : Z).
Hypothesis Hw : 0 <= width.
Hypothesis Hps : 0 <= pixel_size.
Hypothesis Hline : 0 <= line.
Hypothesis Hprev : forall prev, prev_line = Some prev -> 0 <= prev < line.
Hypothesis Hend : line + width * pixel_size <= N.
Hypothesis Hfit : N < 2 ^ 64.

Lemma in_row (x i : Z) :
  0 <= x < width -> 0 <= i < pixel_size ->
  0 <= x * pixel_size /\ x * pixel_size + i < width * pixel_size /\
  0 < pixel_size.
Proof. intros Hx Hi. nia. Qed.

Lemma byte_rel_stable (x i : Z) :
  0 <= x < width -> 0 <= i < pixel_size ->
  stable (line + (x * pixel_size + i)) (line + (x * pixel_size + (i + 1)))
    (byte_rel filter_method line prev_line pixel_size x i).
Proof.
  intros Hx Hi. destruct (in_row x i Hx Hi) as (Hxp & Hlt & Hpos).
  intros m1 m1' m2 m2' HQ Hfrom Hbelow. unfold byte_rel in *.
  rewrite (Hfrom (line + (x * pixel_size + i))) by lia.
  rewrite (Hbelow (line + (x * pixel_size + i))) by lia.
  rewrite HQ. f_equal.
  - unfold nb_left. destruct (Z.eqb_spec x 0); [reflexivity|].
    symmetry. apply Hbelow. nia.
  - unfold nb_up. destruct prev_line as [prev|]; [|reflexivity].
    specialize (Hprev prev eq_refl). symmetry. apply Hbelow. lia.
  - unfold nb_upleft. destruct prev_line as [prev|]; [|reflexivity].
    specialize (Hprev prev eq_refl).
    destruct (Z.eqb_spec x 0); [reflexivity|].
    symmetry. apply Hbelow. nia.
Qed.

(** The body of the loop on [i]. *)
Lemma byte_step_spec (x i : Z) (s : out_state) :
  0 <= x < width -> 0 <= i < pixel_size ->
  segment_spec N (line + (x * pixel_size + i)) (line + (x * pixel_size + (i + 1)))
    (byte_rel filter_method line prev_line pixel_size x i)
    (mem s) (mem (byte_step filter_method line prev_line pixel_size x i s)).
Proof.
  intros Hx Hi Hm HN. destruct (in_row x i Hx Hi) as (Hxp & Hlt & Hpos).
  assert (Hfit' : x * pixel_size + i < 2 ^ 64) by lia.
  rewrite mem_byte_step.
  rewrite (index_here_main pixel_size x i) by lia.
  rewrite (switch_filter_value pixel_size x i) by (try lia; exact Hm).
  set (P := line + (x * pixel_size + i)).
  set (v := reconstruct _ _ _ _ _).
  assert (Hv : is_byte v) by (apply reconstruct_is_byte, load_is_byte, Hm).
  split; [apply length_store|].
  split; [apply store_is_byte; assumption|].
  split.
  - intros q Hq Hout. apply load_store_ne; unfold P; lia.
  - unfold byte_rel. fold P. rewrite load_store_eq by (unfold P; lia).
    unfold v. f_equal.
    + unfold nb_left. destruct (Z.eqb_spec x 0); [reflexivity|].
      symmetry. apply load_store_ne; unfold P; nia.
    + unfold nb_up. destruct prev_line as [prev|]; [|reflexivity].
      specialize (Hprev prev eq_refl).
      symmetry. apply load_store_ne; unfold P; lia.
    + unfold nb_upleft. destruct prev_line as [prev|]; [|reflexivity].
      specialize (Hprev prev eq_refl).
      destruct (Z.eqb_spec x 0); [reflexivity|].
      symmetry. apply load_store_ne; unfold P; nia.
Qed.

(** The loop on [i]: one pixel. *)
Lemma pixel_loop_spec (x : Z) (s : out_state) :
  0 <= x < width ->
  segment_spec N (line + x * pixel_size) (line + (x + 1) * pixel_size)
    (fun m m' => forall i, 0 <= i < pixel_size ->
       byte_rel filter_method line prev_line pixel_size x i m m')
    (mem s)
    (mem (for_range pixel_size
            (byte_step filter_method line prev_line pixel_size x) s)).
Proof.
  intros Hx. unfold for_range.
  assert (Hxp : 0 <= x * pixel_size) by nia.
  eapply segment_spec_weaken;
    [| | | apply (for_loop_segments N
           (byte_step filter_method line prev_line pixel_size x)
           (fun i => line + (x * pixel_size + i))
           (byte_rel filter_method line prev_line pixel_size x)
           (Z.to_nat pixel_size) 0 s)].
  - lia.
  - rewrite Z2Nat.id by lia. lia.
  - intros m m' H i Hi. apply H. lia.
  - lia.
  - intros k Hk. lia.
  - intros k s' Hk. apply byte_step_spec; lia.
  - intros k Hk. apply byte_rel_stable; lia.
Qed.

Lemma pixel_rel_stable (x : Z) :
  0 <= x < width ->
  stable (line + x * pixel_size) (line + (x + 1) * pixel_size)
    (fun m m' => forall i, 0 <= i < pixel_size ->
       byte_rel filter_method line prev_line pixel_size x i m m').
Proof.
  intros Hx m1 m1' m2 m2' HQ Hfrom Hbelow i Hi.
  apply (byte_rel_stable x i Hx Hi m1 m1' m2 m2' (HQ i Hi)).
  - intros q Hq. apply Hfrom. lia.
  - intros q Hq. apply Hbelow. lia.
Qed.

(** The loops on [x] and [i]: the pixels of one row. *)
Lemma row_loop_spec (s : out_state) :
  segment_spec N line (line + width * pixel_size)
    (fun m m' => forall x i, 0 <= x < width -> 0 <= i < pixel_size ->
       byte_rel filter_method line prev_line pixel_size x i m m')
    (mem s)
    (mem (for_range width (fun x =>
            for_range pixel_size
              (byte_step filter_method line prev_line pixel_size x)) s)).
Proof.
  unfold for_range at 1.
  eapply segment_spec_weaken;
    [| | | apply (for_loop_segments N
           (fun x => for_range pixel_size
              (byte_step filter_method line prev_line pixel_size x))
           (fun x => line + x * pixel_size)
           (fun x m m' => forall i, 0 <= i < pixel_size ->
              byte_rel filter_method line prev_line pixel_size x i m m')
           (Z.to_nat width) 0 s)].
  - lia.
  - rewrite Z2Nat.id by lia. lia.
  - intros m m' H x i Hx Hi. apply H; lia.
  - lia.
  - intros k Hk. nia.
  - intros k s' Hk. apply pixel_loop_spec. lia.
  - intros k Hk. apply pixel_rel_stable. lia.
Qed.

End Row.

(** ** The image *)

Section Image.

Variables (width pixel_size height : Z).
Hypothesis Hw : 0 <= width.
Hypothesis Hps : 0 <= pixel_size.
Hypothesis Hh : 0 <= height.
Hypothesis Hfit : height * stride width pixel_size <= PTRDIFF_MAX.

Lemma row_bounds (y : Z) :
  0 <= y < height ->
  0 <= width * pixel_size /\
  0 <= row_start width pixel_size y /\
  row_start width pixel_size (y + 1) =
    row_start width pixel_size y + 1 + width * pixel_size /\
  row_start width pixel_size (y + 1) <= (height * stride width pixel_size) /\
  (y <> 0 -> row_start width pixel_size (y - 1) + 1 + width * pixel_size
             = row_start width pixel_size y /\
             0 <= row_start width pixel_size (y - 1)) /\
  (height * stride width pixel_size) < 2 ^ 64.
Proof.
  intros Hy. unfold row_start, stride, PTRDIFF_MAX in *.
  change (2 ^ 63) with 9223372036854775808 in Hfit.
  change (2 ^ 64) with 18446744073709551616.
  assert (0 <= width * pixel_size) by nia.
  repeat split; try nia.
Qed.

Lemma pix_bounds (y x i : Z) :
  0 <= y < height -> 0 <= x < width -> 0 <= i < pixel_size ->
  row_start width pixel_size y < pix width pixel_size y x i
    < row_start width pixel_size (y + 1) /\
  0 <= x * pixel_size + i < width * pixel_size.
Proof.
  intros Hy Hx Hi.
  destruct (row_bounds y Hy) as (Hwp & Hrs & Hnext & _).
  destruct (in_row width pixel_size Hps x i Hx Hi) as (Hxp & Hlt & _).
  unfold pix. lia.
Qed.

Lemma row_rel_stable (y : Z) :
  0 <= y < height ->
  stable (row_start width pixel_size y) (row_start width pixel_size (y + 1))
    (row_rel width pixel_size y).
Proof.
  intros Hy m1 m1' m2 m2' [Hfm HQ] Hfrom Hbelow.
  destruct (row_bounds y Hy) as (Hwp & Hrs & Hnext & Hle & Hprev & _).
  split.
  - rewrite Hfrom, Hbelow by lia. exact Hfm.
  - intros x i Hx Hi.
    destruct (pix_bounds y x i Hy Hx Hi) as (Hpix & Hk).
    rewrite (Hfrom (row_start width pixel_size y)) by lia.
    rewrite (Hfrom (pix width pixel_size y x i)) by lia.
    rewrite (Hbelow (pix width pixel_size y x i)) by lia.
    rewrite (HQ x i Hx Hi). f_equal.
    + unfold left_of. destruct (Z.eqb_spec x 0); [reflexivity|].
      symmetry. apply Hbelow.
      destruct (pix_bounds y (x - 1) i Hy ltac:(lia) Hi). lia.
    + unfold up_of. destruct (Z.eqb_spec y 0); [reflexivity|].
      symmetry. apply Hbelow.
      destruct (pix_bounds (y - 1) x i ltac:(lia) Hx Hi) as (Hp & _).
      destruct (row_bounds (y - 1) ltac:(lia)) as (_ & Hrs' & Hnext' & _).
      replace (y - 1 + 1) with y in * by lia. lia.
    + unfold upleft_of.
      destruct (Z.eqb_spec x 0); [reflexivity|].
      destruct (Z.eqb_spec y 0); [reflexivity|]. cbn [orb].
      symmetry. apply Hbelow.
      destruct (pix_bounds (y - 1) (x - 1) i ltac:(lia) ltac:(lia) Hi) as (Hp & _).
      destruct (row_bounds (y - 1) ltac:(lia)) as (_ & Hrs' & Hnext' & _).
      replace (y - 1 + 1) with y in * by lia. lia.
Qed.

(** The body of the loop on [y]. *)
Lemma row_step_spec (y : Z) (s : out_state) :
  0 <= y < height ->
  segment_spec (height * stride width pixel_size) (row_start width pixel_size y) (row_start width pixel_size (y + 1))
    (row_rel width pixel_size y)
    (mem s) (mem (row_step width pixel_size y s)).
Proof.
  intros Hy Hm HN.
  destruct (row_bounds y Hy) as (Hwp & Hrs & Hnext & Hle & Hprev & HN64).
  assert (Hstride : size_t (size_t (width * pixel_size) + 1)
                    = stride width pixel_size).
  { unfold stride. rewrite (size_t_small (width * pixel_size)) by lia.
    apply size_t_small. lia. }
  assert (Hrow : size_t (y * stride width pixel_size)
                 = row_start width pixel_size y).
  { unfold row_start in *. apply size_t_small. lia. }
  assert (Hprow : y <> 0 ->
            size_t (size_t (y - 1) * stride width pixel_size)
            = row_start width pixel_size (y - 1)).
  { intros Hy0. destruct (Hprev Hy0) as (Hp1 & Hp2).
    assert (y < 2 ^ 64) by (unfold row_start, stride in *; nia).
    rewrite (size_t_small (y - 1)) by lia.
    unfold row_start in *. apply size_t_small. lia. }
  unfold row_step. cbv zeta. cbn [mem]. rewrite Hstride, Hrow.
  set (fm := load (mem s) (row_start width pixel_size y)).
  set (line := row_start width pixel_size y + 1).
  set (prev_line := if y =? 0 then None
                    else Some (size_t (size_t (y - 1) * stride width pixel_size) + 1)).
  set (s0 := {| mem := mem s; ppm := ppm s;
                names := names s ++ [filter_methods !! Z.to_nat fm];
                invalid := invalid s |}).
  assert (Hpl : prev_line = if y =? 0 then None
                            else Some (row_start width pixel_size (y - 1) + 1)).
  { unfold prev_line. destruct (Z.eqb_spec y 0); [reflexivity|].
    rewrite Hprow by assumption. reflexivity. }
  clearbody prev_line. subst prev_line.
  destruct (row_loop_spec (height * stride width pixel_size) fm line
              (if y =? 0 then None else Some (row_start width pixel_size (y - 1) + 1))
              width pixel_size Hw Hps) with (s := s0)
    as (Hlen & Hb & Hfr & HQ).
  { unfold line. lia. }
  { intros prev. destruct (Z.eqb_spec y 0) as [|Hy0]; [discriminate|].
    intros [= <-]. destruct (Hprev Hy0). unfold line. lia. }
  { unfold line. lia. }
  { exact HN64. }
  { exact Hm. }
  { exact HN. }
  cbn [mem s0] in Hlen, Hb, Hfr, HQ.
  set (m' := mem (for_range width _ s0)) in *. clearbody m'.
  split; [exact Hlen|]. split; [exact Hb|]. split.
  - intros q Hq Hout. apply Hfr; unfold line; lia.
  - split.
    + apply Hfr; unfold line; lia.
    + intros x i Hx Hi. specialize (HQ x i Hx Hi). unfold byte_rel in HQ.
      unfold pix, left_of, up_of, upleft_of, pix. fold line.
      rewrite HQ. unfold fm, nb_left, nb_up, nb_upleft, line.
      destruct (Z.eqb_spec y 0), (Z.eqb_spec x 0); reflexivity.
Qed.

(** The whole loop of [main]: every row of the buffer it leaves is the
    reconstruction of that row of the decompressed buffer, from the
    reconstructed neighbours, under the filter type in front of the row. *)
Lemma write_ppm_rows (raw_data : list Z) :
  Forall is_byte raw_data -> Z.of_nat (length raw_data) = (height * stride width pixel_size) ->
  let out := mem (write_ppm width height pixel_size raw_data) in
  length out = length raw_data /\ Forall is_byte out /\
  forall y, 0 <= y < height -> row_rel width pixel_size y raw_data out.
Proof.
  intros Hm HN out. unfold out, write_ppm, for_range.
  set (s0 := {| mem := raw_data; ppm := [PpmHeader width height];
                names := []; invalid := [] |}).
  destruct (for_loop_segments (height * stride width pixel_size) (row_step width pixel_size)
              (row_start width pixel_size) (row_rel width pixel_size)
              (Z.to_nat height) 0 s0) as (Hlen & Hb & _ & HQ).
  - unfold row_start. lia.
  - intros k Hk. destruct (row_bounds k ltac:(lia)) as (? & ? & ? & _). lia.
  - intros k s Hk. apply row_step_spec. lia.
  - intros k Hk. apply row_rel_stable. lia.
  - exact Hm.
  - exact HN.
  - split; [exact Hlen|]. split; [exact Hb|].
    intros y Hy. apply HQ. lia.
Qed.

End Image.

(** ** The reconstructed bytes *)

Section Reconstruction.

Variables (width pixel_size height : Z) (raw_data : list Z).
Hypothesis Hw : 0 <= width.
Hypothesis Hps : 0 <= pixel_size.
Hypothesis Hh : 0 <= height.
Hypothesis Hfit : height * stride width pixel_size <= PTRDIFF_MAX.
Hypothesis Hbytes : Forall is_byte raw_data.
Hypothesis Hlen : Z.of_nat (length raw_data) = height * stride width pixel_size.

Variables (y x i : Z).
Hypothesis Hy : 0 <= y < height.
Hypothesis Hx : 0 <= x < width.
Hypothesis Hi : 0 <= i < pixel_size.

Lemma reconstructed_byte :
  let out := mem (write_ppm width height pixel_size raw_data) in
  load out (pix width pixel_size y x i) =
    reconstruct (load raw_data (row_start width pixel_size y))
      (load raw_data (pix width pixel_size y x i))
      (left_of out width pixel_size y x i)
      (up_of out width pixel_size y x i)
      (upleft_of out width pixel_size y x i).
Proof.
  intros out.
  destruct (write_ppm_rows width pixel_size height Hw Hps Hh Hfit raw_data
              Hbytes Hlen) as (_ & _ & Hrows).
  destruct (Hrows y Hy) as [_ Hrow]. apply Hrow; assumption.
Qed.

Lemma neighbours_are_bytes :
  let out := mem (write_ppm width height pixel_size raw_data) in
  is_byte (left_of out width pixel_size y x i) /\
  is_byte (up_of out width pixel_size y x i) /\
  is_byte (upleft_of out width pixel_size y x i).
Proof.
  intros out.
  destruct (write_ppm_rows width pixel_size height Hw Hps Hh Hfit raw_data
              Hbytes Hlen) as (_ & Hout & _).
  fold out in Hout. unfold left_of, up_of, upleft_of.
  repeat split;
    repeat match goal with
           | |- context [if ?b then _ else _] => destruct b
           end;
    try (apply load_is_byte; exact Hout); lia.
Qed.

(** C3 (amended).  A byte of a row of filter type 3 is reconstructed as
    [raw + floor((left + up) / 2)] reduced modulo 256, where [left] and
    [up] are the reconstructed neighbours (0 where absent): their sum is
    formed exactly, in 0..510, and is not wrapped; halving it truncates,
    which is the floor here; only the final addition wraps. *)
Theorem average_reconstruction :
  load raw_data (row_start width pixel_size y) = 3 ->
  let out := mem (write_ppm width height pixel_size raw_data) in
  let left := left_of out width pixel_size y x i in
  let up := up_of out width pixel_size y x i in
  load out (pix width pixel_size y x i) =
    average_exact_sum (load raw_data (pix width pixel_size y x i)) left up /\
  0 <= left + up <= 510 /\
  Z.quot (left + up) 2 = (left + up) / 2.
Proof.
  intros Hfm out left up.
  pose proof reconstructed_byte as Hrec. cbv zeta in Hrec. fold out in Hrec.
  destruct neighbours_are_bytes as (Hl & Hu & _). fold out in Hl, Hu.
  fold left in Hl. fold up in Hu. unfold is_byte in Hl, Hu.
  split; [|split; [lia|apply Z.quot_div_nonneg; lia]].
  rewrite Hrec, Hfm. reflexivity.
Qed.

(** C8.  A byte of a row of filter type 4 is reconstructed as
    [raw + chosen] modulo 256, where, with [a], [b], [c] the reconstructed
    left, up and up-left neighbours (0 where absent), [p = a + b - c] and
    [pa], [pb], [pc] the exact absolute differences of [p] to them,
    [chosen] is [a] if [pa <= pb] and [pa <= pc], else [b] if [pb <= pc],
    else [c]; in particular it is [a] when [a], [b] and [c] are equal. *)
Theorem paeth_reconstruction :
  load raw_data (row_start width pixel_size y) = 4 ->
  let out := mem (write_ppm width height pixel_size raw_data) in
  let a := left_of out width pixel_size y x i in
  let b := up_of out width pixel_size y x i in
  let c := upleft_of out width pixel_size y x i in
  let p := a + b - c in
  let pa := Z.abs (p - a) in
  let pb := Z.abs (p - b) in
  let pc := Z.abs (p - c) in
  exists chosen,
    load out (pix width pixel_size y x i) =
      (load raw_data (pix width pixel_size y x i) + chosen) mod 256 /\
    (pa <= pb /\ pa <= pc -> chosen = a) /\
    (~ (pa <= pb /\ pa <= pc) -> pb <= pc -> chosen = b) /\
    (~ (pa <= pb /\ pa <= pc) -> ~ pb <= pc -> chosen = c) /\
    (a = b -> b = c -> pa = 0 /\ pb = 0 /\ pc = 0 /\ chosen = a).
Proof.
  intros Hfm out a b c p pa pb pc.
  pose proof reconstructed_byte as Hrec. cbv zeta in Hrec. fold out in Hrec.
  fold a b c in Hrec. rewrite Hfm in Hrec.
  exists (paeth_choice a b c). split; [exact Hrec|].
  unfold paeth_choice. fold p pa pb pc.
  repeat case_decide; repeat split; intros; try reflexivity; try tauto;
    subst pa pb pc p; lia.
Qed.

End Reconstruction.

(** ** How [main] can fail *)


Lemma average_image_ok :
  2 * stride 2 3 <= PTRDIFF_MAX /\ Forall is_byte average_image /\
  Z.of_nat (length average_image) = 2 * stride 2 3.
Proof.
  split; [vm_compute; discriminate|]. split; [|reflexivity].
  unfold average_image, is_byte.
  repeat (apply Forall_cons; split; [lia|]). apply Forall_nil. exact I.
Qed.

Lemma average_reconstruction_witness :
  (2 * stride 2 3 <= PTRDIFF_MAX /\ Forall is_byte average_image /\
   Z.of_nat (length average_image) = 2 * stride 2 3 /\
   load average_image (row_start 2 3 1) = 3) /\
  load (mem (write_ppm 2 2 3 average_image)) (pix 2 3 1 1 0) =
    average_exact_sum 0 105 200.
Proof.
  destruct average_image_ok as (Hfit & Hb & Hl).
  assert (Hfm : load average_image (row_start 2 3 1) = 3) by reflexivity.
  split; [repeat split; assumption|].
  destruct (average_reconstruction 2 3 2 average_image
              ltac:(lia) ltac:(lia) ltac:(lia) Hfit Hb Hl 1 1 0
              ltac:(lia) ltac:(lia) ltac:(lia) Hfm) as (Heq & _).
  rewrite Heq. vm_compute. reflexivity.
Defined.

(** C3 (counterexample).  In the second row, of type 3, the byte after
    the first pixel has the reconstructed neighbours 105 (left) and 200
    (up) and the filtered value 0.  The program stores 152, the half of
    305; with the sum wrapped to 8 bits first the value would be 24. *)
Lemma average_sum_is_not_wrapped :
  let out := mem (write_ppm 2 2 3 average_image) in
  load average_image (row_start 2 3 1) = 3 /\
  load average_image (pix 2 3 1 1 0) = 0 /\
  left_of out 2 3 1 1 0 = 105 /\
  up_of out 2 3 1 1 0 = 200 /\
  load out (pix 2 3 1 1 0) = 152 /\
  average_all_mod256 0 105 200 = 24 /\
  load out (pix 2 3 1 1 0) <>
    average_all_mod256 (load average_image (pix 2 3 1 1 0))
      (left_of out 2 3 1 1 0) (up_of out 2 3 1 1 0).
Proof.
  vm_compute. repeat split; discriminate.
Qed.

Lemma paeth_image_ok :
  2 * stride 2 3 <= PTRDIFF_MAX /\ Forall is_byte paeth_image /\
  Z.of_nat (length paeth_image) = 2 * stride 2 3.
Proof.
  split; [vm_compute; discriminate|]. split; [|reflexivity].
  unfold paeth_image, is_byte.
  repeat (apply Forall_cons; split; [lia|]). apply Forall_nil. exact I.
Qed.

Lemma paeth_reconstruction_witness :
  let out := mem (write_ppm 2 2 3 paeth_image) in
  (2 * stride 2 3 <= PTRDIFF_MAX /\ Forall is_byte paeth_image /\
   Z.of_nat (length paeth_image) = 2 * stride 2 3 /\
   load paeth_image (row_start 2 3 1) = 4) /\
  left_of out 2 3 1 1 0 = 50 /\ up_of out 2 3 1 1 0 = 50 /\
  upleft_of out 2 3 1 1 0 = 50 /\
  load out (pix 2 3 1 1 0) = (7 + 50) mod 256.
Proof.
  intros out.
  destruct paeth_image_ok as (Hfit & Hb & Hl).
  assert (Hfm : load paeth_image (row_start 2 3 1) = 4) by reflexivity.
  assert (Ha : left_of out 2 3 1 1 0 = 50) by (vm_compute; reflexivity).
  assert (Hu : up_of out 2 3 1 1 0 = 50) by (vm_compute; reflexivity).
  assert (Hc : upleft_of out 2 3 1 1 0 = 50) by (vm_compute; reflexivity).
  split; [repeat split; assumption|].
  split; [exact Ha|]. split; [exact Hu|]. split; [exact Hc|].
  destruct (paeth_reconstruction 2 3 2 paeth_image
              ltac:(lia) ltac:(lia) ltac:(lia) Hfit Hb Hl 1 1 0
              ltac:(lia) ltac:(lia) ltac:(lia) Hfm)
    as (chosen & Heq & _ & _ & _ & Htie).
  fold out in Heq, Htie.
  destruct Htie as (_ & _ & _ & Hch); [congruence|congruence|].
  rewrite Heq, Hch, Ha. reflexivity.
Defined.

(** ** Round trip with the filter encoder *)

Lemma load_ext (m1 m2 : list Z) :
  length m1 = length m2 ->
  (forall q, 0 <= q < Z.of_nat (length m1) -> load m1 q = load m2 q) ->
  m1 = m2.
Proof.
  intros Hlen Hload. apply list_eq. intros n.
  destruct (Nat.lt_ge_cases n (length m1)) as [Hlt|Hge].
  - specialize (Hload (Z.of_nat n) ltac:(lia)). unfold load in Hload.
    rewrite Nat2Z.id in Hload.
    destruct (lookup_lt_is_Some_2 m1 n Hlt) as [v1 H1].
    destruct (lookup_lt_is_Some_2 m2 n ltac:(lia)) as [v2 H2].
    rewrite H1, H2 in *. simpl in Hload. congruence.
  - rewrite (lookup_ge_None_2 m1 n) by lia.
    rewrite (lookup_ge_None_2 m2 n) by lia. reflexivity.
Qed.

Lemma length_png_filter (width pixel_size : Z) (img : list Z) :
  length (png_filter width pixel_size img) = length img.
Proof. unfold png_filter. rewrite length_map, length_seq. reflexivity. Qed.

Lemma load_png_filter (width pixel_size : Z) (img : list Z) (q : Z) :
  0 <= q < Z.of_nat (length img) ->
  load (png_filter width pixel_size img) q = png_filter_byte width pixel_size img q.
Proof.
  intros Hq. unfold load, png_filter.
  rewrite list_lookup_fmap, lookup_seq_lt by lia.
  simpl. rewrite Z2Nat.id by lia. reflexivity.
Qed.

Lemma png_filter_is_byte (width pixel_size : Z) (img : list Z) :
  Forall is_byte img -> Forall is_byte (png_filter width pixel_size img).
Proof.
  intros Himg. unfold png_filter. apply Forall_fmap, Forall_forall.
  intros q _. simpl. unfold png_filter_byte.
  destruct (_ =? 0); [apply load_is_byte, Himg|].
  unfold is_byte. apply Z.mod_pos_bound. lia.
Qed.

(** Every position of the buffer is a filter-type byte or a pixel byte. *)
Lemma position_decode (width pixel_size height q : Z) :
  0 <= width -> 0 <= pixel_size ->
  0 <= q < height * stride width pixel_size ->
  (exists y, 0 <= y < height /\ q = row_start width pixel_size y) \/
  (exists y x i, 0 <= y < height /\ 0 <= x < width /\ 0 <= i < pixel_size /\
                 q = pix width pixel_size y x i).
Proof.
  intros Hw Hps Hq. unfold pix, row_start, stride in *.
  assert (Hwp : 0 <= width * pixel_size) by nia.
  set (st := width * pixel_size + 1) in *.
  pose proof (Z.div_mod q st ltac:(lia)) as Hdm.
  pose proof (Z.mod_pos_bound q st ltac:(lia)) as Hr.
  assert (Hy : 0 <= q / st < height).
  { split; [apply Z.div_pos; lia|]. apply Z.div_lt_upper_bound; lia. }
  destruct (Z.eq_dec (q mod st) 0) as [H0|H0].
  - left. exists (q / st). split; [exact Hy|]. lia.
  - right. set (k := q mod st - 1).
    assert (Hk : 0 <= k < width * pixel_size) by (unfold k, st in *; lia).
    assert (Hpos : 0 < pixel_size) by nia.
    pose proof (Z.div_mod k pixel_size ltac:(lia)) as Hkdm.
    pose proof (Z.mod_pos_bound k pixel_size Hpos) as Hi.
    exists (q / st), (k / pixel_size), (k mod pixel_size).
    split; [exact Hy|]. split.
    + split; [apply Z.div_pos; lia|]. apply Z.div_lt_upper_bound; lia.
    + split; [exact Hi|]. unfold k in *. lia.
Qed.

Section Encoder.

Variables (width pixel_size height : Z) (img : list Z).
Hypothesis Hw : 0 <= width.
Hypothesis Hps : 0 <= pixel_size.
Hypothesis Hh : 0 <= height.
Hypothesis Hlen : Z.of_nat (length img) = height * stride width pixel_size.

Lemma pix_div_mod (y x i : Z) :
  0 <= y < height -> 0 <= x < width -> 0 <= i < pixel_size ->
  pix width pixel_size y x i / stride width pixel_size = y /\
  pix width pixel_size y x i mod stride width pixel_size
    = 1 + (x * pixel_size + i) /\
  0 <= pix width pixel_size y x i < height * stride width pixel_size.
Proof using Hw Hps Hh Hlen.
  intros Hy Hx Hi.
  destruct (in_row width pixel_size Hps x i Hx Hi) as (Hxp & Hlt & _).
  unfold pix, row_start, stride.
  assert (Heq : y * (width * pixel_size + 1) + 1 + (x * pixel_size + i)
                = (width * pixel_size + 1) * y + (1 + (x * pixel_size + i)))
    by ring.
  rewrite Heq. split; [|split].
  - symmetry. apply (Z.div_unique _ _ y (1 + (x * pixel_size + i))); lia.
  - symmetry. apply (Z.mod_unique _ _ y (1 + (x * pixel_size + i))); lia.
  - nia.
Qed.

(** The encoder leaves the filter-type byte of a row in place. *)
Lemma png_filter_type_byte (y : Z) :
  0 <= y < height ->
  load (png_filter width pixel_size img) (row_start width pixel_size y)
  = load img (row_start width pixel_size y).
Proof using Hw Hps Hh Hlen.
  intros Hy.
  assert (Hwp : 0 <= width * pixel_size) by nia.
  assert (Hq : 0 <= row_start width pixel_size y < Z.of_nat (length img))
    by (rewrite Hlen; unfold row_start, stride; nia).
  rewrite load_png_filter by exact Hq. unfold png_filter_byte.
  assert (Hmod : row_start width pixel_size y mod stride width pixel_size = 0).
  { unfold row_start. apply Z.mod_mul. unfold stride. lia. }
  rewrite Hmod. reflexivity.
Qed.

(** The encoder replaces a pixel byte by its difference to the predictor
    of the row's filter type, taken from the true neighbours. *)
Lemma png_filter_pixel_byte (y x i : Z) :
  0 <= y < height -> 0 <= x < width -> 0 <= i < pixel_size ->
  load (png_filter width pixel_size img) (pix width pixel_size y x i)
  = (load img (pix width pixel_size y x i)
     - predictor (load img (row_start width pixel_size y))
         (left_of img width pixel_size y x i)
         (up_of img width pixel_size y x i)
         (upleft_of img width pixel_size y x i)) mod 256.
Proof using Hw Hps Hh Hlen.
  intros Hy Hx Hi.
  destruct (pix_div_mod y x i Hy Hx Hi) as (Hdiv & Hmod & Hrange).
  destruct (in_row width pixel_size Hps x i Hx Hi) as (Hxp & Hlt & Hpos).
  rewrite load_png_filter by (rewrite Hlen; exact Hrange).
  unfold png_filter_byte. rewrite Hdiv, Hmod.
  destruct (Z.eqb_spec (1 + (x * pixel_size + i)) 0) as [H0|_]; [lia|].
  replace (1 + (x * pixel_size + i) - 1) with (x * pixel_size + i) by lia.
  assert (Hleft : (x * pixel_size + i <? pixel_size) = (x =? 0)).
  { destruct (Z.eqb_spec x 0) as [->|Hx0].
    - apply Z.ltb_lt. lia.
    - apply Z.ltb_ge. nia. }
  rewrite Hleft. unfold left_of, up_of, upleft_of.
  assert (Hl : pix width pixel_size y x i - pixel_size
               = pix width pixel_size y (x - 1) i)
    by (unfold pix; ring).
  assert (Hu : pix width pixel_size y x i - stride width pixel_size
               = pix width pixel_size (y - 1) x i)
    by (unfold pix, row_start; ring).
  assert (Hul : pix width pixel_size y x i - stride width pixel_size - pixel_size
                = pix width pixel_size (y - 1) (x - 1) i)
    by (unfold pix, row_start; ring).
  rewrite Hul, Hl, Hu. reflexivity.
Qed.

End Encoder.

Lemma reconstruct_predictor (t orig a b c : Z) :
  0 <= t <= 4 -> is_byte orig ->
  reconstruct t ((orig - predictor t a b c) mod 256) a b c = orig.
Proof.
  intros Ht Ho. unfold is_byte in Ho. unfold reconstruct.
  destruct (Z.eqb_spec t 0) as [->|H0].
  - unfold predictor. cbn. rewrite Z.sub_0_r. apply Z.mod_small. exact Ho.
  - destruct (Z.leb_spec 1 t), (Z.leb_spec t 4); try lia. cbn [andb].
    rewrite Zplus_mod_idemp_l.
    replace (orig - predictor t a b c + predictor t a b c) with orig by ring.
    apply Z.mod_small. exact Ho.
Qed.

(** Defiltering what the encoder produced gives back the buffer of true
    bytes, for rows of any of the five filter types. *)
Lemma defilter_png_filter (width pixel_size height : Z) (img : list Z) :
  0 <= width -> 0 <= pixel_size -> 0 <= height ->
  height * stride width pixel_size <= PTRDIFF_MAX ->
  Forall is_byte img ->
  Z.of_nat (length img) = height * stride width pixel_size ->
  (forall y, 0 <= y < height ->
     0 <= load img (row_start width pixel_size y) <= 4) ->
  mem (write_ppm width height pixel_size (png_filter width pixel_size img)) = img.
Proof.
  intros Hw Hps Hh Hfit Himg Hlen Htypes.
  set (enc := png_filter width pixel_size img).
  assert (Henc_len : Z.of_nat (length enc) = height * stride width pixel_size)
    by (unfold enc; rewrite length_png_filter; exact Hlen).
  destruct (write_ppm_rows width pixel_size height Hw Hps Hh Hfit enc
              (png_filter_is_byte width pixel_size img Himg) Henc_len)
    as (Hout_len & _ & Hrows).
  set (out := mem (write_ppm width height pixel_size enc)) in *.
  assert (Hlen_eq : length out = length img)
    by (rewrite Hout_len; apply length_png_filter).
  apply load_ext; [exact Hlen_eq|].
  assert (Hall : forall n : nat, forall q,
             0 <= q < Z.of_nat n -> q < height * stride width pixel_size ->
             load out q = load img q).
  { induction n as [|n IH]; intros q Hq HqN; [lia|].
    destruct (position_decode width pixel_size height q Hw Hps ltac:(lia))
      as [(y & Hy & ->)|(y & x & i & Hy & Hx & Hi & ->)].
    - destruct (Hrows y Hy) as [Hfm _]. rewrite Hfm.
      apply (png_filter_type_byte width pixel_size height img Hw Hps Hh Hlen y Hy).
    - destruct (Hrows y Hy) as [_ Hrow]. rewrite (Hrow x i Hx Hi).
      destruct (pix_bounds width pixel_size height Hw Hps Hh Hfit y x i Hy Hx Hi)
        as (Hpix & _).
      destruct (row_bounds width pixel_size height Hw Hps Hh Hfit y Hy)
        as (_ & Hrs & Hnext & HleN & Hprev & _).
      assert (Hl : left_of out width pixel_size y x i
                   = left_of img width pixel_size y x i).
      { unfold left_of. destruct (Z.eqb_spec x 0) as [|Hx0]; [reflexivity|].
        destruct (pix_bounds width pixel_size height Hw Hps Hh Hfit y (x - 1) i
                    Hy ltac:(lia) Hi) as (Hp & _).
        apply IH; unfold pix in *; nia. }
      assert (Hu : up_of out width pixel_size y x i
                   = up_of img width pixel_size y x i).
      { unfold up_of. destruct (Z.eqb_spec y 0) as [|Hy0]; [reflexivity|].
        destruct (pix_bounds width pixel_size height Hw Hps Hh Hfit (y - 1) x i
                    ltac:(lia) Hx Hi) as (Hp & _).
        destruct (Hprev Hy0) as (Hp1 & Hp2).
        replace (y - 1 + 1) with y in Hp by lia.
        apply IH; unfold pix in *; lia. }
      assert (Hul : upleft_of out width pixel_size y x i
                    = upleft_of img width pixel_size y x i).
      { unfold upleft_of.
        destruct (Z.eqb_spec x 0) as [|Hx0]; [reflexivity|].
        destruct (Z.eqb_spec y 0) as [|Hy0]; [reflexivity|]. cbn [orb].
        destruct (pix_bounds width pixel_size height Hw Hps Hh Hfit (y - 1) (x - 1) i
                    ltac:(lia) ltac:(lia) Hi) as (Hp & _).
        destruct (Hprev Hy0) as (Hp1 & Hp2).
        replace (y - 1 + 1) with y in Hp by lia.
        apply IH; unfold pix in *; lia. }
      rewrite Hl, Hu, Hul. unfold enc.
      rewrite (png_filter_type_byte width pixel_size height img Hw Hps Hh Hlen y Hy).
      rewrite (png_filter_pixel_byte width pixel_size height img Hw Hps Hh Hlen
                 y x i Hy Hx Hi).
      apply reconstruct_predictor; [apply Htypes, Hy|apply load_is_byte, Himg]. }
  intros q Hq. apply (Hall (S (Z.to_nat q))); lia.
Qed.

Lemma load_app_r (l1 l2 : list Z) (q : Z) :
  Z.of_nat (length l1) <= q -> load (l1 ++ l2) q = load l2 (q - Z.of_nat (length l1)).
Proof.
  intros Hq. unfold load. rewrite lookup_app_r by lia.
  replace (Z.to_nat (q - Z.of_nat (length l1)))
    with (Z.to_nat q - length l1)%nat by lia.
  reflexivity.
Qed.

Section Scanlines.

Variables (t n : Z) .
Hypothesis Hn : 0 <= n.

Lemma length_scanlines (rows : list (list Z)) :
  Forall (fun row => Z.of_nat (length row) = n /\ Forall is_byte row) rows ->
  Z.of_nat (length (scanlines t rows)) = Z.of_nat (length rows) * (n + 1).
Proof using Hn.
  induction 1 as [|row rows [Hrow _] _ IH]; [reflexivity|].
  unfold scanlines in *. cbn [map concat]. rewrite length_app.
  cbn [length]. lia.
Qed.

Lemma scanlines_is_byte (rows : list (list Z)) :
  is_byte t ->
  Forall (fun row => Z.of_nat (length row) = n /\ Forall is_byte row) rows ->
  Forall is_byte (scanlines t rows).
Proof using Hn.
  intros Ht. induction 1 as [|row rows [_ Hrow] _ IH]; [constructor|].
  unfold scanlines in *. cbn [map concat].
  apply Forall_app. split; [constructor; assumption|exact IH].
Qed.

Lemma load_scanlines_type (rows : list (list Z)) :
  Forall (fun row => Z.of_nat (length row) = n /\ Forall is_byte row) rows ->
  forall y, 0 <= y < Z.of_nat (length rows) ->
  load (scanlines t rows) (y * (n + 1)) = t.
Proof using Hn.
  induction 1 as [|row rows [Hrow _] _ IH]; intros y Hy;
    [simpl in Hy; lia|].
  unfold scanlines in *. cbn [map concat].
  destruct (Z.eq_dec y 0) as [->|Hy0].
  - reflexivity.
  - rewrite load_app_r by (cbn [length]; nia).
    replace (y * (n + 1) - Z.of_nat (length (t :: row)))
      with ((y - 1) * (n + 1)) by (cbn [length]; lia).
    apply IH. cbn [length] in Hy. lia.
Qed.

End Scanlines.

(** C4.  For each filter type [t] of 0..4 and rows of true bytes forming
    an image of at least 2 columns and 2 rows, filtering every row with
    type [t] and then running the defiltering loop of [main] leaves the
    buffer with exactly the original rows, each behind its type byte. *)
Theorem defilter_roundtrip (t width pixel_size height : Z)
    (rows : list (list Z)) :
  0 <= t <= 4 -> 2 <= width -> 2 <= height -> 0 <= pixel_size ->
  height * stride width pixel_size <= PTRDIFF_MAX ->
  Z.of_nat (length rows) = height ->
  Forall (fun row => Z.of_nat (length row) = width * pixel_size /\
                     Forall is_byte row) rows ->
  mem (write_ppm width height pixel_size
         (png_filter width pixel_size (scanlines t rows)))
  = scanlines t rows.
Proof.
  intros Ht Hw Hh Hps Hfit Hlen Hrows.
  assert (Hwp : 0 <= width * pixel_size) by nia.
  apply defilter_png_filter; try lia.
  - apply (scanlines_is_byte t (width * pixel_size) Hwp);
      [unfold is_byte; lia|exact Hrows].
  - rewrite (length_scanlines t (width * pixel_size) Hwp rows Hrows), Hlen.
    reflexivity.
  - intros y Hy. unfold row_start, stride.
    rewrite (load_scanlines_type t (width * pixel_size) Hwp rows Hrows); lia.
Qed.

Lemma defilter_roundtrip_witness :
  let rows := [[50; 1; 2; 250; 3; 4]; [60; 0; 255; 57; 128; 9]] in
  (2 * stride 2 3 <= PTRDIFF_MAX /\
   Z.of_nat (length rows) = 2 /\
   Forall (fun row => Z.of_nat (length row) = 2 * 3 /\ Forall is_byte row) rows) /\
  png_filter 2 3 (scanlines 4 rows) =
    [4; 50; 1; 2; 200; 2; 2; 4; 10; 255; 253; 63; 125; 10] /\
  mem (write_ppm 2 2 3 (png_filter 2 3 (scanlines 4 rows))) = scanlines 4 rows.
Proof.
  intros rows.
  assert (Hfit : 2 * stride 2 3 <= PTRDIFF_MAX) by (vm_compute; discriminate).
  assert (Hlen : Z.of_nat (length rows) = 2) by reflexivity.
  assert (Hrows : Forall (fun row => Z.of_nat (length row) = 2 * 3 /\
                                     Forall is_byte row) rows).
  { unfold rows, is_byte.
    repeat (apply Forall_cons; split;
            [split; [reflexivity|
               repeat (apply Forall_cons; split; [lia|]);
               apply Forall_nil; exact I]|]).
    apply Forall_nil. exact I. }
  split; [repeat split; assumption|].
  split; [vm_compute; reflexivity|].
  apply (defilter_roundtrip 4 2 3 2 rows); try assumption; lia.
Defined.

(** * Further properties of the code *)

(** ** [be_host32] *)

(** X1.  [be_host32] reads four bytes as a big-endian number below 2^32,
    whatever the byte order of the host: the first byte is the most
    significant.  It is the inverse of writing a number below 2^32 as its
    four big-endian bytes, in both directions. *)
Theorem be_host32_big_endian (b0 b1 b2 b3 : Z) :
  is_byte b0 -> is_byte b1 -> is_byte b2 -> is_byte b3 ->
  be_host32 [b0; b1; b2; b3] = b0 * 2 ^ 24 + b1 * 2 ^ 16 + b2 * 2 ^ 8 + b3 /\
  0 <= be_host32 [b0; b1; b2; b3] < 2 ^ 32 /\
  be32_bytes (be_host32 [b0; b1; b2; b3]) = [b0; b1; b2; b3] /\
  (forall n, 0 <= n < 2 ^ 32 -> be_host32 (be32_bytes n) = n).
Proof.
  intros H0 H1 H2 H3.
  pose proof (be_host32_bytes b0 b1 b2 b3 H0 H1 H2 H3) as Hv.
  split; [exact Hv|]. split; [apply be_host32_range|].
  split; [|exact be_host32_be32_bytes].
  rewrite Hv. unfold be32_bytes, is_byte in *.
  change (2 ^ 24) with 16777216. change (2 ^ 16) with 65536.
  change (2 ^ 8) with 256.
  repeat f_equal; Z.div_mod_to_equations; lia.
Qed.

Lemma be_host32_big_endian_witness :
  (is_byte 0 /\ is_byte 0 /\ is_byte 1 /\ is_byte 44) /\
  be_host32 [0; 0; 1; 44] = 300.
Proof.
  assert (Hb : forall b, 0 <= b < 256 -> is_byte b) by (intros b H; exact H).
  split; [repeat split; lia|].
  destruct (be_host32_big_endian 0 0 1 44) as (Hv & _);
    try (apply Hb; lia).
  rewrite Hv. reflexivity.
Defined.

(** ** [png_fetch_next_chunk] *)

(** X2.  [png_fetch_next_chunk] keeps the cursor inside the buffer and
    never moves it back, and it touches neither the buffer nor its size.
    A failure is not rolled back: the cursor stays behind the fields that
    were read, after 0, 4 or 8 bytes. *)
Theorem png_fetch_next_chunk_cursor (st : png_state) :
  state_ok st ->
  let r := png_fetch_next_chunk st in
  state_ok (snd r) /\ ptr (snd r) = ptr st /\ size (snd r) = size st /\
  index st <= index (snd r) /\
  (fst r = TruncatedInput ->
     index (snd r) = index st + consumed_on_failure (size st - index st)).
Proof.
  intros Hok r. subst r.
  pose proof Hok as (Hsz & Hmax & Hlo & Hhi).
  assert (H4 : 0 <= 4 <= PTRDIFF_MAX) by (unfold PTRDIFF_MAX; lia).
  destruct (png_fetch_next_chunk_cases st Hok) as (_ & Hshort & Hgo).
  set (len := be_host32 (bytes_at (ptr st) (index st) 4)) in *.
  pose proof (be_host32_range (bytes_at (ptr st) (index st) 4)) as Hlen.
  fold len in Hlen.
  assert (Hu : 0 <= uint32_t (len + 4) <= len + 4).
  { unfold uint32_t. split; [apply Z.mod_pos_bound; lia|].
    apply Z.mod_le; lia. }
  unfold consumed_on_failure.
  destruct (Z_le_gt_dec (index st + 8) (size st)) as [Hle8|Hgt8].
  - destruct (Z.ltb_spec (size st - index st) 4); [lia|].
    destruct (Z.ltb_spec (size st - index st) 8); [lia|].
    destruct (Z_le_gt_dec (index st + 8 + len + 4) (size st)) as [Hle|Hgt].
    + rewrite (Hgo Hle8 Hle). cbn [fst snd].
      split; [apply state_ok_set_index; [exact Hok|lia]|].
      cbn [set_index ptr size index].
      repeat split; try lia; discriminate.
    + rewrite (Hshort Hle8 Hgt). cbn [fst snd].
      split; [apply state_ok_set_index; [exact Hok|lia]|].
      cbn [set_index ptr size index].
      repeat split; lia.
  - unfold png_fetch_next_chunk, png_fetch32.
    destruct (Z_le_gt_dec (index st + 4) (size st)) as [Hle4|Hgt4].
    + rewrite (png_fetchN_ok st 4 Hok H4 Hle4).
      assert (Hok1 : state_ok (set_index st (index st + 4)))
        by (apply state_ok_set_index; [exact Hok|lia]).
      rewrite (png_fetchN_fail _ 4 Hok1 H4) by (simpl; lia).
      cbn [fst snd].
      destruct (Z.ltb_spec (size st - index st) 4); [lia|].
      destruct (Z.ltb_spec (size st - index st) 8); [|lia].
      split; [exact Hok1|]. cbn [set_index ptr size index].
      repeat split; lia.
    + rewrite (png_fetchN_fail st 4 Hok H4 Hgt4).
      cbn [fst snd].
      destruct (Z.ltb_spec (size st - index st) 4); [|lia].
      split; [exact Hok|]. repeat split; lia.
Qed.

Lemma png_fetch_next_chunk_cursor_witness :
  let st := {| ptr := [0; 0; 0; 9; 73; 68; 65; 84; 1; 2]; size := 10; index := 0 |} in
  state_ok st /\
  fst (png_fetch_next_chunk st) = TruncatedInput /\
  index (snd (png_fetch_next_chunk st)) = 8.
Proof.
  intros st.
  assert (Hok : state_ok st) by (unfold state_ok, PTRDIFF_MAX; simpl; lia).
  assert (Hf : fst (png_fetch_next_chunk st) = TruncatedInput)
    by (vm_compute; reflexivity).
  split; [exact Hok|]. split; [exact Hf|].
  destruct (png_fetch_next_chunk_cursor st Hok) as (_ & _ & _ & _ & Hidx).
  rewrite (Hidx Hf). reflexivity.
Defined.

(** X3.  Where the file holds a well-formed chunk (payload below 2^32 - 4
    bytes), [png_fetch_next_chunk] returns it as a view into the file:
    the declared size, the tag, [data] pointing at a payload that reads
    back exactly the chunk's bytes; and the cursor is left at the first
    byte behind the checksum, the checksum itself never being looked at. *)
Theorem png_fetch_next_chunk_view (pre rest : list Z) (c : file_chunk) :
  let file := pre ++ chunk_bytes c ++ rest in
  let st := {| ptr := file; size := Z.of_nat (length file);
               index := Z.of_nat (length pre) |} in
  chunk_ok c -> Z.of_nat (length file) <= PTRDIFF_MAX ->
  exists ch st',
    png_fetch_next_chunk st = (Fetched ch, st') /\
    c_size ch = Z.of_nat (length (fc_data c)) /\
    c_type ch = fc_type c /\
    chunk_payload file ch = fc_data c /\
    ptr st' = file /\
    index st' = Z.of_nat (length pre) + Z.of_nat (length (chunk_bytes c)) /\
    drop (Z.to_nat (index st')) file = rest.
Proof.
  intros file st Hc Hmax.
  destruct (png_fetch_next_chunk_at pre rest c Hc Hmax) as [Hfetch Hdata].
  fold file in Hfetch, Hdata.
  eexists _, _. split; [exact Hfetch|].
  cbn [c_size c_type c_data ptr index]. unfold chunk_payload.
  cbn [c_size c_data].
  split; [reflexivity|]. split; [reflexivity|]. split; [exact Hdata|].
  split; [reflexivity|]. split; [rewrite length_app; lia|].
  rewrite Nat2Z.id. unfold file. rewrite app_assoc. apply drop_app_length.
Qed.

Lemma png_fetch_next_chunk_view_witness :
  let c := {| fc_type := tag_IDAT; fc_data := [65; 66]; fc_crc := [9; 9; 9; 9] |} in
  let file := png_magic ++ chunk_bytes c ++ [1; 2; 3] in
  (chunk_ok c /\ Z.of_nat (length file) <= PTRDIFF_MAX) /\
  exists ch st',
    png_fetch_next_chunk {| ptr := file; size := 25; index := 8 |} = (Fetched ch, st') /\
    chunk_payload file ch = [65; 66] /\ index st' = 22.
Proof.
  intros c file.
  assert (Hc : chunk_ok c) by (unfold chunk_ok; cbn; lia).
  assert (Hmax : Z.of_nat (length file) <= PTRDIFF_MAX)
    by (unfold PTRDIFF_MAX; cbn; lia).
  split; [split; assumption|].
  destruct (png_fetch_next_chunk_view png_magic [1; 2; 3] c Hc Hmax)
    as (ch & st' & Hf & _ & _ & Hp & _ & Hi & _).
  exists ch, st'. split; [exact Hf|]. split; [exact Hp|exact Hi].
Defined.

(** ** The gathering loop of [png_decompress_idat] *)





Lemma bytes_at_tail (pre tail : list Z) (n : Z) :
  bytes_at (pre ++ tail) (Z.of_nat (length pre)) n = take (Z.to_nat n) tail.
Proof. unfold bytes_at. rewrite Nat2Z.id, drop_app_length. reflexivity. Qed.

Lemma gather_idat_chunks_tail (cs : list file_chunk) (tail : list Z) :
  forall (pre acc : list Z) (fuel : nat),
  let file := pre ++ concat (map chunk_bytes cs) ++ tail in
  Forall chunk_ok cs -> Z.of_nat (length file) <= PTRDIFF_MAX ->
  truncated_tail tail ->
  (length cs < fuel)%nat ->
  gather_idat fuel
    {| ptr := file; size := Z.of_nat (length file); index := Z.of_nat (length pre) |}
    acc
  = Some (acc ++ idat_payloads cs).
Proof.
  induction cs as [|c cs IH]; intros pre acc fuel file Hcs Hmax Htail Hfuel.
  - destruct fuel as [|fuel]; [simpl in Hfuel; lia|].
    unfold file in *. cbn [map concat app] in *.
    set (st := {| ptr := pre ++ tail; size := Z.of_nat (length (pre ++ tail));
                  index := Z.of_nat (length pre) |}).
    assert (Hlen : Z.of_nat (length (pre ++ tail))
                   = Z.of_nat (length pre) + Z.of_nat (length tail))
      by (rewrite length_app; lia).
    assert (Hok : state_ok st) by (unfold state_ok, st; simpl; lia).
    destruct (png_fetch_next_chunk_cases st Hok) as (Hend & Hshort & _).
    cbn [gather_idat].
    assert (Hfail : exists st', png_fetch_next_chunk st = (TruncatedInput, st')).
    { destruct (Z_le_gt_dec (index st + 8) (size st)) as [Hle|Hgt].
      - eexists. apply (Hshort Hle).
        unfold st. cbn [ptr index size]. rewrite bytes_at_tail.
        change (Z.to_nat 4) with 4%nat.
        destruct Htail as [Ht|Ht]; [unfold st in Hle; cbn [index size] in Hle|];
          lia.
      - destruct (Hend Hgt) as (st' & Hst' & _). exists st'. exact Hst'. }
    destruct Hfail as [st' ->].
    unfold idat_payloads. simpl. rewrite app_nil_r. reflexivity.
  - destruct fuel as [|fuel]; [simpl in Hfuel; lia|].
    apply Forall_cons in Hcs. destruct Hcs as [Hc Hcs].
    assert (Hfile : file = pre ++ chunk_bytes c ++ concat (map chunk_bytes cs) ++ tail)
      by (unfold file; cbn [map concat]; rewrite <- app_assoc; reflexivity).
    assert (Hfile' : file = (pre ++ chunk_bytes c) ++ concat (map chunk_bytes cs) ++ tail)
      by (rewrite Hfile, app_assoc; reflexivity).
    cbn [gather_idat]. fold file.
    destruct (png_fetch_next_chunk_at pre (concat (map chunk_bytes cs) ++ tail) c Hc)
      as [Hfetch Hdata]; [rewrite <- Hfile; exact Hmax|].
    rewrite <- Hfile in Hfetch, Hdata. rewrite Hfetch.
    cbn [c_type]. rewrite (is_idat_strncmp c) by apply Hc.
    unfold chunk_payload. cbn [ptr c_data c_size]. rewrite Hdata.
    unfold idat_payloads. cbn [map List.filter].
    specialize (IH (pre ++ chunk_bytes c)).
    cbv zeta in IH. rewrite <- Hfile' in IH.
    destruct (is_idat c).
    + rewrite IH; [|exact Hcs|exact Hmax|exact Htail|simpl in Hfuel; lia].
      cbn [map concat]. rewrite app_assoc. reflexivity.
    + rewrite IH; [|exact Hcs|exact Hmax|exact Htail|simpl in Hfuel; lia].
      reflexivity.
Qed.

Lemma gather_idat_encoded (pre : list Z) (cs : list file_chunk) (tail : list Z) :
  let file := pre ++ concat (map chunk_bytes cs) ++ tail in
  let st := {| ptr := file; size := Z.of_nat (length file);
               index := Z.of_nat (length pre) |} in
  Forall chunk_ok cs -> Z.of_nat (length file) <= PTRDIFF_MAX ->
  truncated_tail tail ->
  gather_idat (gather_fuel st) st [] = Some (idat_payloads cs).
Proof.
  intros file st Hcs Hmax Htail.
  unfold st. fold file.
  rewrite (gather_idat_chunks_tail cs tail pre [] _ Hcs Hmax Htail);
    [reflexivity|].
  unfold gather_fuel. cbn [size].
  pose proof (length_concat_chunk_bytes cs Hcs) as H12.
  assert (Hlen : 12 * Z.of_nat (length cs) <= Z.of_nat (length file))
    by (unfold file; rewrite !length_app; lia).
  assert (Z.of_nat (length cs) <= Z.of_nat (length file) / 8).
  { apply Z.div_le_lower_bound; lia. }
  lia.
Qed.

(** X5.  A file that ends in the middle of a chunk is not reported by
    [png_decompress_idat]: the loop stops at the chunk that does not fit,
    drops it without an error, and [uncompress] is run on the payloads
    of the IDAT chunks before it. *)
Theorem png_decompress_idat_truncated (uncompress : list Z -> Z -> Z * list Z)
    (pre : list Z) (cs : list file_chunk) (tail : list Z) (buf_size : Z) :
  let file := pre ++ concat (map chunk_bytes cs) ++ tail in
  let st := {| ptr := file; size := Z.of_nat (length file);
               index := Z.of_nat (length pre) |} in
  Forall chunk_ok cs -> Z.of_nat (length file) <= PTRDIFF_MAX ->
  truncated_tail tail ->
  gather_idat (gather_fuel st) st [] = Some (idat_payloads cs) /\
  png_decompress_idat uncompress st buf_size =
    uncompress_status (uncompress (idat_payloads cs) buf_size) buf_size.
Proof.
  intros file st Hcs Hmax Htail.
  pose proof (gather_idat_encoded pre cs tail Hcs Hmax Htail) as Hg.
  fold file in Hg. fold st in Hg.
  split; [exact Hg|].
  unfold png_decompress_idat. rewrite Hg. reflexivity.
Qed.

Lemma png_decompress_idat_truncated_witness :
  let cs := [ {| fc_type := tag_IDAT; fc_data := [65; 66]; fc_crc := [0; 0; 0; 0] |} ] in
  let tail := [0; 0; 0; 100; 73; 68; 65; 84; 67; 68] in
  let file := png_magic ++ concat (map chunk_bytes cs) ++ tail in
  let st := {| ptr := file; size := Z.of_nat (length file); index := 8 |} in
  (Forall chunk_ok cs /\ Z.of_nat (length file) <= PTRDIFF_MAX /\
   truncated_tail tail) /\
  gather_idat (gather_fuel st) st [] = Some [65; 66].
Proof.
  intros cs tail file st.
  assert (Hcs : Forall chunk_ok cs).
  { unfold cs, chunk_ok, tag_IDAT.
    repeat (apply Forall_cons; split); try (apply Forall_nil; exact I);
      cbn [fc_type fc_data fc_crc length]; repeat split; lia. }
  assert (Hmax : Z.of_nat (length file) <= PTRDIFF_MAX)
    by (unfold PTRDIFF_MAX; cbn; lia).
  assert (Htail : truncated_tail tail).
  { right. change (be_host32 (take 4 tail)) with 100. cbn. lia. }
  split; [repeat split; assumption|].
  exact (proj1 (png_decompress_idat_truncated (fun input _ => (Z_OK, input))
                  png_magic cs tail 0 Hcs Hmax Htail)).
Defined.

(** ** How [main] ends *)

Lemma png_check_initial (file : list Z) :
  let st0 := {| ptr := file; size := Z.of_nat (length file); index := 0 |} in
  png_check st0 =
    if Z.of_nat (length file) <? 8 then (1, st0)
    else (strncmp file png_magic 8, set_index st0 8).
Proof.
  intros st0. unfold png_check. subst st0. cbn [size].
  destruct (Z.of_nat (length file) <? 8); [reflexivity|].
  cbn [set_index index ptr].
  change (size_t (0 + 8)) with 8. change (Z.to_nat (size_t (8 - 8))) with 0%nat.
  rewrite drop_0. reflexivity.
Qed.

Lemma strncmp_magic (file : list Z) :
  strncmp file png_magic 8 = 0 <-> take 8 file = png_magic.
Proof.
  apply (strncmp_pattern_r png_magic file).
  unfold png_magic. repeat constructor; lia.
Qed.

Lemma strncmp_tag_IHDR (ty : list Z) :
  length ty = 4%nat ->
  strncmp tag_IHDR ty 4 = 0 <-> ty = tag_IHDR.
Proof.
  intros Hty.
  assert (Hp : Forall (fun b => b <> 0) tag_IHDR)
    by (unfold tag_IHDR; repeat constructor; lia).
  pose proof (strncmp_pattern_l tag_IHDR ty Hp) as H.
  change (length tag_IHDR) with 4%nat in H.
  rewrite <- Hty in H at 2. rewrite firstn_all in H. exact H.
Qed.

Lemma check_ihdr_error (h : ihdr) (e : png_error) :
  check_ihdr h = inl e -> e = UnsupportedFeature.
Proof.
  rewrite check_ihdr_cases. destruct (_ && _); [discriminate|].
  intros [= <-]. reflexivity.
Qed.

(** X6.  On a file that [map_file] has mapped, that is a file of at least
    one byte, [main] ends with "not a png file" exactly when the first 8
    bytes of the file are not the PNG signature, a file of 1 to 7 bytes
    included; the codec and the rest of the file play no part, and
    nothing after the signature check produces this failure. *)
Theorem png_main_bad_signature (uncompress : list Z -> Z -> Z * list Z)
    (file : list Z) :
  file <> [] ->
  (png_main uncompress file = Failed BadSignature <-> take 8 file <> png_magic).
Proof.
  intros _. unfold png_main. rewrite png_check_initial.
  destruct (Z.ltb_spec (Z.of_nat (length file)) 8) as [Hshort|Hlong].
  - cbn [negb Z.eqb]. split; [|reflexivity].
    intros _ Heq. apply (f_equal (@length Z)) in Heq.
    rewrite length_take in Heq. change (length png_magic) with 8%nat in Heq. lia.
  - destruct (Z.eqb_spec (strncmp file png_magic 8) 0) as [H0|H0]; cbn [negb].
    + apply strncmp_magic in H0. split; [|intros Hne; contradiction].
      intros Hfail. exfalso. revert Hfail.
      destruct (png_fetch_next_chunk _) as [[c|] st']; [|discriminate].
      destruct (negb (strncmp tag_IHDR (c_type c) 4 =? 0)); [discriminate|].
      destruct (negb (c_size c =? 13)); [discriminate|].
      destruct (check_ihdr _) as [e|ps] eqn:Hc.
      * apply check_ihdr_error in Hc. subst e. discriminate.
      * destruct (png_decompress_idat _ _ _) as [e|raw] eqn:Hd; [|discriminate].
        intros [= ->].
        destruct (png_decompress_idat_error _ _ _ _ Hd)
          as [H1 | [H1 | [H1 | [H1 | H1]]]]; discriminate H1.
    + split; [|reflexivity]. intros _ Heq. apply H0, strncmp_magic, Heq.
Qed.

Lemma png_main_bad_signature_witness :
  [137; 80; 78] <> [] /\
  png_main (fun input _ => (Z_OK, input)) [137; 80; 78] = Failed BadSignature.
Proof.
  assert (Hne : [137; 80; 78] <> (@nil Z)) by discriminate.
  split; [exact Hne|].
  apply (png_main_bad_signature (fun input _ => (Z_OK, input)) [137; 80; 78] Hne).
  cbn. discriminate.
Defined.

(** The first two steps of [main] on a file that starts with the
    signature and a well-formed chunk. *)
Lemma main_first_chunk (c : file_chunk) (rest : list Z) :
  let file := png_magic ++ chunk_bytes c ++ rest in
  let st0 := {| ptr := file; size := Z.of_nat (length file); index := 0 |} in
  chunk_ok c -> Z.of_nat (length file) <= PTRDIFF_MAX ->
  png_check st0 = (0, set_index st0 8) /\
  png_fetch_next_chunk (set_index st0 8) =
    (Fetched {| c_size := Z.of_nat (length (fc_data c));
                c_type := fc_type c; c_data := 16 |},
     set_index st0 (8 + Z.of_nat (length (chunk_bytes c)))).
Proof.
  intros file st0 Hc Hmax. split.
  - unfold st0. rewrite png_check_initial.
    assert (Hlen : 8 <= Z.of_nat (length file))
      by (unfold file; rewrite length_app; change (length png_magic) with 8%nat; lia).
    destruct (Z.ltb_spec (Z.of_nat (length file)) 8); [lia|].
    assert (H0 : strncmp file png_magic 8 = 0).
    { apply strncmp_magic. unfold file.
      change 8%nat with (length png_magic). apply take_app_length. }
    rewrite H0. reflexivity.
  - destruct (png_fetch_next_chunk_at png_magic rest c Hc Hmax) as [Hf _].
    fold file in Hf. unfold st0, set_index. cbn [ptr size index].
    change (Z.of_nat (length png_magic)) with 8 in Hf.
    rewrite Hf. f_equal. f_equal. rewrite length_app.
    change (length png_magic) with 8%nat. lia.
Qed.

Lemma ihdr_chunk_ok (w h bd ct cm fm im : Z) :
  chunk_ok (ihdr_chunk w h bd ct cm fm im) /\
  Z.of_nat (length (chunk_bytes (ihdr_chunk w h bd ct cm fm im))) = 25.
Proof.
  split; [unfold chunk_ok; cbn; lia|reflexivity].
Qed.

(** The header is read back from a file that starts with the signature
    and a header chunk. *)
Lemma reads_header_encoded (w h bd ct cm fm im : Z) (rest : list Z) :
  let file := png_magic ++ chunk_bytes (ihdr_chunk w h bd ct cm fm im) ++ rest in
  0 <= w < 2 ^ 32 -> 0 <= h < 2 ^ 32 ->
  Z.of_nat (length file) <= PTRDIFF_MAX ->
  reads_header file (mk_ihdr w h bd ct cm fm im) (after_header file).
Proof.
  intros file Hw Hh Hmax.
  destruct (ihdr_chunk_ok w h bd ct cm fm im) as [Hc H25].
  destruct (main_first_chunk (ihdr_chunk w h bd ct cm fm im) rest Hc Hmax)
    as [Hcheck Hfetch].
  fold file in Hcheck, Hfetch.
  unfold reads_header. eexists _, _.
  split; [exact Hcheck|]. split.
  - rewrite Hfetch. rewrite H25. reflexivity.
  - cbn [c_type c_size c_data ihdr_chunk fc_type fc_data].
    split; [reflexivity|]. split; [reflexivity|].
    unfold read_ihdr. cbn [c_data].
    assert (Hwb : bytes_at file (16 + 0) 4 = be32_bytes w) by reflexivity.
    assert (Hhb : bytes_at file (16 + 4) 4 = be32_bytes h) by reflexivity.
    rewrite Hwb, Hhb, !be_host32_be32_bytes by assumption.
    reflexivity.
Qed.

(** X7.  The 13 bytes of a header chunk are read back field by field:
    from a file that starts with the signature and a header chunk, [main]
    reads the width and the height as big-endian 32-bit numbers and the
    five one-byte fields in their order, and is left at offset 33. *)
Theorem ihdr_fields_read_back (w h bd ct cm fm im : Z) (rest : list Z) :
  let file := png_magic ++ chunk_bytes (ihdr_chunk w h bd ct cm fm im) ++ rest in
  0 <= w < 2 ^ 32 -> 0 <= h < 2 ^ 32 ->
  Z.of_nat (length file) <= PTRDIFF_MAX ->
  reads_header file
    {| width := w; height := h; bit_depth := bd; color_type := ct;
       compression := cm; filter := fm; interlace := im |}
    {| ptr := file; size := Z.of_nat (length file); index := 33 |}.
Proof. exact (reads_header_encoded w h bd ct cm fm im rest). Qed.

Lemma ihdr_fields_read_back_witness :
  let file := png_magic ++ chunk_bytes (ihdr_chunk 640 480 8 6 0 0 0) ++ [1; 2; 3] in
  (0 <= 640 < 2 ^ 32 /\ 0 <= 480 < 2 ^ 32 /\
   Z.of_nat (length file) <= PTRDIFF_MAX) /\
  reads_header file (mk_ihdr 640 480 8 6 0 0 0)
    {| ptr := file; size := Z.of_nat (length file); index := 33 |}.
Proof.
  intros file.
  assert (Hmax : Z.of_nat (length file) <= PTRDIFF_MAX)
    by (unfold PTRDIFF_MAX; cbn; lia).
  split; [repeat split; try lia; exact Hmax|].
  apply (ihdr_fields_read_back 640 480 8 6 0 0 0 [1; 2; 3]); try lia.
  exact Hmax.
Defined.

(** What [main] does once the signature is passed and a well-formed first
    chunk is fetched. *)
Lemma png_main_first_chunk (uncompress : list Z -> Z -> Z * list Z)
    (c : file_chunk) (rest : list Z) :
  let file := png_magic ++ chunk_bytes c ++ rest in
  let st0 := {| ptr := file; size := Z.of_nat (length file); index := 0 |} in
  let ch := {| c_size := Z.of_nat (length (fc_data c));
               c_type := fc_type c; c_data := 16 |} in
  chunk_ok c -> Z.of_nat (length file) <= PTRDIFF_MAX ->
  png_main uncompress file =
    if negb (strncmp tag_IHDR (fc_type c) 4 =? 0) then Failed MissingHeader
    else if negb (Z.of_nat (length (fc_data c)) =? 13) then Failed MissingHeader
    else
      match check_ihdr (read_ihdr file ch) with
      | inl e => Failed e
      | inr pixel_size =>
          match png_decompress_idat uncompress
                  (set_index st0 (8 + Z.of_nat (length (chunk_bytes c))))
                  (raw_size_of (read_ihdr file ch) pixel_size) with
          | inl e => Failed e
          | inr raw_data =>
              Written (write_ppm (width (read_ihdr file ch))
                         (height (read_ihdr file ch)) pixel_size raw_data)
          end
      end.
Proof.
  intros file st0 ch Hc Hmax.
  destruct (main_first_chunk c rest Hc Hmax) as [Hcheck Hfetch].
  fold file in Hcheck, Hfetch. fold st0 in Hcheck, Hfetch.
  unfold png_main. fold st0. rewrite Hcheck. cbn [negb Z.eqb].
  rewrite Hfetch. reflexivity.
Qed.

(** X8.  With the signature in place and a well-formed first chunk,
    [main] stops on its first two assertions exactly when that chunk is
    not tagged IHDR or its payload is not 13 bytes long; the comparison of
    the tag is on the 4 bytes, case included. *)
Theorem png_main_missing_header (uncompress : list Z -> Z -> Z * list Z)
    (c : file_chunk) (rest : list Z) :
  let file := png_magic ++ chunk_bytes c ++ rest in
  chunk_ok c -> Z.of_nat (length file) <= PTRDIFF_MAX ->
  (png_main uncompress file = Failed MissingHeader <->
   fc_type c <> tag_IHDR \/ length (fc_data c) <> 13%nat).
Proof.
  intros file Hc Hmax.
  pose proof (png_main_first_chunk uncompress c rest Hc Hmax) as Hmain.
  cbv zeta in Hmain. fold file in Hmain. rewrite Hmain. clear Hmain.
  pose proof (strncmp_tag_IHDR (fc_type c) (proj1 Hc)) as Htag.
  destruct (Z.eqb_spec (strncmp tag_IHDR (fc_type c) 4) 0) as [H0|H0];
    cbn [negb].
  - apply Htag in H0.
    destruct (Z.eqb_spec (Z.of_nat (length (fc_data c))) 13) as [H13|H13];
      cbn [negb].
    + split; [|intros [H|H]; [contradiction|lia]].
      intros Hfail. exfalso. revert Hfail.
      destruct (check_ihdr _) as [e|ps] eqn:Hchk.
      * apply check_ihdr_error in Hchk. subst e. discriminate.
      * destruct (png_decompress_idat _ _ _) as [e|raw] eqn:Hd; [|discriminate].
        intros [= ->].
        destruct (png_decompress_idat_error _ _ _ _ Hd)
          as [H1 | [H1 | [H1 | [H1 | H1]]]]; discriminate H1.
    + split; [intros _; right; lia|reflexivity].
  - split; [|reflexivity]. intros _. left. intros Heq. apply H0, Htag, Heq.
Qed.

Lemma png_main_missing_header_witness :
  let c := {| fc_type := [105; 72; 68; 82]; fc_data := replicate 13 0;
              fc_crc := [0; 0; 0; 0] |} in
  let file := png_magic ++ chunk_bytes c ++ [] in
  (chunk_ok c /\ Z.of_nat (length file) <= PTRDIFF_MAX) /\
  png_main (fun input _ => (Z_OK, input)) file = Failed MissingHeader.
Proof.
  intros c file.
  assert (Hc : chunk_ok c) by (unfold chunk_ok; cbn; lia).
  assert (Hmax : Z.of_nat (length file) <= PTRDIFF_MAX)
    by (unfold PTRDIFF_MAX; cbn; lia).
  split; [split; assumption|].
  apply (png_main_missing_header (fun input _ => (Z_OK, input)) c [] Hc Hmax).
  left. discriminate.
Defined.

Lemma png_fetch_next_chunk_truncated (pre tail : list Z) :
  let file := pre ++ tail in
  let st := {| ptr := file; size := Z.of_nat (length file);
               index := Z.of_nat (length pre) |} in
  Z.of_nat (length file) <= PTRDIFF_MAX -> truncated_tail tail ->
  fst (png_fetch_next_chunk st) = TruncatedInput.
Proof.
  intros file st Hmax Htail.
  assert (Hlen : Z.of_nat (length file)
                 = Z.of_nat (length pre) + Z.of_nat (length tail))
    by (unfold file; rewrite length_app; lia).
  assert (Hok : state_ok st) by (unfold state_ok, st; simpl; lia).
  destruct (png_fetch_next_chunk_cases st Hok) as (Hend & Hshort & _).
  destruct (Z_le_gt_dec (index st + 8) (size st)) as [Hle|Hgt].
  - rewrite (Hshort Hle); [reflexivity|].
    unfold st, file. cbn [ptr index size]. rewrite bytes_at_tail.
    change (Z.to_nat 4) with 4%nat. fold file.
    destruct Htail as [Ht|Ht]; [unfold st in Hle; cbn [index size] in Hle|];
      lia.
  - destruct (Hend Hgt) as (st' & -> & _). reflexivity.
Qed.

(** X9.  When what follows the signature is not a whole chunk (nothing
    at all, fewer than 8 bytes, or a declared length that runs past the end
    of the file), [main] ends quietly after the failed fetch: no assertion
    is reached and the codec is not run. *)
Theorem png_main_no_first_chunk (uncompress : list Z -> Z -> Z * list Z)
    (tail : list Z) :
  Z.of_nat (length (png_magic ++ tail)) <= PTRDIFF_MAX ->
  truncated_tail tail ->
  png_main uncompress (png_magic ++ tail) = Failed NoFirstChunk.
Proof.
  intros Hmax Htail.
  pose proof (png_fetch_next_chunk_truncated png_magic tail Hmax Htail) as Hf.
  cbv zeta in Hf.
  unfold png_main. rewrite png_check_initial.
  assert (Hlen : 8 <= Z.of_nat (length (png_magic ++ tail)))
    by (rewrite length_app; change (length png_magic) with 8%nat; lia).
  destruct (Z.ltb_spec (Z.of_nat (length (png_magic ++ tail))) 8); [lia|].
  assert (H0 : strncmp (png_magic ++ tail) png_magic 8 = 0).
  { apply strncmp_magic. change 8%nat with (length png_magic).
    apply take_app_length. }
  rewrite H0. cbn [negb Z.eqb]. unfold set_index. cbn [ptr size index].
  change (Z.of_nat (length png_magic)) with 8 in Hf.
  destruct (png_fetch_next_chunk _) as [[c|] st']; [discriminate Hf|].
  reflexivity.
Qed.

Lemma png_main_no_first_chunk_witness :
  (Z.of_nat (length (png_magic ++ [])) <= PTRDIFF_MAX /\ truncated_tail []) /\
  png_main (fun input _ => (Z_OK, input)) (png_magic ++ []) = Failed NoFirstChunk.
Proof.
  assert (Hmax : Z.of_nat (length (png_magic ++ [])) <= PTRDIFF_MAX)
    by (unfold PTRDIFF_MAX; cbn; lia).
  assert (Htail : truncated_tail []) by (left; cbn; lia).
  split; [split; assumption|].
  apply (png_main_no_first_chunk (fun input _ => (Z_OK, input)) [] Hmax Htail).
Defined.

(** [main] on a file made of the signature, a header chunk, well-formed
    chunks and at most a truncated rest. *)
Lemma png_main_encoded (uncompress : list Z -> Z -> Z * list Z)
    (w h bd ct cm fm im : Z) (cs : list file_chunk) (tail : list Z) :
  let hdr := mk_ihdr w h bd ct cm fm im in
  let file := png_magic ++ chunk_bytes (ihdr_chunk w h bd ct cm fm im)
              ++ concat (map chunk_bytes cs) ++ tail in
  0 <= w < 2 ^ 32 -> 0 <= h < 2 ^ 32 ->
  Forall chunk_ok cs -> truncated_tail tail ->
  Z.of_nat (length file) <= PTRDIFF_MAX ->
  png_main uncompress file =
    match check_ihdr hdr with
    | inl e => Failed e
    | inr pixel_size =>
        match uncompress_status
                (uncompress (idat_payloads cs) (raw_size_of hdr pixel_size))
                (raw_size_of hdr pixel_size) with
        | inl e => Failed e
        | inr raw_data => Written (write_ppm w h pixel_size raw_data)
        end
    end.
Proof.
  intros hdr file Hw Hh Hcs Htail Hmax.
  pose proof (reads_header_encoded w h bd ct cm fm im
                (concat (map chunk_bytes cs) ++ tail) Hw Hh Hmax) as Hread.
  cbv zeta in Hread. fold file in Hread.
  rewrite (png_main_after_header uncompress file hdr (after_header file) Hread).
  destruct (check_ihdr hdr) as [e|ps]; [reflexivity|].
  set (pre := png_magic ++ chunk_bytes (ihdr_chunk w h bd ct cm fm im)).
  assert (Hfile : file = pre ++ concat (map chunk_bytes cs) ++ tail)
    by (unfold file, pre; rewrite <- app_assoc; reflexivity).
  assert (Hpre : Z.of_nat (length pre) = 33) by reflexivity.
  pose proof (gather_idat_encoded pre cs tail Hcs) as Hg.
  cbv zeta in Hg. rewrite <- Hfile, Hpre in Hg.
  specialize (Hg Hmax Htail).
  unfold png_decompress_idat. unfold after_header. rewrite Hg. reflexivity.
Qed.

Lemma bytes_listed (l : list Z) :
  forallb (fun b => (0 <=? b) && (b <? 256)) l = true -> Forall is_byte l.
Proof.
  intros H. apply Forall_forall. intros b Hb.
  rewrite forallb_forall in H. apply list_elem_of_In in Hb.
  specialize (H b Hb). unfold is_byte. lia.
Qed.

Lemma uncompress_status_ok (r : Z * list Z) (buf_size : Z) (raw : list Z) :
  uncompress_status r buf_size = inr raw ->
  r = (Z_OK, raw) /\ Z.of_nat (length raw) = buf_size.
Proof.
  unfold uncompress_status. destruct r as [status out].
  destruct (status =? Z_MEM_ERROR); [discriminate|].
  destruct (status =? Z_BUF_ERROR); [discriminate|].
  destruct (status =? Z_DATA_ERROR); [discriminate|].
  destruct (Z.eqb_spec status Z_OK) as [->|]; cbn [negb]; [|discriminate].
  destruct (Z.eqb_spec (Z.of_nat (length out)) buf_size); cbn [negb];
    [|discriminate].
  intros [= <-]. split; [reflexivity|assumption].
Qed.

Lemma pixel_size_of_byte (h : ihdr) :
  is_byte (bit_depth h) -> 0 <= pixel_size h <= 124.
Proof.
  unfold is_byte, pixel_size. intros Hbd.
  rewrite Z.quot_div_nonneg by lia.
  assert (0 <= bit_depth h / 8 <= 31)
    by (split; [apply Z.div_pos; lia|];
        pose proof (Z.div_lt_upper_bound (bit_depth h) 8 32); lia).
  rewrite size_t_small;
    [|change (2 ^ 64) with 18446744073709551616];
    destruct (has_alpha h =? 0); lia.
Qed.

Lemma check_ihdr_pixel_size (h : ihdr) (ps : Z) :
  check_ihdr h = inr ps -> ps = pixel_size h.
Proof.
  rewrite check_ihdr_cases.
  destruct (_ && _); [intros [= <-]; reflexivity|discriminate].
Qed.

(** While [width * height] fits 32 bits, [raw_size] is the size of
    [height] rows. *)
Lemma raw_size_rows (h : ihdr) (ps : Z) :
  0 <= width h < 2 ^ 32 -> 0 <= height h < 2 ^ 32 -> 0 <= ps < 2 ^ 31 ->
  width h * height h < 2 ^ 32 ->
  raw_size_of h ps = height h * stride (width h) ps.
Proof.
  intros Hw Hh Hps Hsmall.
  change (2 ^ 32) with 4294967296 in *. change (2 ^ 31) with 2147483648 in *.
  unfold raw_size_of, uint32_t, stride. change (2 ^ 32) with 4294967296.
  rewrite (Z.mod_small (width h * height h)) by nia.
  assert (0 <= width h * height h * ps < 4294967296 * 2147483648) by nia.
  rewrite (size_t_small (_ * _))
    by (change (2 ^ 64) with 18446744073709551616; lia).
  rewrite size_t_small by (change (2 ^ 64) with 18446744073709551616; lia).
  ring.
Qed.

(** X10.  The stages of [main] compose as follows on a file made of the
    signature, a header chunk for an image of fewer than 2^32 pixels, any
    well-formed chunks and at most a truncated rest: the header decides
    alone whether [main] stops with [UnsupportedFeature]; otherwise
    [raw_size] is the size of [height] rows, the codec is given the
    payloads of the IDAT chunks that follow the header, in file order,
    with a buffer of that size, and its verdict is passed on; when it
    delivered bytes for rows of filter types 0..4, the outcome of [main]
    is the loop run on these bytes. *)
Theorem png_main_pipeline (uncompress : list Z -> Z -> Z * list Z)
    (w h bd ct cm fm im : Z) (cs : list file_chunk) (tail : list Z) :
  let hdr := mk_ihdr w h bd ct cm fm im in
  let file := png_magic ++ chunk_bytes (ihdr_chunk w h bd ct cm fm im)
              ++ concat (map chunk_bytes cs) ++ tail in
  0 <= w < 2 ^ 32 -> 0 <= h < 2 ^ 32 -> w * h < 2 ^ 32 -> is_byte bd ->
  Forall chunk_ok cs -> truncated_tail tail ->
  Z.of_nat (length file) <= PTRDIFF_MAX ->
  match check_ihdr hdr with
  | inl e => png_main uncompress file = Failed e
  | inr pixel_size =>
      raw_size_of hdr pixel_size = h * stride w pixel_size /\
      match uncompress_status
              (uncompress (idat_payloads cs) (h * stride w pixel_size))
              (h * stride w pixel_size) with
      | inl e => png_main uncompress file = Failed e
      | inr raw_data =>
          Z.of_nat (length raw_data) = h * stride w pixel_size /\
          (Forall is_byte raw_data ->
           filter_types_valid w pixel_size h raw_data ->
           png_main uncompress file = Written (write_ppm w h pixel_size raw_data))
      end
  end.
Proof.
  intros hdr file Hw Hh Hwh Hbd Hcs Htail Hmax.
  pose proof (png_main_encoded uncompress w h bd ct cm fm im cs tail
                Hw Hh Hcs Htail Hmax) as Hmain.
  cbv zeta in Hmain. fold hdr file in Hmain.
  destruct (check_ihdr hdr) as [e|ps] eqn:Hc; [exact Hmain|].
  apply check_ihdr_pixel_size in Hc.
  pose proof (pixel_size_of_byte hdr Hbd) as Hps. rewrite <- Hc in Hps.
  assert (Hraw : raw_size_of hdr ps = h * stride w ps).
  { apply (raw_size_rows hdr ps); try assumption.
    change (2 ^ 31) with 2147483648. lia. }
  split; [exact Hraw|]. rewrite Hraw in Hmain.
  destruct (uncompress_status _ _) as [e|raw] eqn:Hu; [exact Hmain|].
  destruct (uncompress_status_ok _ _ _ Hu) as [_ Hlen].
  split; [exact Hlen|]. intros _ _. exact Hmain.
Qed.

Lemma png_main_pipeline_witness :
  let cs := [ {| fc_type := tag_IDAT; fc_data := [0; 10]; fc_crc := [0; 0; 0; 0] |};
              {| fc_type := tag_IDAT; fc_data := [20; 30]; fc_crc := [0; 0; 0; 0] |} ] in
  let file := png_magic ++ chunk_bytes (ihdr_chunk 1 1 8 2 0 0 0)
              ++ concat (map chunk_bytes cs) ++ [] in
  (0 <= 1 < 2 ^ 32 /\ 1 * 1 < 2 ^ 32 /\ is_byte 8 /\
   Forall chunk_ok cs /\ truncated_tail [] /\
   Z.of_nat (length file) <= PTRDIFF_MAX /\
   Forall is_byte [0; 10; 20; 30] /\
   filter_types_valid 1 3 1 [0; 10; 20; 30]) /\
  png_main (fun input _ => (Z_OK, input)) file =
    Written {| mem := [0; 10; 20; 30];
               ppm := [PpmHeader 1 1; PpmSample 10; PpmSample 20; PpmSample 30;
                       PpmNewline];
               names := [Some name_none]; invalid := [] |}.
Proof.
  intros cs file.
  assert (Hw : 0 <= 1 < 2 ^ 32) by lia.
  assert (Hwh : 1 * 1 < 2 ^ 32) by lia.
  assert (Hbd : is_byte 8) by (unfold is_byte; lia).
  assert (Hcs : Forall chunk_ok cs).
  { unfold cs, chunk_ok, tag_IDAT.
    repeat (apply Forall_cons; split); try (apply Forall_nil; exact I);
      cbn [fc_type fc_data fc_crc length]; repeat split; lia. }
  assert (Htail : truncated_tail []) by (left; cbn; lia).
  assert (Hmax : Z.of_nat (length file) <= PTRDIFF_MAX)
    by (unfold PTRDIFF_MAX; cbn; lia).
  assert (Hb : Forall is_byte [0; 10; 20; 30])
    by (apply bytes_listed; reflexivity).
  assert (Hv : filter_types_valid 1 3 1 [0; 10; 20; 30]).
  { intros y Hy. assert (y = 0) as -> by lia. vm_compute. split; discriminate. }
  refine (conj (conj Hw (conj Hwh (conj Hbd (conj Hcs (conj Htail
            (conj Hmax (conj Hb Hv))))))) _).
  pose proof (png_main_pipeline (fun input _ => (Z_OK, input))
                1 1 8 2 0 0 0 cs [] Hw Hw Hwh Hbd Hcs Htail Hmax) as Hp.
  cbv zeta in Hp.
  assert (Hc : check_ihdr (mk_ihdr 1 1 8 2 0 0 0) = inr 3)
    by (vm_compute; reflexivity).
  rewrite Hc in Hp. destruct Hp as [_ Hp].
  assert (Hu : uncompress_status (Z_OK, idat_payloads cs) (1 * stride 1 3)
               = inr [0; 10; 20; 30]) by (vm_compute; reflexivity).
  rewrite Hu in Hp. destruct Hp as [_ Hp].
  unfold file. rewrite (Hp Hb Hv). vm_compute. reflexivity.
Defined.

(** X11.  [raw_size], the number of bytes allocated for the decompressed
    image and demanded of the codec, is [height] rows of
    [width * pixel_size + 1] bytes as long as [width * height] is below
    2^32.  The product of the two 32-bit fields is formed in 32 bits: from
    2^32 pixels on only its low 32 bits count, and the buffer is smaller
    than the rows the loop goes through. *)
Theorem raw_size_of_image (h : ihdr) (pixel_size : Z) :
  0 <= width h < 2 ^ 32 -> 0 <= height h < 2 ^ 32 -> 0 <= pixel_size < 2 ^ 31 ->
  raw_size_of h pixel_size
    = (width h * height h) mod 2 ^ 32 * pixel_size + height h /\
  (width h * height h < 2 ^ 32 ->
     raw_size_of h pixel_size = height h * stride (width h) pixel_size) /\
  (2 ^ 32 <= width h * height h -> 0 < pixel_size ->
     raw_size_of h pixel_size < height h * stride (width h) pixel_size).
Proof.
  intros Hw Hh Hps.
  assert (Hm : 0 <= (width h * height h) mod 2 ^ 32 < 2 ^ 32)
    by (apply Z.mod_pos_bound; lia).
  change (2 ^ 32) with 4294967296 in *. change (2 ^ 31) with 2147483648 in *.
  assert (Hv : raw_size_of h pixel_size
               = (width h * height h) mod 4294967296 * pixel_size + height h).
  { unfold raw_size_of, uint32_t. change (2 ^ 32) with 4294967296.
    assert (0 <= (width h * height h) mod 4294967296 * pixel_size
            < 4294967296 * 2147483648) by nia.
    rewrite (size_t_small (_ * _))
      by (change (2 ^ 64) with 18446744073709551616; lia).
    apply size_t_small. change (2 ^ 64) with 18446744073709551616. lia. }
  split; [exact Hv|]. split.
  - intros Hsmall. rewrite Hv, Z.mod_small by nia. unfold stride. ring.
  - intros Hbig Hpos. rewrite Hv. unfold stride.
    assert ((width h * height h) mod 4294967296 < width h * height h) by lia.
    nia.
Qed.

Lemma raw_size_of_image_witness :
  let h := mk_ihdr 65536 65536 8 2 0 0 0 in
  (0 <= width h < 2 ^ 32 /\ 0 <= height h < 2 ^ 32 /\ 0 <= 3 < 2 ^ 31 /\
   2 ^ 32 <= width h * height h) /\
  raw_size_of h 3 = 65536 /\
  raw_size_of h 3 < height h * stride (width h) 3.
Proof.
  intros h.
  assert (Hw : 0 <= width h < 2 ^ 32) by (cbn; lia).
  assert (Hh : 0 <= height h < 2 ^ 32) by (cbn; lia).
  assert (Hps : 0 <= 3 < 2 ^ 31) by lia.
  assert (Hbig : 2 ^ 32 <= width h * height h) by (cbn; lia).
  split; [repeat split; try apply Hw; try apply Hh; try lia; exact Hbig|].
  destruct (raw_size_of_image h 3 Hw Hh Hps) as (Hv & _ & Hlt).
  split; [rewrite Hv; reflexivity|apply Hlt; [exact Hbig|lia]].
Defined.

Lemma for_loop_mem_length {n : nat} (body : Z -> out_state -> out_state) :
  (forall k s, length (mem (body k s)) = length (mem s)) ->
  forall k s, length (mem (for_loop n k body s)) = length (mem s).
Proof.
  intros Hbody. induction n as [|n IH]; intros k s; [reflexivity|].
  cbn [for_loop]. rewrite IH. apply Hbody.
Qed.

(** The loop of [main] never changes the length of the buffer, whatever
    the buffer and the dimensions are. *)
Lemma write_ppm_length (width height pixel_size : Z) (raw_data : list Z) :
  length (mem (write_ppm width height pixel_size raw_data)) = length raw_data.
Proof.
  unfold write_ppm, for_range.
  rewrite for_loop_mem_length; [reflexivity|].
  intros y s. unfold row_step. cbv zeta. cbn [mem]. unfold for_range.
  rewrite for_loop_mem_length; [reflexivity|].
  intros x s'. rewrite for_loop_mem_length; [reflexivity|].
  intros i s''. rewrite mem_byte_step. apply length_store.
Qed.

(** X12.  For a file of bytes whose header declares fewer than 2^32
    pixels: [main] gets to write an image only if the header passed the
    assertions, the codec answered [Z_OK] and delivered exactly [raw_size]
    bytes -- one byte more or less stops it -- and [raw_size] is then
    the size of [height] rows.  When the bytes delivered are rows of
    filter types 0..4, the image is the loop's work on them, in a buffer
    of that same length. *)
Theorem png_main_written (uncompress : list Z -> Z -> Z * list Z)
    (file : list Z) (h : ihdr) (st : png_state) (s : out_state) :
  Forall is_byte file ->
  reads_header file h st ->
  width h * height h < 2 ^ 32 ->
  png_main uncompress file = Written s ->
  exists pixel_size input raw_data,
    check_ihdr h = inr pixel_size /\
    gather_idat (gather_fuel st) st [] = Some input /\
    raw_size_of h pixel_size = height h * stride (width h) pixel_size /\
    uncompress input (raw_size_of h pixel_size) = (Z_OK, raw_data) /\
    Z.of_nat (length raw_data) = height h * stride (width h) pixel_size /\
    (Forall is_byte raw_data ->
     filter_types_valid (width h) pixel_size (height h) raw_data ->
     s = write_ppm (width h) (height h) pixel_size raw_data /\
     Z.of_nat (length (mem s)) = height h * stride (width h) pixel_size).
Proof.
  intros Hfile Hread Hwh.
  rewrite (png_main_after_header uncompress file h st Hread).
  destruct Hread as (st1 & c & _ & _ & _ & _ & Hh).
  assert (Hw : 0 <= width h < 2 ^ 32)
    by (rewrite <- Hh; apply be_host32_range).
  assert (Hht : 0 <= height h < 2 ^ 32)
    by (rewrite <- Hh; apply be_host32_range).
  assert (Hbd : is_byte (bit_depth h))
    by (rewrite <- Hh; apply load_is_byte, Hfile).
  destruct (check_ihdr h) as [e|ps] eqn:Hc; [discriminate|].
  pose proof (check_ihdr_pixel_size h ps Hc) as Hps.
  pose proof (pixel_size_of_byte h Hbd) as Hrange. rewrite <- Hps in Hrange.
  assert (Hraw : raw_size_of h ps = height h * stride (width h) ps).
  { apply raw_size_rows; try assumption.
    change (2 ^ 31) with 2147483648. lia. }
  unfold png_decompress_idat.
  destruct (gather_idat (gather_fuel st) st []) as [input|]; [|discriminate].
  destruct (uncompress_status _ _) as [e|raw] eqn:Hu; [discriminate|].
  intros [= <-].
  destruct (uncompress_status_ok _ _ _ Hu) as [Hr Hlen].
  exists ps, input, raw.
  split; [reflexivity|]. split; [reflexivity|]. split; [exact Hraw|].
  split; [exact Hr|]. split; [rewrite <- Hraw; exact Hlen|].
  intros _ _. split; [reflexivity|].
  rewrite write_ppm_length, <- Hraw. exact Hlen.
Qed.

Lemma depth8_file_header :
  reads_header (png_file (ihdr_chunk 1 1 8 2 0 0 0) [0; 10; 20; 30])
    (mk_ihdr 1 1 8 2 0 0 0)
    (after_header (png_file (ihdr_chunk 1 1 8 2 0 0 0) [0; 10; 20; 30])).
Proof.
  unfold reads_header. eexists _, _.
  split; [vm_compute; reflexivity|].
  split; [vm_compute; reflexivity|].
  repeat split; vm_compute; reflexivity.
Qed.

Lemma png_main_written_witness :
  let file := png_file (ihdr_chunk 1 1 8 2 0 0 0) [0; 10; 20; 30] in
  let codec := fun (input : list Z) (_ : Z) => (Z_OK, input) in
  (Forall is_byte file /\
   reads_header file (mk_ihdr 1 1 8 2 0 0 0) (after_header file) /\
   1 * 1 < 2 ^ 32 /\
   png_main codec file = Written (write_ppm 1 1 3 [0; 10; 20; 30])) /\
  raw_size_of (mk_ihdr 1 1 8 2 0 0 0) 3 = 4 /\
  Z.of_nat (length (mem (write_ppm 1 1 3 [0; 10; 20; 30]))) = 4.
Proof.
  intros file codec.
  assert (Hfile : Forall is_byte file) by (apply bytes_listed; reflexivity).
  assert (Hwh : 1 * 1 < 2 ^ 32) by lia.
  assert (Hmain : png_main codec file = Written (write_ppm 1 1 3 [0; 10; 20; 30]))
    by (vm_compute; reflexivity).
  split; [repeat split; try assumption; exact depth8_file_header|].
  destruct (png_main_written codec file _ _ _ Hfile depth8_file_header Hwh Hmain)
    as (ps & input & raw & Hchk & Hin & Hraw & Hrun & Hlen & Hs).
  assert (Hps : ps = 3)
    by (vm_compute in Hchk; injection Hchk as <-; reflexivity).
  subst ps.
  vm_compute in Hin. injection Hin as <-.
  vm_compute in Hrun. injection Hrun as <-.
  split; [rewrite Hraw; reflexivity|].
  destruct Hs as [_ Hl].
  - apply bytes_listed. reflexivity.
  - intros y Hy. assert (y = 0) as -> by (cbn in Hy; lia).
    vm_compute. split; discriminate.
  - rewrite Hl. reflexivity.
Defined.

(** ** The other filter types and the borders *)

Section OtherFilters.

Variables (width pixel_size height : Z) (raw_data : list Z).
Hypothesis Hw : 0 <= width.
Hypothesis Hps : 0 <= pixel_size.
Hypothesis Hh : 0 <= height.
Hypothesis Hfit : height * stride width pixel_size <= PTRDIFF_MAX.
Hypothesis Hbytes : Forall is_byte raw_data.
Hypothesis Hlen : Z.of_nat (length raw_data) = height * stride width pixel_size.

Variables (y x i : Z).
Hypothesis Hy : 0 <= y < height.
Hypothesis Hx : 0 <= x < width.
Hypothesis Hi : 0 <= i < pixel_size.

(** X13.  A byte of a row of filter type 1 (Sub) becomes the filtered
    byte plus the reconstructed byte one pixel to the left, modulo 256;
    in the first pixel of the row it is stored as it is. *)
Theorem sub_reconstruction :
  load raw_data (row_start width pixel_size y) = 1 ->
  let out := mem (write_ppm width height pixel_size raw_data) in
  load out (pix width pixel_size y x i) =
    (load raw_data (pix width pixel_size y x i)
     + left_of out width pixel_size y x i) mod 256 /\
  (x = 0 -> load out (pix width pixel_size y x i)
            = load raw_data (pix width pixel_size y x i)).
Proof using All.
  intros Hfm out.
  pose proof (reconstructed_byte width pixel_size height raw_data
                Hw Hps Hh Hfit Hbytes Hlen y x i Hy Hx Hi) as Hrec.
  cbv zeta in Hrec. fold out in Hrec. rewrite Hfm in Hrec.
  change (reconstruct 1 ?r ?a ?b ?c) with ((r + a) mod 256) in Hrec.
  split; [exact Hrec|].
  intros ->. rewrite Hrec. unfold left_of. cbn [Z.eqb].
  pose proof (load_is_byte raw_data (pix width pixel_size y 0 i) Hbytes) as Hb.
  unfold is_byte in Hb. rewrite Z.add_0_r. apply Z.mod_small. exact Hb.
Qed.

(** X14.  A byte of a row of filter type 2 (Up) becomes the filtered byte
    plus the reconstructed byte above it, modulo 256; in the first row it
    is stored as it is. *)
Theorem up_reconstruction :
  load raw_data (row_start width pixel_size y) = 2 ->
  let out := mem (write_ppm width height pixel_size raw_data) in
  load out (pix width pixel_size y x i) =
    (load raw_data (pix width pixel_size y x i)
     + up_of out width pixel_size y x i) mod 256 /\
  (y = 0 -> load out (pix width pixel_size y x i)
            = load raw_data (pix width pixel_size y x i)).
Proof using All.
  intros Hfm out.
  pose proof (reconstructed_byte width pixel_size height raw_data
                Hw Hps Hh Hfit Hbytes Hlen y x i Hy Hx Hi) as Hrec.
  cbv zeta in Hrec. fold out in Hrec. rewrite Hfm in Hrec.
  change (reconstruct 2 ?r ?a ?b ?c) with ((r + b) mod 256) in Hrec.
  split; [exact Hrec|].
  intros Hy0. rewrite Hrec. unfold up_of. rewrite Hy0. cbn [Z.eqb].
  pose proof (load_is_byte raw_data (pix width pixel_size 0 x i) Hbytes) as Hb.
  unfold is_byte in Hb. rewrite Z.add_0_r. apply Z.mod_small. exact Hb.
Qed.

(** X15.  The borders.  Under each of the five filter types the first
    byte group of the image, the pixel at row 0 and column 0, is stored
    as it is.  In the first row Paeth acts as Sub and Average adds half
    of the left byte; in the first column Paeth acts as Up and Average
    adds half of the byte above. *)
Theorem border_reconstruction :
  let t := load raw_data (row_start width pixel_size y) in
  let raw := load raw_data (pix width pixel_size y x i) in
  let out := mem (write_ppm width height pixel_size raw_data) in
  0 <= t <= 4 ->
  (x = 0 -> y = 0 -> load out (pix width pixel_size y x i) = raw) /\
  (t = 4 -> y = 0 ->
     load out (pix width pixel_size y x i)
     = (raw + left_of out width pixel_size y x i) mod 256) /\
  (t = 4 -> x = 0 ->
     load out (pix width pixel_size y x i)
     = (raw + up_of out width pixel_size y x i) mod 256) /\
  (t = 3 -> y = 0 ->
     load out (pix width pixel_size y x i)
     = (raw + left_of out width pixel_size y x i / 2) mod 256) /\
  (t = 3 -> x = 0 ->
     load out (pix width pixel_size y x i)
     = (raw + up_of out width pixel_size y x i / 2) mod 256).
Proof using All.
  intros t raw out Ht.
  pose proof (reconstructed_byte width pixel_size height raw_data
                Hw Hps Hh Hfit Hbytes Hlen y x i Hy Hx Hi) as Hrec.
  cbv zeta in Hrec. fold out t raw in Hrec.
  destruct (neighbours_are_bytes width pixel_size height raw_data
              Hw Hps Hh Hfit Hbytes Hlen y x i) as (Hl & Hu & _).
  fold out in Hl, Hu. unfold is_byte in Hl, Hu.
  pose proof (load_is_byte raw_data (pix width pixel_size y x i) Hbytes) as Hb.
  fold raw in Hb. unfold is_byte in Hb.
  assert (Hx0 : x = 0 -> left_of out width pixel_size y x i = 0
                         /\ upleft_of out width pixel_size y x i = 0).
  { intros ->. unfold left_of, upleft_of. cbn [Z.eqb orb]. tauto. }
  assert (Hy0 : y = 0 -> up_of out width pixel_size y x i = 0
                         /\ upleft_of out width pixel_size y x i = 0).
  { intros ->. unfold up_of, upleft_of. cbn [Z.eqb].
    rewrite orb_true_r. tauto. }
  rewrite Hrec. clear Hrec.
  set (a := left_of out width pixel_size y x i) in *.
  set (b := up_of out width pixel_size y x i) in *.
  set (c := upleft_of out width pixel_size y x i) in *.
  repeat split.
  - intros X0 Y0. destruct (Hx0 X0) as [Ha Hc]. destruct (Hy0 Y0) as [Hbz _].
    rewrite Ha, Hbz, Hc. unfold reconstruct, predictor, paeth_choice.
    assert (Hcases : t = 0 \/ t = 1 \/ t = 2 \/ t = 3 \/ t = 4) by lia.
    destruct Hcases as [-> | [-> | [-> | [-> | ->]]]]; cbn;
      rewrite ?Z.add_0_r; try reflexivity; apply Z.mod_small; exact Hb.
  - intros -> Y0. destruct (Hy0 Y0) as [Hbz Hcz]. rewrite Hbz, Hcz.
    unfold reconstruct, predictor, paeth_choice. cbn [Z.eqb Z.leb Z.compare Pos.compare andb Pos.eqb].
    repeat case_decide; try reflexivity; lia.
  - intros -> X0. destruct (Hx0 X0) as [Haz Hcz]. rewrite Haz, Hcz.
    unfold reconstruct, predictor, paeth_choice. cbn [Z.eqb Z.leb Z.compare Pos.compare andb Pos.eqb].
    repeat case_decide; try reflexivity; f_equal; lia.
  - intros -> Y0. destruct (Hy0 Y0) as [Hbz _]. rewrite Hbz.
    unfold reconstruct, predictor. cbn [Z.eqb Z.leb Z.compare Pos.compare andb Pos.eqb].
    rewrite Z.add_0_r. reflexivity.
  - intros -> X0. destruct (Hx0 X0) as [Haz _]. rewrite Haz.
    unfold reconstruct, predictor. cbn [Z.eqb Z.leb Z.compare Pos.compare andb Pos.eqb].
    reflexivity.
Qed.

End OtherFilters.

Lemma sub_image_ok :
  1 * stride 2 3 <= PTRDIFF_MAX /\ Forall is_byte sub_image /\
  Z.of_nat (length sub_image) = 1 * stride 2 3.
Proof.
  split; [vm_compute; discriminate|]. split; [|reflexivity].
  apply bytes_listed. reflexivity.
Qed.

Lemma up_image_ok :
  2 * stride 1 3 <= PTRDIFF_MAX /\ Forall is_byte up_image /\
  Z.of_nat (length up_image) = 2 * stride 1 3.
Proof.
  split; [vm_compute; discriminate|]. split; [|reflexivity].
  apply bytes_listed. reflexivity.
Qed.

Lemma sub_reconstruction_witness :
  let out := mem (write_ppm 2 1 3 sub_image) in
  (1 * stride 2 3 <= PTRDIFF_MAX /\ Forall is_byte sub_image /\
   Z.of_nat (length sub_image) = 1 * stride 2 3 /\
   load sub_image (row_start 2 3 0) = 1) /\
  load sub_image (pix 2 3 0 1 0) = 200 /\ left_of out 2 3 0 1 0 = 100 /\
  load out (pix 2 3 0 1 0) = 44.
Proof.
  intros out.
  destruct sub_image_ok as (Hfit & Hb & Hl).
  assert (Hfm : load sub_image (row_start 2 3 0) = 1) by reflexivity.
  assert (Hraw : load sub_image (pix 2 3 0 1 0) = 200) by reflexivity.
  assert (Hleft : left_of out 2 3 0 1 0 = 100) by (vm_compute; reflexivity).
  split; [repeat split; assumption|].
  split; [exact Hraw|]. split; [exact Hleft|].
  destruct (sub_reconstruction 2 3 1 sub_image
              ltac:(lia) ltac:(lia) ltac:(lia) Hfit Hb Hl 0 1 0
              ltac:(lia) ltac:(lia) ltac:(lia) Hfm) as (Heq & _).
  fold out in Heq. rewrite Heq, Hraw, Hleft. reflexivity.
Defined.

Lemma up_reconstruction_witness :
  let out := mem (write_ppm 1 2 3 up_image) in
  (2 * stride 1 3 <= PTRDIFF_MAX /\ Forall is_byte up_image /\
   Z.of_nat (length up_image) = 2 * stride 1 3 /\
   load up_image (row_start 1 3 1) = 2) /\
  load up_image (pix 1 3 1 0 0) = 10 /\ up_of out 1 3 1 0 0 = 250 /\
  load out (pix 1 3 1 0 0) = 4.
Proof.
  intros out.
  destruct up_image_ok as (Hfit & Hb & Hl).
  assert (Hfm : load up_image (row_start 1 3 1) = 2) by reflexivity.
  assert (Hraw : load up_image (pix 1 3 1 0 0) = 10) by reflexivity.
  assert (Hup : up_of out 1 3 1 0 0 = 250) by (vm_compute; reflexivity).
  split; [repeat split; assumption|].
  split; [exact Hraw|]. split; [exact Hup|].
  destruct (up_reconstruction 1 3 2 up_image
              ltac:(lia) ltac:(lia) ltac:(lia) Hfit Hb Hl 1 0 0
              ltac:(lia) ltac:(lia) ltac:(lia) Hfm) as (Heq & _).
  fold out in Heq. rewrite Heq, Hraw, Hup. reflexivity.
Defined.

Lemma border_reconstruction_witness :
  let out := mem (write_ppm 2 2 3 paeth_image) in
  (2 * stride 2 3 <= PTRDIFF_MAX /\ Forall is_byte paeth_image /\
   Z.of_nat (length paeth_image) = 2 * stride 2 3 /\
   0 <= load paeth_image (row_start 2 3 1) <= 4) /\
  load paeth_image (row_start 2 3 1) = 4 /\
  load out (pix 2 3 1 0 0)
  = (load paeth_image (pix 2 3 1 0 0) + up_of out 2 3 1 0 0) mod 256.
Proof.
  intros out.
  destruct paeth_image_ok as (Hfit & Hb & Hl).
  assert (Hfm : load paeth_image (row_start 2 3 1) = 4) by reflexivity.
  assert (Ht : 0 <= load paeth_image (row_start 2 3 1) <= 4)
    by (rewrite Hfm; lia).
  split; [repeat split; try assumption; apply Ht|].
  split; [exact Hfm|].
  destruct (border_reconstruction 2 3 2 paeth_image
              ltac:(lia) ltac:(lia) ltac:(lia) Hfit Hb Hl 1 0 0
              ltac:(lia) ltac:(lia) ltac:(lia) Ht) as (_ & _ & Hcol & _).
  apply Hcol; [exact Hfm|reflexivity].
Defined.

(** X16.  The loop of [main] works in place without disturbing the
    layout: the buffer keeps its length, every cell stays a byte, the
    filter-type byte in front of each row is never written, and the bytes
    of a row of type 0 are left as they are. *)
Theorem write_ppm_preserves (width pixel_size height : Z) (raw_data : list Z)
    (y : Z) :
  0 <= width -> 0 <= pixel_size -> 0 <= height ->
  height * stride width pixel_size <= PTRDIFF_MAX ->
  Forall is_byte raw_data ->
  Z.of_nat (length raw_data) = height * stride width pixel_size ->
  0 <= y < height ->
  let out := mem (write_ppm width height pixel_size raw_data) in
  length out = length raw_data /\ Forall is_byte out /\
  load out (row_start width pixel_size y)
  = load raw_data (row_start width pixel_size y) /\
  (load raw_data (row_start width pixel_size y) = 0 ->
   forall x i, 0 <= x < width -> 0 <= i < pixel_size ->
     load out (pix width pixel_size y x i)
     = load raw_data (pix width pixel_size y x i)).
Proof.
  intros Hw Hps Hh Hfit Hbytes Hlen Hy out.
  destruct (write_ppm_rows width pixel_size height Hw Hps Hh Hfit raw_data
              Hbytes Hlen) as (Hl & Hb & Hrows).
  fold out in Hl, Hb, Hrows.
  destruct (Hrows y Hy) as [Hfm Hrow].
  repeat split; try assumption.
  intros H0 x i Hx Hi. rewrite (Hrow x i Hx Hi), H0. reflexivity.
Qed.

Lemma write_ppm_preserves_witness :
  let out := mem (write_ppm 2 2 3 average_image) in
  (2 * stride 2 3 <= PTRDIFF_MAX /\ Forall is_byte average_image /\
   Z.of_nat (length average_image) = 2 * stride 2 3) /\
  load out (row_start 2 3 1) = 3 /\ load out (pix 2 3 0 1 0) = 200.
Proof.
  intros out.
  destruct average_image_ok as (Hfit & Hb & Hl).
  split; [repeat split; assumption|].
  destruct (write_ppm_preserves 2 3 2 average_image 1
              ltac:(lia) ltac:(lia) ltac:(lia) Hfit Hb Hl ltac:(lia))
    as (_ & _ & Hfm & _).
  destruct (write_ppm_preserves 2 3 2 average_image 0
              ltac:(lia) ltac:(lia) ltac:(lia) Hfit Hb Hl ltac:(lia))
    as (_ & _ & _ & Hrow0).
  fold out in Hfm, Hrow0.
  split; [rewrite Hfm; reflexivity|].
  rewrite (Hrow0 eq_refl 1 0) by lia. reflexivity.
Defined.

(** ** What the loop writes *)

Lemma stable_True (lo hi : Z) : stable lo hi (fun _ _ => True).
Proof. intros m1 m1' m2 m2' _ _ _. exact I. Qed.

(** A loop whose iteration [k] rewrites the segment [lo k, lo (k+1)) and
    appends to a log what [E k] makes of the buffer it leaves, has logged
    in the end what the [E k] make of the final buffer, in order. *)
Lemma for_loop_trace {A : Type} (proj : out_state -> list A) (N : Z)
    (body : Z -> out_state -> out_state) (lo : Z -> Z)
    (E : Z -> list Z -> list A) (n : nat) :
  forall (k0 : Z) (s : out_state),
  0 <= lo k0 ->
  (forall k, k0 <= k < k0 + Z.of_nat n -> lo k <= lo (k + 1)) ->
  (forall k s, k0 <= k < k0 + Z.of_nat n ->
     segment_spec N (lo k) (lo (k + 1)) (fun _ _ => True)
       (mem s) (mem (body k s))) ->
  (forall k s, k0 <= k < k0 + Z.of_nat n ->
     Forall is_byte (mem s) -> Z.of_nat (length (mem s)) = N ->
     proj (body k s) = proj s ++ E k (mem (body k s))) ->
  (forall k m m', k0 <= k < k0 + Z.of_nat n ->
     (forall q, 0 <= q < lo (k + 1) -> load m' q = load m q) ->
     E k m' = E k m) ->
  Forall is_byte (mem s) -> Z.of_nat (length (mem s)) = N ->
  proj (for_loop n k0 body s) =
    proj s ++ concat (map (fun k => E k (mem (for_loop n k0 body s)))
                          (counter_values n k0)).
Proof.
  induction n as [|n IH]; intros k0 s Hlo Hmono Hseg Hlog Hstab Hm HN.
  - cbn. rewrite app_nil_r. reflexivity.
  - cbn [for_loop counter_values map concat].
    assert (Hstep : lo k0 <= lo (k0 + 1)) by (apply Hmono; lia).
    destruct (Hseg k0 s ltac:(lia) Hm HN) as (Hlen1 & Hb1 & _ & _).
    assert (HN1 : Z.of_nat (length (mem (body k0 s))) = N)
      by (rewrite Hlen1; exact HN).
    rewrite (IH (k0 + 1) (body k0 s)); try assumption; try lia.
    + rewrite (Hlog k0 s ltac:(lia) Hm HN), <- app_assoc. f_equal. f_equal.
      symmetry. apply Hstab; [lia|].
      destruct (for_loop_segments N body lo (fun _ _ _ => True) n
                  (k0 + 1) (body k0 s)) as (_ & _ & Hfr & _);
        try assumption; try lia.
      * intros k Hk. apply Hmono. lia.
      * intros k s' Hk. apply Hseg. lia.
      * intros k Hk. apply stable_True.
      * intros q Hq. apply Hfr; lia.
    + intros k Hk. apply Hmono. lia.
    + intros k s' Hk. apply Hseg. lia.
    + intros k s' Hk. apply Hlog. lia.
    + intros k m m' Hk. apply Hstab. lia.
Qed.

Lemma length_counter_values (n : nat) (k : Z) : length (counter_values n k) = n.
Proof.
  revert k. induction n as [|n IH]; intros k; [reflexivity|].
  cbn [counter_values length]. rewrite IH. reflexivity.
Qed.

Lemma in_counter_values (n : nat) (k j : Z) :
  In j (counter_values n k) -> k <= j < k + Z.of_nat n.
Proof.
  revert k. induction n as [|n IH]; intros k H; [destruct H|].
  cbn [counter_values] in H. destruct H as [<-|H]; [lia|].
  apply IH in H. lia.
Qed.

Lemma concat_map_ext {A : Type} (f g : Z -> list A) (l : list Z) :
  (forall j, In j l -> f j = g j) -> concat (map f l) = concat (map g l).
Proof.
  intros H. induction l as [|j l IH]; [reflexivity|].
  cbn [map concat]. rewrite (H j) by (left; reflexivity).
  rewrite IH; [reflexivity|]. intros j' Hj'. apply H. right. exact Hj'.
Qed.

Section RowText.

Variables (N filter_method line : Z) (prev_line : option Z).
Variables (width pixel_size : Z).
Hypothesis Hw : 0 <= width.
Hypothesis Hps : 0 <= pixel_size.
Hypothesis Hline : 0 <= line.
Hypothesis Hprev : forall prev, prev_line = Some prev -> 0 <= prev < line.
Hypothesis Hend : line + width * pixel_size <= N.
Hypothesis Hfit : N < 2 ^ 64.

Lemma byte_step_text (x i : Z) (s : out_state) :
  0 <= x < width -> 0 <= i < pixel_size ->
  Forall is_byte (mem s) -> Z.of_nat (length (mem s)) = N ->
  ppm (byte_step filter_method line prev_line pixel_size x i s) =
    ppm s ++ text_byte
               (mem (byte_step filter_method line prev_line pixel_size x i s))
               line pixel_size x i.
Proof using All.
  intros Hx Hi Hm HN.
  destruct (in_row width pixel_size Hps x i Hx Hi) as (Hxp & Hlt & Hpos).
  unfold text_byte. rewrite mem_byte_step.
  rewrite (index_here_main pixel_size x i) by lia.
  rewrite load_store_eq by lia.
  unfold byte_step.
  destruct (switch_filter (mem s) filter_method line prev_line pixel_size x i)
    as [v bad].
  cbn [ppm fst]. destruct (i <? 3); [reflexivity|].
  rewrite app_nil_r. reflexivity.
Qed.

Lemma text_byte_stable (x i : Z) (m m' : list Z) :
  0 <= x < width -> 0 <= i < pixel_size ->
  (forall q, 0 <= q < line + (x * pixel_size + (i + 1)) -> load m' q = load m q) ->
  text_byte m' line pixel_size x i = text_byte m line pixel_size x i.
Proof using All.
  intros Hx Hi H.
  destruct (in_row width pixel_size Hps x i Hx Hi) as (Hxp & Hlt & Hpos).
  unfold text_byte. rewrite H by lia. reflexivity.
Qed.

Lemma pixel_loop_text (x : Z) (s : out_state) :
  0 <= x < width ->
  Forall is_byte (mem s) -> Z.of_nat (length (mem s)) = N ->
  let s' := for_range pixel_size
              (byte_step filter_method line prev_line pixel_size x) s in
  ppm s' = ppm s ++ text_pixel (mem s') line pixel_size x.
Proof using All.
  intros Hx Hm HN s'. subst s'. unfold for_range, text_pixel.
  assert (Hxp : 0 <= x * pixel_size) by nia.
  apply (for_loop_trace ppm N
           (byte_step filter_method line prev_line pixel_size x)
           (fun i => line + (x * pixel_size + i))
           (fun i m => text_byte m line pixel_size x i));
    try assumption.
  - lia.
  - intros k Hk. lia.
  - intros k s' Hk.
    eapply segment_spec_weaken;
      [| | | apply (byte_step_spec N filter_method line prev_line width
                      pixel_size Hps Hline Hprev Hend Hfit x k s')];
      try lia; try (intros; exact I).
  - intros k s' Hk. apply byte_step_text; lia.
  - intros k m m' Hk. apply text_byte_stable; lia.
Qed.

Lemma text_pixel_stable (x : Z) (m m' : list Z) :
  0 <= x < width ->
  (forall q, 0 <= q < line + (x + 1) * pixel_size -> load m' q = load m q) ->
  text_pixel m' line pixel_size x = text_pixel m line pixel_size x.
Proof using All.
  intros Hx H. unfold text_pixel. apply concat_map_ext.
  intros i Hin. apply in_counter_values in Hin.
  apply text_byte_stable; [exact Hx|lia|].
  intros q Hq. apply H. nia.
Qed.

Lemma row_loop_text (s : out_state) :
  Forall is_byte (mem s) -> Z.of_nat (length (mem s)) = N ->
  let s' := for_range width (fun x =>
              for_range pixel_size
                (byte_step filter_method line prev_line pixel_size x)) s in
  ppm s' = ppm s ++ concat (map (text_pixel (mem s') line pixel_size)
                                (counter_values (Z.to_nat width) 0)).
Proof using All.
  intros Hm HN s'. subst s'. unfold for_range at 1 3.
  apply (for_loop_trace ppm N
           (fun x => for_range pixel_size
                       (byte_step filter_method line prev_line pixel_size x))
           (fun x => line + x * pixel_size)
           (fun x m => text_pixel m line pixel_size x));
    try assumption.
  - lia.
  - intros k Hk. nia.
  - intros k s' Hk.
    eapply segment_spec_weaken;
      [| | | apply (pixel_loop_spec N filter_method line prev_line width
                      pixel_size Hps Hline Hprev Hend Hfit k s')];
      try lia; try (intros; exact I).
  - intros k s' Hk. apply pixel_loop_text; lia.
  - intros k m m' Hk. apply text_pixel_stable; lia.
Qed.

End RowText.

Section ImageText.

Variables (width pixel_size height : Z).
Hypothesis Hw : 0 <= width.
Hypothesis Hps : 0 <= pixel_size.
Hypothesis Hh : 0 <= height.
Hypothesis Hfit : height * stride width pixel_size <= PTRDIFF_MAX.

(** The body of the loop on [y] with its index arithmetic carried out. *)
Lemma row_step_unfold (y : Z) (s : out_state) :
  0 <= y < height ->
  row_step width pixel_size y s =
    let fm := load (mem s) (row_start width pixel_size y) in
    let s1 :=
      for_range width (fun x =>
        for_range pixel_size
          (byte_step fm (row_start width pixel_size y + 1)
             (if y =? 0 then None
              else Some (row_start width pixel_size (y - 1) + 1))
             pixel_size x))
        {| mem := mem s; ppm := ppm s;
           names := names s ++ [filter_methods !! Z.to_nat fm];
           invalid := invalid s |} in
    {| mem := mem s1; ppm := ppm s1 ++ [PpmNewline];
       names := names s1; invalid := invalid s1 |}.
Proof using All.
  intros Hy.
  destruct (row_bounds width pixel_size height Hw Hps Hh Hfit y Hy)
    as (Hwp & Hrs & Hnext & Hle & Hprev & HN64).
  assert (Hstride : size_t (size_t (width * pixel_size) + 1)
                    = stride width pixel_size).
  { unfold stride. rewrite (size_t_small (width * pixel_size)) by lia.
    apply size_t_small. lia. }
  assert (Hrow : size_t (y * stride width pixel_size)
                 = row_start width pixel_size y).
  { unfold row_start in *. apply size_t_small. lia. }
  unfold row_step. cbv zeta. rewrite Hstride, Hrow.
  destruct (Z.eqb_spec y 0) as [Hy0|Hy0]; [reflexivity|].
  assert (Hprow : size_t (size_t (y - 1) * stride width pixel_size)
                  = row_start width pixel_size (y - 1)).
  { destruct (Hprev Hy0) as (Hp1 & Hp2).
    assert (y < 2 ^ 64) by (unfold row_start, stride in *; nia).
    rewrite (size_t_small (y - 1)) by lia.
    unfold row_start in *. apply size_t_small. lia. }
  rewrite Hprow. reflexivity.
Qed.

Lemma row_step_text (y : Z) (s : out_state) :
  0 <= y < height ->
  Forall is_byte (mem s) ->
  Z.of_nat (length (mem s)) = height * stride width pixel_size ->
  ppm (row_step width pixel_size y s) =
    ppm s ++ ppm_row (mem (row_step width pixel_size y s)) width pixel_size y.
Proof using All.
  intros Hy Hm HN.
  destruct (row_bounds width pixel_size height Hw Hps Hh Hfit y Hy)
    as (Hwp & Hrs & Hnext & Hle & Hprev & HN64).
  rewrite (row_step_unfold y s Hy). cbv zeta. cbn [ppm mem].
  set (fm := load (mem s) (row_start width pixel_size y)).
  set (s0 := {| mem := mem s; ppm := ppm s;
                names := names s ++ [filter_methods !! Z.to_nat fm];
                invalid := invalid s |}).
  pose proof (row_loop_text (height * stride width pixel_size) fm
                (row_start width pixel_size y + 1)
                (if y =? 0 then None
                 else Some (row_start width pixel_size (y - 1) + 1))
                width pixel_size Hw Hps) as Htext.
  cbv zeta in Htext. rewrite (Htext ltac:(lia)); clear Htext.
  - cbn [ppm s0]. rewrite <- app_assoc. reflexivity.
  - intros prev. destruct (Z.eqb_spec y 0) as [|Hy0]; [discriminate|].
    intros [= <-]. destruct (Hprev Hy0). lia.
  - lia.
  - exact HN64.
  - exact Hm.
  - exact HN.
Qed.

Lemma ppm_row_stable (y : Z) (m m' : list Z) :
  0 <= y < height ->
  (forall q, 0 <= q < row_start width pixel_size (y + 1) -> load m' q = load m q) ->
  ppm_row m' width pixel_size y = ppm_row m width pixel_size y.
Proof using All.
  intros Hy H. unfold ppm_row. f_equal. apply concat_map_ext.
  intros x Hx. apply in_counter_values in Hx.
  unfold ppm_pixel. apply concat_map_ext.
  intros i Hi. apply in_counter_values in Hi.
  unfold ppm_byte.
  destruct (pix_bounds width pixel_size height Hw Hps Hh Hfit y x i Hy
              ltac:(lia) ltac:(lia)) as (Hpix & _).
  destruct (row_bounds width pixel_size height Hw Hps Hh Hfit y Hy)
    as (_ & Hrs & _).
  rewrite H by lia. reflexivity.
Qed.

(** X17.  The text written to [foo.ppm] is the header "P3 width height
    255" followed, row by row and pixel by pixel, by the bytes [i < 3] of
    each pixel as they stand in the buffer when the loop is done, with a
    newline after each row: the fourth and later bytes of a pixel (alpha,
    or half of the 16-bit samples) are reconstructed but not written. *)
Theorem write_ppm_text (raw_data : list Z) :
  Forall is_byte raw_data ->
  Z.of_nat (length raw_data) = height * stride width pixel_size ->
  let s := write_ppm width height pixel_size raw_data in
  ppm s = PpmHeader width height :: ppm_rows (mem s) width pixel_size height.
Proof using All.
  intros Hm HN s. subst s. unfold write_ppm, for_range, ppm_rows.
  set (s0 := {| mem := raw_data; ppm := [PpmHeader width height];
                names := []; invalid := [] |}).
  rewrite (for_loop_trace ppm (height * stride width pixel_size)
             (row_step width pixel_size) (row_start width pixel_size)
             (fun y m => ppm_row m width pixel_size y)
             (Z.to_nat height) 0 s0); try assumption.
  - reflexivity.
  - unfold row_start. lia.
  - intros k Hk.
    destruct (row_bounds width pixel_size height Hw Hps Hh Hfit k ltac:(lia))
      as (? & ? & ? & _). lia.
  - intros k s Hk.
    eapply segment_spec_weaken;
      [| | | apply (row_step_spec width pixel_size height Hw Hps Hh Hfit k s)];
      try lia; try (intros; exact I).
  - intros k s Hk. apply row_step_text. lia.
  - intros k m m' Hk. apply ppm_row_stable. lia.
Qed.

End ImageText.

Lemma write_ppm_text_witness :
  (0 <= 1 /\ 0 <= 4 /\ 0 <= 2 /\ 2 * stride 1 4 <= PTRDIFF_MAX /\
   Forall is_byte [0; 1; 2; 3; 99; 1; 1; 1; 1; 77] /\
   Z.of_nat (length [0; 1; 2; 3; 99; 1; 1; 1; 1; 77]) = 2 * stride 1 4) /\
  ppm (write_ppm 1 2 4 [0; 1; 2; 3; 99; 1; 1; 1; 1; 77]) =
    [PpmHeader 1 2; PpmSample 1; PpmSample 2; PpmSample 3; PpmNewline;
     PpmSample 1; PpmSample 1; PpmSample 1; PpmNewline].
Proof.
  assert (Hfit : 2 * stride 1 4 <= PTRDIFF_MAX) by (vm_compute; discriminate).
  assert (Hb : Forall is_byte [0; 1; 2; 3; 99; 1; 1; 1; 1; 77])
    by (apply bytes_listed; reflexivity).
  assert (Hl : Z.of_nat (length [0; 1; 2; 3; 99; 1; 1; 1; 1; 77]) = 2 * stride 1 4)
    by reflexivity.
  split; [repeat split; try assumption; lia|].
  rewrite (write_ppm_text 1 4 2 ltac:(lia) ltac:(lia) ltac:(lia) Hfit _ Hb Hl).
  vm_compute. reflexivity.
Defined.

(** ** The diagnostics *)

Lemma for_loop_keeps {A : Type} (proj : out_state -> A) (n : nat)
    (body : Z -> out_state -> out_state) :
  (forall k s, proj (body k s) = proj s) ->
  forall k s, proj (for_loop n k body s) = proj s.
Proof.
  intros Hbody. induction n as [|n IH]; intros k s; [reflexivity|].
  cbn [for_loop]. rewrite IH. apply Hbody.
Qed.

Lemma for_loop_appends {A : Type} (proj : out_state -> list A) (L : list A)
    (n : nat) (body : Z -> out_state -> out_state) :
  (forall k s, proj (body k s) = proj s ++ L) ->
  forall k s, proj (for_loop n k body s) = proj s ++ concat (replicate n L).
Proof.
  intros Hbody. induction n as [|n IH]; intros k s.
  - cbn. rewrite app_nil_r. reflexivity.
  - cbn [for_loop replicate concat]. rewrite IH, Hbody, <- app_assoc.
    reflexivity.
Qed.

Lemma concat_replicate_nil {A : Type} (n : nat) :
  concat (replicate n (@nil A)) = [].
Proof. induction n as [|n IH]; [reflexivity|exact IH]. Qed.

Lemma concat_replicate_replicate {A : Type} (n k : nat) (v : A) :
  concat (replicate n (replicate k v)) = replicate (n * k) v.
Proof.
  induction n as [|n IH]; [reflexivity|].
  cbn [replicate concat Nat.mul]. rewrite IH, replicate_add. reflexivity.
Qed.

Lemma names_byte_step (filter_method line : Z) (prev_line : option Z)
    (pixel_size x i : Z) (s : out_state) :
  names (byte_step filter_method line prev_line pixel_size x i s) = names s.
Proof.
  unfold byte_step.
  destruct (switch_filter (mem s) filter_method line prev_line pixel_size x i).
  reflexivity.
Qed.

Lemma invalid_byte_step (filter_method line : Z) (prev_line : option Z)
    (pixel_size x i : Z) (s : out_state) :
  invalid (byte_step filter_method line prev_line pixel_size x i s) =
    invalid s ++ (if valid_filter filter_method then [] else [filter_method]).
Proof.
  unfold byte_step, switch_filter, valid_filter.
  destruct (Z.eqb_spec filter_method 0) as [->|H0];
    [cbn; rewrite app_nil_r; reflexivity|].
  destruct (Z.eqb_spec filter_method 1) as [->|H1];
    [cbn; rewrite app_nil_r; reflexivity|].
  destruct (Z.eqb_spec filter_method 2) as [->|H2];
    [cbn; rewrite app_nil_r; reflexivity|].
  destruct (Z.eqb_spec filter_method 3) as [->|H3];
    [cbn; rewrite app_nil_r; reflexivity|].
  destruct (Z.eqb_spec filter_method 4) as [->|H4];
    [cbn; rewrite app_nil_r; reflexivity|].
  cbn [invalid].
  destruct (Z.leb_spec 0 filter_method), (Z.leb_spec filter_method 4);
    cbn [andb]; try reflexivity; lia.
Qed.

Section Diagnostics.

Variables (width pixel_size height : Z).
Hypothesis Hw : 0 <= width.
Hypothesis Hps : 0 <= pixel_size.
Hypothesis Hh : 0 <= height.
Hypothesis Hfit : height * stride width pixel_size <= PTRDIFF_MAX.

Lemma row_step_type_byte (y : Z) (s : out_state) :
  0 <= y < height ->
  Forall is_byte (mem s) ->
  Z.of_nat (length (mem s)) = height * stride width pixel_size ->
  load (mem (row_step width pixel_size y s)) (row_start width pixel_size y)
  = load (mem s) (row_start width pixel_size y).
Proof using All.
  intros Hy Hm HN.
  destruct (row_step_spec width pixel_size height Hw Hps Hh Hfit y s Hy Hm HN)
    as (_ & _ & _ & Hfm & _).
  exact Hfm.
Qed.

Lemma row_step_names (y : Z) (s : out_state) :
  0 <= y < height ->
  Forall is_byte (mem s) ->
  Z.of_nat (length (mem s)) = height * stride width pixel_size ->
  names (row_step width pixel_size y s) =
    names s ++ names_row (mem (row_step width pixel_size y s)) width pixel_size y.
Proof using All.
  intros Hy Hm HN. unfold names_row.
  rewrite (row_step_type_byte y s Hy Hm HN).
  rewrite (row_step_unfold width pixel_size height Hw Hps Hh Hfit y s Hy).
  cbv zeta. cbn [names]. unfold for_range.
  rewrite (for_loop_keeps names); [reflexivity|].
  intros x s'. rewrite (for_loop_keeps names); [reflexivity|].
  intros i s''. apply names_byte_step.
Qed.

Lemma row_step_invalid (y : Z) (s : out_state) :
  0 <= y < height ->
  Forall is_byte (mem s) ->
  Z.of_nat (length (mem s)) = height * stride width pixel_size ->
  invalid (row_step width pixel_size y s) =
    invalid s ++ invalid_row (mem (row_step width pixel_size y s))
                   width pixel_size y.
Proof using All.
  intros Hy Hm HN. unfold invalid_row.
  rewrite (row_step_type_byte y s Hy Hm HN).
  rewrite (row_step_unfold width pixel_size height Hw Hps Hh Hfit y s Hy).
  cbv zeta. cbn [invalid]. unfold for_range.
  set (fm := load (mem s) (row_start width pixel_size y)).
  rewrite (for_loop_appends invalid
             (concat (replicate (Z.to_nat pixel_size)
                        (if valid_filter fm then [] else [fm])))).
  - cbn [invalid]. f_equal. destruct (valid_filter fm).
    + rewrite concat_replicate_nil. apply concat_replicate_nil.
    + change [fm] with (replicate 1 fm).
      rewrite !concat_replicate_replicate. f_equal. nia.
  - intros x s'. apply for_loop_appends.
    intros i s''. apply invalid_byte_step.
Qed.

Lemma type_byte_stable (y : Z) (m m' : list Z) :
  0 <= y < height ->
  (forall q, 0 <= q < row_start width pixel_size (y + 1) -> load m' q = load m q) ->
  load m' (row_start width pixel_size y) = load m (row_start width pixel_size y).
Proof using All.
  intros Hy H.
  destruct (row_bounds width pixel_size height Hw Hps Hh Hfit y Hy)
    as (Hwp & Hrs & Hnext & _).
  apply H. lia.
Qed.

End Diagnostics.

Lemma concat_map_singleton {A : Type} (f : Z -> A) (l : list Z) :
  concat (map (fun k => [f k]) l) = map f l.
Proof. induction l as [|k l IH]; [reflexivity|]. cbn. rewrite IH. reflexivity. Qed.

(** ** A filter type outside 0..4 *)






(** What the model records in [names] for the rows, in order: the
    lookup of each row's type byte in [filter_methods]. *)
Lemma names_recorded (width pixel_size height : Z) (raw_data : list Z) :
  0 <= width -> 0 <= pixel_size -> 0 <= height ->
  height * stride width pixel_size <= PTRDIFF_MAX ->
  Forall is_byte raw_data ->
  Z.of_nat (length raw_data) = height * stride width pixel_size ->
  names (write_ppm width height pixel_size raw_data) =
    map (fun y => filter_methods
                    !! Z.to_nat (load raw_data (row_start width pixel_size y)))
        (counter_values (Z.to_nat height) 0).
Proof.
  intros Hw Hps Hh Hfit Hm HN.
  destruct (write_ppm_rows width pixel_size height Hw Hps Hh Hfit raw_data Hm HN)
    as (_ & _ & Hrows).
  unfold write_ppm, for_range in *.
  set (s0 := {| mem := raw_data; ppm := [PpmHeader width height];
                names := []; invalid := [] |}) in *.
  rewrite (for_loop_trace names (height * stride width pixel_size)
             (row_step width pixel_size) (row_start width pixel_size)
             (fun y m => names_row m width pixel_size y)
             (Z.to_nat height) 0 s0); try assumption.
  + cbn [names s0 app]. unfold names_row.
    rewrite (concat_map_singleton
               (fun y => filter_methods !! Z.to_nat
                  (load (mem (for_loop (Z.to_nat height) 0
                                (row_step width pixel_size) s0))
                     (row_start width pixel_size y)))).
    apply map_ext_in. intros y Hy. apply in_counter_values in Hy.
    destruct (Hrows y ltac:(lia)) as [Hfm _]. rewrite Hfm. reflexivity.
  + unfold row_start. lia.
  + intros k Hk.
    destruct (row_bounds width pixel_size height Hw Hps Hh Hfit k ltac:(lia))
      as (? & ? & ? & _). lia.
  + intros k s Hk.
    eapply segment_spec_weaken;
      [| | | apply (row_step_spec width pixel_size height Hw Hps Hh Hfit k s)];
      try lia; try (intros; exact I).
  + intros k s Hk. apply row_step_names; assumption || lia.
  + intros k m m' Hk Hagree. unfold names_row.
    rewrite (type_byte_stable width pixel_size height Hw Hps Hh Hfit k m m');
      [reflexivity|lia|exact Hagree].
Qed.

(** X18.  On a buffer whose rows all have a filter type of 0..4 the loop
    prints, for each row in order, the entry of the table [filter_methods]
    at the row's filter-type byte, and every one of these reads stays
    inside the table.  The table has five entries and the index is not
    checked: for a byte of 5 or more, and only then, the entry asked for
    lies outside it. *)
Theorem write_ppm_names (width pixel_size height : Z) (raw_data : list Z) :
  0 <= width -> 0 <= pixel_size -> 0 <= height ->
  height * stride width pixel_size <= PTRDIFF_MAX ->
  Forall is_byte raw_data ->
  Z.of_nat (length raw_data) = height * stride width pixel_size ->
  filter_types_valid width pixel_size height raw_data ->
  names (write_ppm width height pixel_size raw_data) =
    map (fun y => filter_methods
                    !! Z.to_nat (load raw_data (row_start width pixel_size y)))
        (counter_values (Z.to_nat height) 0) /\
  Forall is_Some (names (write_ppm width height pixel_size raw_data)) /\
  (forall t, is_byte t -> (filter_methods !! Z.to_nat t = None <-> 5 <= t)).
Proof.
  intros Hw Hps Hh Hfit Hm HN Hvalid.
  pose proof (names_recorded width pixel_size height raw_data
                Hw Hps Hh Hfit Hm HN) as Hn.
  split; [exact Hn|]. split.
  - rewrite Hn. apply List.Forall_forall. intros e He.
    apply in_map_iff in He as (y & <- & Hy). apply in_counter_values in Hy.
    specialize (Hvalid y ltac:(lia)).
    apply lookup_lt_is_Some. change (length filter_methods) with 5%nat. lia.
  - intros t Ht. unfold is_byte in Ht.
    rewrite lookup_ge_None. change (length filter_methods) with 5%nat. lia.
Qed.

Lemma write_ppm_names_witness :
  (0 <= 2 /\ 0 <= 3 /\ 0 <= 2 /\ 2 * stride 2 3 <= PTRDIFF_MAX /\
   Forall is_byte average_image /\
   Z.of_nat (length average_image) = 2 * stride 2 3 /\
   filter_types_valid 2 3 2 average_image) /\
  names (write_ppm 2 2 3 average_image) = [Some name_none; Some name_average].
Proof.
  destruct average_image_ok as (Hfit & Hb & Hl).
  assert (Hv : filter_types_valid 2 3 2 average_image).
  { intros y Hy. assert (Hc : y = 0 \/ y = 1) by lia.
    destruct Hc as [-> | ->]; vm_compute; split; discriminate. }
  refine (conj (conj _ (conj _ (conj _
            (conj Hfit (conj Hb (conj Hl Hv)))))) _); [lia|lia|lia|].
  destruct (write_ppm_names 2 3 2 average_image
              ltac:(lia) ltac:(lia) ltac:(lia) Hfit Hb Hl Hv) as [Hn _].
  rewrite Hn. reflexivity.
Defined.

(** What the model records in [invalid], row by row. *)
Lemma invalid_recorded (width pixel_size height : Z) (raw_data : list Z) :
  0 <= width -> 0 <= pixel_size -> 0 <= height ->
  height * stride width pixel_size <= PTRDIFF_MAX ->
  Forall is_byte raw_data ->
  Z.of_nat (length raw_data) = height * stride width pixel_size ->
  invalid (write_ppm width height pixel_size raw_data) =
    concat (map (invalid_row raw_data width pixel_size)
                (counter_values (Z.to_nat height) 0)).
Proof.
  intros Hw Hps Hh Hfit Hm HN.
  destruct (write_ppm_rows width pixel_size height Hw Hps Hh Hfit raw_data Hm HN)
    as (_ & _ & Hrows).
  unfold write_ppm, for_range in *.
  set (s0 := {| mem := raw_data; ppm := [PpmHeader width height];
                names := []; invalid := [] |}) in *.
  rewrite (for_loop_trace invalid (height * stride width pixel_size)
             (row_step width pixel_size) (row_start width pixel_size)
             (fun y m => invalid_row m width pixel_size y)
             (Z.to_nat height) 0 s0); try assumption.
  + cbn [invalid s0 app]. apply concat_map_ext.
    intros y Hy. apply in_counter_values in Hy. unfold invalid_row.
    destruct (Hrows y ltac:(lia)) as [Hfm _]. rewrite Hfm. reflexivity.
  + unfold row_start. lia.
  + intros k Hk.
    destruct (row_bounds width pixel_size height Hw Hps Hh Hfit k ltac:(lia))
      as (? & ? & ? & _). lia.
  + intros k s Hk.
    eapply segment_spec_weaken;
      [| | | apply (row_step_spec width pixel_size height Hw Hps Hh Hfit k s)];
      try lia; try (intros; exact I).
  + intros k s Hk. apply row_step_invalid; assumption || lia.
  + intros k m m' Hk Hagree. unfold invalid_row.
    rewrite (type_byte_stable width pixel_size height Hw Hps Hh Hfit k m m');
      [reflexivity|lia|exact Hagree].
Qed.

(** X19.  The [switch] reports "invalid filter" exactly when it is
    entered with a filter method outside 0..4, and a buffer whose rows
    all have a type of 0..4 is defiltered without a single report. *)
Theorem write_ppm_invalid (width pixel_size height : Z) (raw_data : list Z) :
  0 <= width -> 0 <= pixel_size -> 0 <= height ->
  height * stride width pixel_size <= PTRDIFF_MAX ->
  Forall is_byte raw_data ->
  Z.of_nat (length raw_data) = height * stride width pixel_size ->
  filter_types_valid width pixel_size height raw_data ->
  invalid (write_ppm width height pixel_size raw_data) = [] /\
  (forall m filter_method line prev_line ps x i,
     snd (switch_filter m filter_method line prev_line ps x i) = true
     <-> ~ (0 <= filter_method <= 4)).
Proof.
  intros Hw Hps Hh Hfit Hm HN Hvalid. split.
  - rewrite (invalid_recorded width pixel_size height raw_data
               Hw Hps Hh Hfit Hm HN).
    assert (Hnil : forall l, (forall y, In y l -> 0 <= y < height) ->
              concat (map (invalid_row raw_data width pixel_size) l) = []).
    { induction l as [|y l IH]; intros Hl; [reflexivity|].
      cbn [map concat]. rewrite IH by (intros y' Hy'; apply Hl; right; exact Hy').
      unfold invalid_row, valid_filter.
      specialize (Hvalid y (Hl y (or_introl eq_refl))).
      destruct (Z.leb_spec 0 (load raw_data (row_start width pixel_size y))),
        (Z.leb_spec (load raw_data (row_start width pixel_size y)) 4);
        cbn [andb]; try reflexivity; lia. }
    apply Hnil. intros y Hy. apply in_counter_values in Hy. lia.
  - intros m fm line prev_line ps x i. unfold switch_filter.
    destruct (Z.eqb_spec fm 0); [cbn [snd]; split; [discriminate|lia]|].
    destruct (Z.eqb_spec fm 1); [cbn [snd]; split; [discriminate|lia]|].
    destruct (Z.eqb_spec fm 2); [cbn [snd]; split; [discriminate|lia]|].
    destruct (Z.eqb_spec fm 3); [cbn [snd]; split; [discriminate|lia]|].
    destruct (Z.eqb_spec fm 4); [cbn [snd]; split; [discriminate|lia]|].
    cbn [snd]. split; [lia|reflexivity].
Qed.

Lemma write_ppm_invalid_witness :
  (0 <= 2 /\ 0 <= 3 /\ 0 <= 2 /\ 2 * stride 2 3 <= PTRDIFF_MAX /\
   Forall is_byte average_image /\
   Z.of_nat (length average_image) = 2 * stride 2 3 /\
   filter_types_valid 2 3 2 average_image) /\
  invalid (write_ppm 2 2 3 average_image) = [].
Proof.
  destruct average_image_ok as (Hfit & Hb & Hl).
  assert (Hv : filter_types_valid 2 3 2 average_image).
  { intros y Hy. assert (Hc : y = 0 \/ y = 1) by lia.
    destruct Hc as [-> | ->]; vm_compute; split; discriminate. }
  refine (conj (conj _ (conj _ (conj _
            (conj Hfit (conj Hb (conj Hl Hv)))))) _); [lia|lia|lia|].
  destruct (write_ppm_invalid 2 3 2 average_image
              ltac:(lia) ltac:(lia) ltac:(lia) Hfit Hb Hl Hv) as [Hn _].
  exact Hn.
Defined.

(** ** What [main] does not look at *)

Lemma for_loop_idle {S : Type} (n : nat) (body : Z -> S -> S) :
  (forall k s, body k s = s) -> forall k s, for_loop n k body s = s.
Proof.
  intros Hbody. induction n as [|n IH]; intros k s; [reflexivity|].
  cbn [for_loop]. rewrite Hbody. apply IH.
Qed.

Lemma row_step_no_bytes (w y : Z) (s : out_state) :
  mem (row_step w 0 y s) = mem s /\
  ppm (row_step w 0 y s) = ppm s ++ [PpmNewline].
Proof.
  unfold row_step. cbv zeta. unfold for_range.
  rewrite for_loop_idle; [split; reflexivity|].
  intros x s'. reflexivity.
Qed.

Lemma rows_no_bytes (w : Z) (n : nat) :
  forall k s,
  mem (for_loop n k (row_step w 0) s) = mem s /\
  ppm (for_loop n k (row_step w 0) s) = ppm s ++ replicate n PpmNewline.
Proof.
  induction n as [|n IH]; intros k s.
  - cbn. rewrite app_nil_r. split; reflexivity.
  - cbn [for_loop replicate].
    destruct (IH (k + 1) (row_step w 0 k s)) as [Hmem Hppm].
    destruct (row_step_no_bytes w k s) as [Hm1 Hp1].
    rewrite Hmem, Hppm, Hm1, Hp1, <- app_assoc. split; reflexivity.
Qed.

(** X20.  A header with a bit depth below 8 is not rejected: its pixel
    size is 0, [raw_size] is the height alone, and the loop then has no
    byte to reconstruct: it leaves the buffer as the codec delivered it
    and writes a PPM text made of the header and one empty line for each
    row. *)
Theorem write_ppm_depth_below_8 (h : ihdr) (raw_data : list Z) :
  0 <= bit_depth h < 8 -> 0 <= height h < 2 ^ 32 ->
  pixel_size h = 0 /\
  raw_size_of h 0 = height h /\
  mem (write_ppm (width h) (height h) 0 raw_data) = raw_data /\
  ppm (write_ppm (width h) (height h) 0 raw_data) =
    PpmHeader (width h) (height h) :: replicate (Z.to_nat (height h)) PpmNewline.
Proof.
  intros Hbd Hh.
  assert (Hq : Z.quot (bit_depth h) 8 = 0) by (apply Z.quot_small; lia).
  split; [unfold pixel_size; rewrite Hq, Z.mul_0_r; reflexivity|].
  split.
  { unfold raw_size_of. rewrite Z.mul_0_r. change (size_t 0) with 0.
    apply size_t_small. change (2 ^ 32) with 4294967296 in Hh.
    change (2 ^ 64) with 18446744073709551616. lia. }
  unfold write_ppm, for_range.
  destruct (rows_no_bytes (width h) (Z.to_nat (height h)) 0
              {| mem := raw_data; ppm := [PpmHeader (width h) (height h)];
                 names := []; invalid := [] |}) as [Hmem Hppm].
  rewrite Hmem, Hppm. split; reflexivity.
Qed.

Lemma write_ppm_depth_below_8_witness :
  let h := mk_ihdr 1 1 4 2 0 0 0 in
  (0 <= bit_depth h < 8 /\ 0 <= height h < 2 ^ 32) /\
  pixel_size h = 0 /\
  ppm (write_ppm 1 1 0 [0]) = [PpmHeader 1 1; PpmNewline].
Proof.
  intros h.
  assert (Hbd : 0 <= bit_depth h < 8) by (cbn; lia).
  assert (Hh : 0 <= height h < 2 ^ 32) by (cbn; lia).
  split; [split; assumption|].
  destruct (write_ppm_depth_below_8 h [0] Hbd Hh) as (Hps & _ & _ & Hppm).
  split; [exact Hps|exact Hppm].
Defined.

(** X21.  The compression method of the header is read and printed in
    the line of header values, and looked at nowhere else.  Two files that
    differ only in that byte are both read as far as the header, the two
    lines printed differ in that one value, and the assertions on the
    header, [raw_size] and the outcome of [main] are the same. *)
Theorem png_main_ignores_compression (uncompress : list Z -> Z -> Z * list Z)
    (w h bd ct cm cm' fm im : Z) (cs : list file_chunk) (tail : list Z) :
  let hdr := fun c => mk_ihdr w h bd ct c fm im in
  let file := fun c => png_magic ++ chunk_bytes (ihdr_chunk w h bd ct c fm im)
                       ++ concat (map chunk_bytes cs) ++ tail in
  0 <= w < 2 ^ 32 -> 0 <= h < 2 ^ 32 ->
  Forall chunk_ok cs -> truncated_tail tail ->
  Z.of_nat (length (file cm)) <= PTRDIFF_MAX ->
  reads_header (file cm) (hdr cm) (after_header (file cm)) /\
  reads_header (file cm') (hdr cm') (after_header (file cm')) /\
  header_line (hdr cm) = [w; h; bd; ct; cm; fm; im] /\
  header_line (hdr cm') = [w; h; bd; ct; cm'; fm; im] /\
  check_ihdr (hdr cm) = check_ihdr (hdr cm') /\
  (forall pixel_size,
     raw_size_of (hdr cm) pixel_size = raw_size_of (hdr cm') pixel_size) /\
  png_main uncompress (file cm) = png_main uncompress (file cm').
Proof.
  intros hdr file Hw Hh Hcs Htail Hmax.
  assert (Hmax' : Z.of_nat (length (file cm')) <= PTRDIFF_MAX).
  { unfold file in *. rewrite !length_app in *.
    destruct (ihdr_chunk_ok w h bd ct cm fm im) as [_ H25].
    destruct (ihdr_chunk_ok w h bd ct cm' fm im) as [_ H25'].
    lia. }
  split; [apply (reads_header_encoded w h bd ct cm fm im); assumption|].
  split; [apply (reads_header_encoded w h bd ct cm' fm im); assumption|].
  split; [reflexivity|]. split; [reflexivity|].
  split; [reflexivity|]. split; [reflexivity|].
  unfold file in *.
  rewrite (png_main_encoded uncompress w h bd ct cm fm im cs tail)
    by assumption.
  rewrite (png_main_encoded uncompress w h bd ct cm' fm im cs tail)
    by assumption.
  reflexivity.
Qed.

Lemma png_main_ignores_compression_witness :
  let file := fun c => png_magic ++ chunk_bytes (ihdr_chunk 1 1 8 2 c 0 0)
                       ++ concat (map chunk_bytes []) ++ [] in
  (0 <= 1 < 2 ^ 32 /\ Forall chunk_ok [] /\ truncated_tail [] /\
   Z.of_nat (length (file 0)) <= PTRDIFF_MAX) /\
  header_line (mk_ihdr 1 1 8 2 0 0 0) <> header_line (mk_ihdr 1 1 8 2 99 0 0) /\
  png_main (fun input _ => (Z_OK, input)) (file 0)
  = png_main (fun input _ => (Z_OK, input)) (file 99).
Proof.
  intros file.
  assert (Hcs : Forall chunk_ok []) by (apply Forall_nil; exact I).
  assert (Htail : truncated_tail []) by (left; cbn; lia).
  assert (Hmax : Z.of_nat (length (file 0)) <= PTRDIFF_MAX)
    by (unfold PTRDIFF_MAX; cbn; lia).
  split; [repeat split; try assumption; lia|].
  destruct (png_main_ignores_compression (fun input _ => (Z_OK, input))
              1 1 8 2 0 99 0 0 [] [] ltac:(lia) ltac:(lia) Hcs Htail Hmax)
    as (_ & _ & Hl & Hl' & _ & _ & Hmain).
  split; [rewrite Hl, Hl'; discriminate|exact Hmain].
Defined.

Lemma same_chunks_length (cs cs' : list file_chunk) :
  Forall chunk_ok cs -> Forall chunk_ok cs' ->
  map fc_data cs = map fc_data cs' ->
  length (concat (map chunk_bytes cs)) = length (concat (map chunk_bytes cs')).
Proof.
  intros Hcs. revert cs'.
  induction Hcs as [|c cs Hc Hcs IH]; intros [|c' cs'] Hcs' Hd;
    try discriminate; [reflexivity|].
  apply Forall_cons in Hcs' as [Hc' Hcs'].
  cbn [map] in Hd. injection Hd as Hd1 Hd2.
  cbn [map concat]. rewrite !length_app, (IH cs' Hcs' Hd2).
  pose proof (length_chunk_bytes c Hc).
  pose proof (length_chunk_bytes c' Hc').
  rewrite Hd1 in *. lia.
Qed.

Lemma same_chunks_payloads (cs cs' : list file_chunk) :
  map fc_type cs = map fc_type cs' -> map fc_data cs = map fc_data cs' ->
  idat_payloads cs = idat_payloads cs'.
Proof.
  revert cs'. unfold idat_payloads.
  induction cs as [|c cs IH]; intros [|c' cs'] Ht Hd; try discriminate;
    [reflexivity|].
  cbn [map] in Ht, Hd. injection Ht as Ht1 Ht2. injection Hd as Hd1 Hd2.
  assert (Hi : is_idat c = is_idat c')
    by (unfold is_idat; rewrite Ht1; reflexivity).
  cbn [List.filter]. rewrite Hi.
  destruct (is_idat c'); cbn [map concat];
    rewrite ?Hd1; rewrite (IH cs' Ht2 Hd2); reflexivity.
Qed.

(** X22.  The four checksum bytes of the chunks after the header are
    skipped, never compared: two files whose chunks agree in tag and
    payload make [main] end in the same way, whatever their checksums. *)
Theorem png_main_ignores_checksums (uncompress : list Z -> Z -> Z * list Z)
    (w h bd ct cm fm im : Z) (cs cs' : list file_chunk) (tail : list Z) :
  let file := fun l => png_magic ++ chunk_bytes (ihdr_chunk w h bd ct cm fm im)
                       ++ concat (map chunk_bytes l) ++ tail in
  0 <= w < 2 ^ 32 -> 0 <= h < 2 ^ 32 ->
  Forall chunk_ok cs -> Forall chunk_ok cs' ->
  map fc_type cs = map fc_type cs' -> map fc_data cs = map fc_data cs' ->
  truncated_tail tail ->
  Z.of_nat (length (file cs)) <= PTRDIFF_MAX ->
  png_main uncompress (file cs) = png_main uncompress (file cs').
Proof.
  intros file Hw Hh Hcs Hcs' Ht Hd Htail Hmax.
  assert (Hmax' : Z.of_nat (length (file cs')) <= PTRDIFF_MAX).
  { unfold file in *. rewrite !length_app in *.
    rewrite <- (same_chunks_length cs cs' Hcs Hcs' Hd). exact Hmax. }
  unfold file in *.
  rewrite (png_main_encoded uncompress w h bd ct cm fm im cs tail)
    by assumption.
  rewrite (png_main_encoded uncompress w h bd ct cm fm im cs' tail)
    by assumption.
  rewrite (same_chunks_payloads cs cs' Ht Hd). reflexivity.
Qed.

Lemma png_main_ignores_checksums_witness :
  let cs := [mk_file_chunk tag_IDAT [0; 1; 2; 3] [0; 0; 0; 0]] in
  let cs' := [mk_file_chunk tag_IDAT [0; 1; 2; 3] [9; 8; 7; 6]] in
  let file := fun l => png_magic ++ chunk_bytes (ihdr_chunk 1 1 8 2 0 0 0)
                       ++ concat (map chunk_bytes l) ++ [] in
  (0 <= 1 < 2 ^ 32 /\ Forall chunk_ok cs /\ Forall chunk_ok cs' /\
   map fc_type cs = map fc_type cs' /\ map fc_data cs = map fc_data cs' /\
   truncated_tail [] /\ Z.of_nat (length (file cs)) <= PTRDIFF_MAX) /\
  png_main (fun input _ => (Z_OK, input)) (file cs)
  = png_main (fun input _ => (Z_OK, input)) (file cs').
Proof.
  intros cs cs' file.
  assert (Hcs : Forall chunk_ok cs).
  { apply Forall_cons; split; [|apply Forall_nil; exact I].
    repeat split; cbn; lia. }
  assert (Hcs' : Forall chunk_ok cs').
  { apply Forall_cons; split; [|apply Forall_nil; exact I].
    repeat split; cbn; lia. }
  assert (Htail : truncated_tail []) by (left; cbn; lia).
  assert (Hmax : Z.of_nat (length (file cs)) <= PTRDIFF_MAX)
    by (unfold PTRDIFF_MAX; cbn; lia).
  split; [repeat split; try assumption; try lia|].
  apply (png_main_ignores_checksums (fun input _ => (Z_OK, input))
           1 1 8 2 0 0 0 cs cs' []); try assumption; try lia; reflexivity.
Defined.
